(** * camControl: the v4l2-ctl front end of [main.py]

    A shallow embedding of the class [CameraControl] (its constructor,
    the parser of the listing, [getValue], [setValue], [update]), of the
    slider slot [Window.sl_Change] and of the actions of
    [Window.action_Slot], with the properties of the text parser, of the
    error handling, of the two-pass update and of the configuration file.

    Conventions.  Python [str] is [list ascii]: the text exchanged with
    v4l2-ctl is ASCII (control names, types, numbers), and the character
    classes are those of [re] and [str] on ASCII.  Python [int] is [Z].  A
    Python [dict] is an association list in insertion order with one
    binding per key.  An exception is a value of [exn], returned with the
    state reached when it was raised.  The command /usr/bin/v4l2-ctl is a
    function of its arguments and of the state of the device; iterating
    over its output gives the lines of the output, as [sh] does.  The
    widgets of [Window], the file dialogs and the creation of the
    configuration directory are not modelled: the answer of a dialog is
    an argument of the action, and the files are a mapping from names to
    texts. *)

From Stdlib Require Import List Ascii ZArith Lia Bool Arith.
From Stdlib Require Import DecimalFacts DecimalPos DecimalZ.
From Stdlib Require String.
Import String.StringSyntax.
Delimit Scope string_scope with string.
Import ListNotations.

Set Implicit Arguments.

Abbreviation str := (list ascii).

Coercion String.list_ascii_of_string : String.string >-> list.

Open Scope list_scope.

(** ** Characters and character classes *)

Module Chars.

Definition code (a : ascii) : nat := nat_of_ascii a.

Definition between (lo hi : nat) (a : ascii) : bool :=
  (lo <=? code a) && (code a <=? hi).

Definition is_digit (a : ascii) : bool := between 48 57 a.
Definition is_lower (a : ascii) : bool := between 97 122 a.
Definition is_upper (a : ascii) : bool := between 65 90 a.

(** [\w] on ASCII text: letters, digits and the underscore. *)
Definition is_word (a : ascii) : bool :=
  is_lower a || is_upper a || is_digit a || (code a =? 95).

(** [\s] and [str.isspace] on ASCII text: TAB, LF, VT, FF, CR, the
    separators 0x1c..0x1f and the space. *)
Definition is_space (a : ascii) : bool :=
  between 9 13 a || between 28 31 a || (code a =? 32).

Definition newline : ascii := ascii_of_nat 10.

(** [.] without DOTALL: anything but a line feed. *)
Definition is_dot (a : ascii) : bool := negb (code a =? 10).

End Chars.
Import Chars.

(** ** The fragment of Python's [re] that the patterns of main.py use

    Quantifiers only apply to one-character classes in the three patterns
    of the source, so the abstract syntax has the repetition of a class
    rather than of an arbitrary expression; [x+] is [x x*]. *)

Module Re.

Inductive cset : Type :=
| Word                 (* \w *)
| Lower                (* [a-z] *)
| Space                (* \s *)
| Dot                  (* . *)
| Lit (a : ascii).     (* a literal character *)

Definition mem (c : cset) (a : ascii) : bool :=
  match c with
  | Word => is_word a
  | Lower => is_lower a
  | Space => is_space a
  | Dot => is_dot a
  | Lit b => Ascii.eqb a b
  end.

Inductive regex : Type :=
| Eps
| One (c : cset)                    (* one character of the class *)
| Star (greedy : bool) (c : cset)   (* c* (greedy) or c*? (lazy) *)
| Opt (c : cset)                    (* c?, greedy *)
| Cat (r1 r2 : regex)
| Grp (i : nat) (r : regex)         (* capturing group number i *)
| Eol.                              (* $ without MULTILINE *)

Definition Plus (g : bool) (c : cset) : regex := Cat (One c) (Star g c).

Fixpoint Lits (s : str) : regex :=
  match s with
  | [] => Eps
  | a :: s' => Cat (One (Lit a)) (Lits s')
  end.

(** Captured groups: the last binding made for a number is the first
    found. *)
Definition caps := list (nat * str).

Fixpoint group (i : nat) (cs : caps) : option str :=
  match cs with
  | [] => None
  | (j, s) :: cs' => if Nat.eqb i j then Some s else group i cs'
  end.

(** The text after the run of characters of a class at its head *)
Fixpoint skip_class (c : cset) (s : str) : str :=
  match s with
  | a :: s' => if mem c a then skip_class c s' else s
  | [] => []
  end.

Section Matcher.

Variable A : Type.

Definition orelse (x : option A) (y : option A) : option A :=
  match x with Some _ => x | None => y end.

(** [c*]: the longest run first, then shorter ones. *)
Fixpoint star_greedy (c : cset) (s : str) (k : str -> option A) : option A :=
  match s with
  | a :: s' =>
      if mem c a then orelse (star_greedy c s' k) (k s) else k s
  | [] => k s
  end.

(** [c*?]: the empty run first, then longer ones. *)
Fixpoint star_lazy (c : cset) (s : str) (k : str -> option A) : option A :=
  match k s with
  | Some x => Some x
  | None =>
      match s with
      | a :: s' => if mem c a then star_lazy c s' k else None
      | [] => None
      end
  end.

(** Backtracking matcher in continuation-passing style: [run r s cs k]
    matches [r] at the head of [s] and hands the rest of the text and the
    groups to [k]; the alternatives are tried in the order of the [re]
    engine and the first one on which [k] succeeds is kept. *)
Fixpoint run (r : regex) (s : str) (cs : caps)
    (k : str -> caps -> option A) : option A :=
  match r with
  | Eps => k s cs
  | One c =>
      match s with
      | a :: s' => if mem c a then k s' cs else None
      | [] => None
      end
  | Star g c =>
      (if g then star_greedy else star_lazy) c s (fun s' => k s' cs)
  | Opt c =>
      match s with
      | a :: s' => if mem c a then orelse (k s' cs) (k s cs) else k s cs
      | [] => k s cs
      end
  | Cat r1 r2 => run r1 s cs (fun s' cs' => run r2 s' cs' k)
  | Grp i r =>
      run r s cs
        (fun s' cs' => k s' ((i, firstn (length s - length s') s) :: cs'))
  | Eol =>
      match s with
      | [] => k s cs
      | [a] => if Ascii.eqb a newline then k s cs else None
      | _ => None
      end
  end.

End Matcher.

(** A match found by [search]: the text before it, the groups, the text
    after it. *)
Record found : Type := Found { before : str; groups : caps; after : str }.

(** [pattern.match]: the match at the head of the text. *)
Definition match_here (r : regex) (s : str) : option (caps * str) :=
  run r s [] (fun s' cs => Some (cs, s')).

(** [pattern.search]: the leftmost match. *)
Fixpoint search_from (r : regex) (pre : str) (s : str) : option found :=
  match match_here r s with
  | Some (cs, s') => Some (Found (rev pre) cs s')
  | None =>
      match s with
      | [] => None
      | a :: s' => search_from r (a :: pre) s'
      end
  end.

Definition search (r : regex) (s : str) : option found := search_from r [] s.

(** The groups 1..n of a match, as [re.split] lists them; a group that did
    not take part is [None] in Python, which no pattern here produces. *)
Definition groups_list (n : nat) (cs : caps) : list str :=
  map (fun i => match group i cs with Some g => g | None => [] end)
      (seq 1 n).

(** [pattern.split(string)]: the pieces of the text between the successive
    matches, each followed by the groups of the match that ends it.  The
    patterns of the source match no empty text, so the scan resumes after
    each match on a shorter text; [fuel] bounds the number of matches. *)
Fixpoint split_fuel (fuel : nat) (r : regex) (n : nat) (s : str)
    : list str :=
  match fuel with
  | O => [s]
  | S fuel' =>
      match search r s with
      | None => [s]
      | Some f =>
          if Nat.ltb (length (after f)) (length s)
          then before f :: groups_list n (groups f)
                 ++ split_fuel fuel' r n (after f)
          else [s]
      end
  end.

Definition split (r : regex) (n : nat) (s : str) : list str :=
  split_fuel (S (length s)) r n s.

End Re.

(** ** Python built-ins used by the source *)

Module Py.

Fixpoint eqb_str (s t : str) : bool :=
  match s, t with
  | [], [] => true
  | a :: s', b :: t' => Ascii.eqb a b && eqb_str s' t'
  | _, _ => false
  end.

(** The values stored in a control: [int] or [str]. *)
Inductive value : Type :=
| VInt (n : Z)
| VStr (s : str).

(** [==] between two such values: an [int] never equals a [str]. *)
Definition eqb_value (v w : value) : bool :=
  match v, w with
  | VInt n, VInt m => Z.eqb n m
  | VStr s, VStr t => eqb_str s t
  | _, _ => false
  end.

Inductive exn : Type :=
| IndexError
| KeyError (k : str)
| ValueError
| RuntimeError
| ErrorReturnCode         (* sh: the command exited with an error *)
| OSError                 (* open: no such file *)
| JSONDecodeError.

(** *** int(s) and str(n) *)

Definition digit_of (a : ascii) : option (Decimal.uint -> Decimal.uint) :=
  match code a with
  | 48 => Some Decimal.D0 | 49 => Some Decimal.D1 | 50 => Some Decimal.D2
  | 51 => Some Decimal.D3 | 52 => Some Decimal.D4 | 53 => Some Decimal.D5
  | 54 => Some Decimal.D6 | 55 => Some Decimal.D7 | 56 => Some Decimal.D8
  | 57 => Some Decimal.D9 | _ => None
  end.

(** The digits of a literal; [sep] tells that the previous character was a
    digit, after which one underscore may follow. *)
Fixpoint uint_of (sep : bool) (s : str) : option Decimal.uint :=
  match s with
  | [] => if sep then Some Decimal.Nil else None
  | a :: s' =>
      match digit_of a with
      | Some d => option_map d (uint_of true s')
      | None =>
          if (code a =? 95) && sep then
            match s' with
            | [] => None
            | _ => uint_of false s'
            end
          else None
      end
  end.

Fixpoint lstrip (s : str) : str :=
  match s with
  | a :: s' => if is_space a then lstrip s' else s
  | [] => []
  end.

Definition strip (s : str) : str := rev (lstrip (rev (lstrip s))).

(** [int(s)] in base 10: surrounding white space, an optional sign, digits
    with single underscores between them; [None] stands for ValueError. *)
Definition int (s : str) : option Z :=
  match strip s with
  | "-"%char :: t => option_map (fun u => Z.opp (Z.of_uint u)) (uint_of false t)
  | "+"%char :: t => option_map Z.of_uint (uint_of false t)
  | t => option_map Z.of_uint (uint_of false t)
  end.

Fixpoint digits_of (u : Decimal.uint) : str :=
  match u with
  | Decimal.Nil => []
  | Decimal.D0 u' => "0"%char :: digits_of u'
  | Decimal.D1 u' => "1"%char :: digits_of u'
  | Decimal.D2 u' => "2"%char :: digits_of u'
  | Decimal.D3 u' => "3"%char :: digits_of u'
  | Decimal.D4 u' => "4"%char :: digits_of u'
  | Decimal.D5 u' => "5"%char :: digits_of u'
  | Decimal.D6 u' => "6"%char :: digits_of u'
  | Decimal.D7 u' => "7"%char :: digits_of u'
  | Decimal.D8 u' => "8"%char :: digits_of u'
  | Decimal.D9 u' => "9"%char :: digits_of u'
  end.

(** [str(n)] and [repr(n)] of an [int]. *)
Definition str_of_int (n : Z) : str :=
  match Z.to_int n with
  | Decimal.Pos u => digits_of u
  | Decimal.Neg u => "-"%char :: digits_of u
  end.

(** [str(v)] *)
Definition str_of (v : value) : str :=
  match v with
  | VInt n => str_of_int n
  | VStr s => s
  end.

(** *** str.isdigit and str.split() *)

Definition isdigit (s : str) : bool :=
  match s with
  | [] => false
  | _ => forallb is_digit s
  end.

(** [s.split()]: the maximal runs of characters that are not white space.
    [cur] is the run being read, in reverse. *)
Fixpoint split_ws_from (cur : str) (s : str) : list str :=
  match s with
  | [] => match cur with [] => [] | _ => [rev cur] end
  | a :: s' =>
      if is_space a
      then match cur with
           | [] => split_ws_from [] s'
           | _ => rev cur :: split_ws_from [] s'
           end
      else split_ws_from (a :: cur) s'
  end.

Definition split_ws (s : str) : list str := split_ws_from [] s.

(** All the results of a list, when there is one for each *)
Fixpoint all_some {A} (l : list (option A)) : option (list A) :=
  match l with
  | [] => Some []
  | Some a :: l' => option_map (cons a) (all_some l')
  | None :: _ => None
  end.

(** [s.endswith(suffix)] *)
Definition endswith (s suffix : str) : bool :=
  eqb_str (skipn (length s - length suffix) s) suffix
  && (length suffix <=? length s).

End Py.
Import Py.

(** ** dict: bindings in insertion order, one per key *)

Module Dict.

Section Dict.

Variable V : Type.

Definition t : Type := list (str * V).

Definition empty : t := [].

(** [d.get(k)], and [d[k]] when it is bound *)
Fixpoint get (d : t) (k : str) : option V :=
  match d with
  | [] => None
  | (k', v) :: d' => if eqb_str k k' then Some v else get d' k
  end.

(** [d[k] = v]: a bound key keeps its place, a new one goes last. *)
Fixpoint set (d : t) (k : str) (v : V) : t :=
  match d with
  | [] => [(k, v)]
  | (k', v') :: d' =>
      if eqb_str k k' then (k', v) :: d' else (k', v') :: set d' k v
  end.

Definition keys (d : t) : list str := map fst d.

(** [dict(pairs)]: the bindings set one after the other. *)
Definition of_pairs (l : list (str * V)) : t :=
  fold_left (fun d kv => set d (fst kv) (snd kv)) l empty.

End Dict.

End Dict.

(** ** CameraControl *)

(** A control: its attributes.  [ctrls] maps each control name to one. *)
Definition ctl : Type := Dict.t value.

(** What a run does that can be observed from outside, in the order it
    happens: the invocations of /usr/bin/v4l2-ctl with their arguments and
    whether they succeeded, and the lines printed on the console.
    [SetValue] is a mark left at each entry into [setValue]; it has no
    counterpart in the source and serves to state in which order and how
    often [update] calls it. *)
Inductive event : Type :=
| Exec (argv : list str) (ok : bool)
| Print (msg : str)
| SetValue (name : str) (val : value).

Inductive res (A : Type) : Type :=
| Ok (a : A)
| Raise (e : exn).

Arguments Ok {A} a.
Arguments Raise {A} e.

(** [RE_CTL] from the opening parenthesis on: the type between
    parentheses, white space, a colon, one white space, and the remainder
    up to the end of the line. *)
Definition RE_CTL_type : Re.regex :=
  Re.Cat (Re.One (Re.Lit "("%char))
  (Re.Cat (Re.Grp 2 (Re.Plus true Re.Lower))
  (Re.Cat (Re.One (Re.Lit ")"%char))
  (Re.Cat (Re.Star true Re.Space)
  (Re.Cat (Re.One (Re.Lit ":"%char))
  (Re.Cat (Re.One Re.Space)
  (Re.Cat (Re.Grp 3 (Re.Star true Re.Dot)) Re.Eol)))))).

(** [RE_CTL]: a word, then as little as possible of anything up to a
    type that the rest of the pattern accepts. *)
Definition RE_CTL : Re.regex :=
  Re.Cat (Re.Grp 1 (Re.Plus true Re.Word))
  (Re.Cat (Re.Star false Re.Dot) RE_CTL_type).

Definition ATTRS : list str :=
  [ "min"%string : str; "max"%string : str; "step"%string : str;
    "default"%string : str; "value"%string : str; "flags"%string : str ].

(** [re.compile(a + r"=(-?\w+)")] *)
Definition re_attr (a : str) : Re.regex :=
  Re.Cat (Re.Lits a)
  (Re.Cat (Re.One (Re.Lit "="%char))
  (Re.Grp 1 (Re.Cat (Re.Opt (Re.Lit "-"%char)) (Re.Plus true Re.Word)))).

Definition re_attrs : list (str * Re.regex) :=
  map (fun a => (a, re_attr a)) ATTRS.

(** The lines that iterating over the output of a command yields: each
    one with the line feed that ends it, the last one possibly without. *)
Fixpoint lines_from (cur : str) (s : str) : list str :=
  match s with
  | [] => match cur with [] => [] | _ => [rev cur] end
  | a :: s' =>
      if Ascii.eqb a newline
      then rev (a :: cur) :: lines_from [] s'
      else lines_from (a :: cur) s'
  end.

Definition lines (s : str) : list str := lines_from [] s.

(** [val = m[1]; try: val = int(val) except ValueError: pass] *)
Definition attr_value (tok : str) : value :=
  match Py.int tok with
  | Some n => VInt n
  | None => VStr tok
  end.

(** The loop over [re_attrs] in [get_ctls], from the control [c] built
    so far. *)
Fixpoint parse_attrs (l : list (str * Re.regex)) (rest : str) (c : ctl)
    : ctl :=
  match l with
  | [] => c
  | (attr, re) :: l' =>
      match Re.search re rest with
      | None => parse_attrs l' rest c
      | Some m =>
          match Re.group 1 (Re.groups m) with
          | Some tok =>
              parse_attrs l' rest (Dict.set c attr (attr_value tok))
          | None => parse_attrs l' rest c
          end
      end
  end.

(** ** The configuration file: [json.dump] and [json.load]

    The encoder with its default settings (ensure_ascii, the separators
    [", "] and [": "]) and the decoder, for the JSON values a control
    mapping is made of: objects, strings and integers.  Arrays, floats and
    the literals true, false and null are outside the model, and so are
    characters above 0xff: the decoder answers [None] for them as it does
    for a text that is not JSON. *)

Module Json.

Inductive json : Type :=
| JInt (n : Z)
| JStr (s : str)
| JObj (members : list (str * json)).

(** *** Encoder *)

Definition dquote : ascii := ascii_of_nat 34.
Definition backslash : ascii := ascii_of_nat 92.

Definition hex_digit (n : nat) : ascii :=
  if n <? 10 then ascii_of_nat (48 + n) else ascii_of_nat (87 + n).

(** [ESCAPE_DCT] and the [\uXXXX] form, for one character *)
Definition escape (a : ascii) : str :=
  match code a with
  | 34 => [backslash; dquote]
  | 92 => [backslash; backslash]
  | 8 => "\b"%string : str
  | 12 => "\f"%string : str
  | 10 => "\n"%string : str
  | 13 => "\r"%string : str
  | 9 => "\t"%string : str
  | n =>
      if (32 <=? n) && (n <=? 126) then [a]
      else ("\u00"%string : str) ++ [hex_digit (n / 16); hex_digit (n mod 16)]
  end.

Definition quote (s : str) : str :=
  dquote :: flat_map escape s ++ [dquote].

Fixpoint encode (j : json) : str :=
  match j with
  | JInt n => Py.str_of_int n
  | JStr s => quote s
  | JObj ms =>
      "{"%char ::
      (fix members (ms : list (str * json)) : str :=
         match ms with
         | [] => []
         | (k, v) :: ms' =>
             quote k ++ (": "%string : str) ++ encode v ++
             match ms' with
             | [] => []
             | _ => (", "%string : str) ++ members ms'
             end
         end) ms
      ++ ["}"%char]
  end.

(** *** Decoder *)

(** JSON white space: space, TAB, LF, CR *)
Definition is_ws (a : ascii) : bool :=
  match code a with
  | 32 | 9 | 10 | 13 => true
  | _ => false
  end.

Fixpoint skip_ws (s : str) : str :=
  match s with
  | a :: s' => if is_ws a then skip_ws s' else s
  | [] => []
  end.

Definition hex_value (a : ascii) : option nat :=
  let n := code a in
  if (48 <=? n) && (n <=? 57) then Some (n - 48)
  else if (97 <=? n) && (n <=? 102) then Some (n - 87)
  else if (65 <=? n) && (n <=? 70) then Some (n - 55)
  else None.

(** The character after a backslash, with the text that follows it *)
Definition unescape (s : str) : option (ascii * str) :=
  match s with
  | [] => None
  | e :: s' =>
      match code e with
      | 34 => Some (dquote, s')
      | 92 => Some (backslash, s')
      | 47 => Some ("/"%char, s')
      | 98 => Some (ascii_of_nat 8, s')
      | 102 => Some (ascii_of_nat 12, s')
      | 110 => Some (ascii_of_nat 10, s')
      | 114 => Some (ascii_of_nat 13, s')
      | 116 => Some (ascii_of_nat 9, s')
      | 117 =>
          match s' with
          | h1 :: h2 :: h3 :: h4 :: s'' =>
              match hex_value h1, hex_value h2, hex_value h3, hex_value h4 with
              | Some 0, Some 0, Some n3, Some n4 =>
                  Some (ascii_of_nat (16 * n3 + n4), s'')
              | _, _, _, _ => None
              end
          | _ => None
          end
      | _ => None
      end
  end.

(** [scanstring], after the opening quote; [acc] is the text read so far,
    in reverse. *)
Fixpoint scanstring (fuel : nat) (acc : str) (s : str) : option (str * str) :=
  match fuel with
  | O => None
  | S fuel' =>
      match s with
      | [] => None
      | a :: s' =>
          if code a =? 34 then Some (rev acc, s')
          else if code a =? 92 then
            match unescape s' with
            | Some (c, s'') => scanstring fuel' (c :: acc) s''
            | None => None
            end
          else if code a <? 32 then None
          else scanstring fuel' (a :: acc) s'
      end
  end.

(** The digits at the head of a text *)
Fixpoint span_digits (s : str) : str * str :=
  match s with
  | a :: s' =>
      if is_digit a
      then let (d, r) := span_digits s' in (a :: d, r)
      else ([], s)
  | [] => ([], [])
  end.

(** The integer part of [NUMBER_RE]: [0], or a digit other than 0
    followed by digits. *)
Definition scan_digits (s : str) : option (str * str) :=
  match s with
  | a :: s' =>
      if code a =? 48 then Some ([a], s')
      else if is_digit a then Some (span_digits s)
      else None
  | [] => None
  end.

Definition starts_fraction (s : str) : bool :=
  match s with
  | a :: _ => (code a =? 46) || (code a =? 101) || (code a =? 69)
  | [] => false
  end.

Definition scan_int (s : str) : option (Z * str) :=
  let (neg, s1) := match s with
                   | a :: s' => if code a =? 45 then (true, s') else (false, s)
                   | [] => (false, s)
                   end in
  match scan_digits s1 with
  | Some (d, r) =>
      if starts_fraction r then None
      else
        match Py.uint_of false d with
        | Some u =>
            Some (if neg then Z.opp (Z.of_uint u) else Z.of_uint u, r)
        | None => None
        end
  | None => None
  end.

(** [scan_once] and [JSONObject]; [members] reads from a key (after its
    opening quote) to the closing brace. *)
Fixpoint scan_once (fuel : nat) (s : str) : option (json * str) :=
  match fuel with
  | O => None
  | S fuel' =>
      match s with
      | [] => None
      | a :: s' =>
          if code a =? 34 then
            match scanstring (length s) [] s' with
            | Some (t, r) => Some (JStr t, r)
            | None => None
            end
          else if code a =? 123 then
            match skip_ws s' with
            | b :: s'' =>
                if code b =? 125 then Some (JObj [], s'')
                else if code b =? 34 then
                  match scan_members fuel' s'' with
                  | Some (ms, r) => Some (JObj ms, r)
                  | None => None
                  end
                else None
            | [] => None
            end
          else
            match scan_int s with
            | Some (n, r) => Some (JInt n, r)
            | None => None
            end
      end
  end
with scan_members (fuel : nat) (s : str) : option (list (str * json) * str) :=
  match fuel with
  | O => None
  | S fuel' =>
      match scanstring (length s) [] s with
      | Some (key, s1) =>
          match skip_ws s1 with
          | c :: s2 =>
              if code c =? 58 then
                match scan_once fuel' (skip_ws s2) with
                | Some (v, s3) =>
                    match skip_ws s3 with
                    | d :: s4 =>
                        if code d =? 125 then Some ([(key, v)], s4)
                        else if code d =? 44 then
                          match skip_ws s4 with
                          | q :: s5 =>
                              if code q =? 34 then
                                match scan_members fuel' s5 with
                                | Some (ms, r) => Some ((key, v) :: ms, r)
                                | None => None
                                end
                              else None
                          | [] => None
                          end
                        else None
                    | [] => None
                    end
                | None => None
                end
              else None
          | [] => None
          end
      | None => None
      end
  end.

(** [JSONDecoder.decode]: one value between white space *)
Definition decode (s : str) : option json :=
  match scan_once (S (length s)) (skip_ws s) with
  | Some (j, r) =>
      match skip_ws r with
      | [] => Some j
      | _ => None
      end
  | None => None
  end.

(** *** Between JSON values and control mappings *)

Definition of_value (v : value) : json :=
  match v with
  | VInt n => JInt n
  | VStr s => JStr s
  end.

Definition of_ctl (c : ctl) : json :=
  JObj (map (fun kv => (fst kv, of_value (snd kv))) c).

Definition of_ctrls (cs : Dict.t ctl) : json :=
  JObj (map (fun kv => (fst kv, of_ctl (snd kv))) cs).

(** [json.dumps(ctrls)] *)
Definition dumps (cs : Dict.t ctl) : str := encode (of_ctrls cs).

Definition to_value (j : json) : option value :=
  match j with
  | JInt n => Some (VInt n)
  | JStr s => Some (VStr s)
  | JObj _ => None
  end.

(** A JSON object becomes a [dict]: [dict(pairs)], where the last of the
    values given for a key is kept. *)
Definition to_ctl (j : json) : option ctl :=
  match j with
  | JObj ms =>
      option_map (@Dict.of_pairs value)
        (all_some (map (fun kv => option_map (pair (fst kv))
                                    (to_value (snd kv))) ms))
  | _ => None
  end.

Definition to_ctrls (j : json) : option (Dict.t ctl) :=
  match j with
  | JObj ms =>
      option_map (@Dict.of_pairs ctl)
        (all_some (map (fun kv => option_map (pair (fst kv))
                                    (to_ctl (snd kv))) ms))
  | _ => None
  end.

(** [json.loads(text)], when the text holds a control mapping *)
Definition loads (s : str) : option (Dict.t ctl) :=
  match decode s with
  | Some j => to_ctrls j
  | None => None
  end.

End Json.


(** The attribute that [update] reads: [c["default"]] or [c["value"]] *)
Definition read_key (reset : bool) : str :=
  if reset then ("default"%string : str) else ("value"%string : str).

(** [c.get("flags", "")] *)
Definition flags_of (c : ctl) : value :=
  match Dict.get c ("flags"%string : str) with
  | Some f => f
  | None => VStr []
  end.

Section CameraControl.

(** The camera driver behind /usr/bin/v4l2-ctl: running the command with
    some arguments in a state of the device gives its standard output, or
    [None] when it exits with an error (sh raises ErrorReturnCode), and
    the next state of the device. *)
Variable World : Type.
Variable v4l2_ctl : list str -> World -> option str * World.

(** The fields of the object, the device and the configuration files. *)
Record state : Type := State {
  device : str;
  ctrls : Dict.t ctl;
  world : World;
  files : Dict.t str
}.

Definition with_ctrls (st : state) (c : Dict.t ctl) : state :=
  State (device st) c (world st) (files st).

Definition with_world (st : state) (w : World) : state :=
  State (device st) (ctrls st) w (files st).

Definition with_files (st : state) (f : Dict.t str) : state :=
  State (device st) (ctrls st) (world st) f.

(** A computation: from a state to a result or an exception, the state
    reached, and the events of the run. *)
Definition M (A : Type) : Type := state -> res A * state * list event.

Definition ret {A} (a : A) : M A := fun st => (Ok a, st, []).

Definition raise {A} (e : exn) : M A := fun st => (Raise e, st, []).

Definition bind {A B} (m : M A) (f : A -> M B) : M B :=
  fun st =>
    match m st with
    | (Ok a, st', ev) =>
        match f a st' with
        | (r, st'', ev') => (r, st'', ev ++ ev')
        end
    | (Raise e, st', ev) => (Raise e, st', ev)
    end.

(** [try: m except: h], with a bare [except] *)
Definition try_except {A} (m : M A) (h : M A) : M A :=
  fun st =>
    match m st with
    | (Ok a, st', ev) => (Ok a, st', ev)
    | (Raise _, st', ev) =>
        match h st' with
        | (r, st'', ev') => (r, st'', ev ++ ev')
        end
    end.

Definition emit (e : event) : M unit := fun st => (Ok tt, st, [e]).

Definition get_state : M state := fun st => (Ok st, st, []).

Definition set_ctrls (c : Dict.t ctl) : M unit :=
  fun st => (Ok tt, with_ctrls st c, []).

Definition of_option {A} (e : exn) (o : option A) : M A :=
  match o with
  | Some a => ret a
  | None => raise e
  end.

Fixpoint for_each {A} (l : list A) (body : A -> M unit) : M unit :=
  match l with
  | [] => ret tt
  | a :: l' => bind (body a) (fun _ => for_each l' body)
  end.

Notation "x <- m ;; k" := (bind m (fun x => k))
  (at level 61, m at next level, right associativity).
Notation "m ;;; k" := (bind m (fun _ => k))
  (at level 61, right associativity).

(** [self.cmd(...)] with the arguments [argv] *)
Definition cmd (argv : list str) : M str :=
  fun st =>
    match v4l2_ctl argv (world st) with
    | (Some out, w) => (Ok out, with_world st w, [Exec argv true])
    | (None, w) => (Raise ErrorReturnCode, with_world st w, [Exec argv false])
    end.

(** [print(...)] *)
Definition print (msg : str) : M unit := emit (Print msg).

(** The arguments that select the device: [if self.device: "-d",
    self.device]. *)
Definition device_args (dev : str) : list str :=
  match dev with
  | [] => []
  | _ => [ "-d"%string : str; dev ]
  end.

(** The arguments of the three invocations *)
Definition list_argv (dev : str) : list str :=
  device_args dev ++ [ "-l"%string : str ].

Definition get_ctrl_argv (dev name : str) : list str :=
  device_args dev ++ [ "--get-ctrl"%string : str; name ].

Definition set_ctrl_argv (dev name : str) (val : value) : list str :=
  device_args dev
  ++ [ "--set-ctrl"%string : str; name ++ ("="%string : str) ++ Py.str_of val ].

(** The body of the loop of [get_ctls] for one line. *)
Definition get_ctls_line (line : str) : M unit :=
  let m := Re.split RE_CTL 3 line in
  match m with
  | [] => ret tt                                   (* if not m: continue *)
  | _ =>
      name <- of_option IndexError (nth_error m 1) ;;
      ty <- of_option IndexError (nth_error m 2) ;;
      rest <- of_option IndexError (nth_error m 3) ;;
      let c := parse_attrs re_attrs rest
                 (Dict.set (Dict.empty value) ("type"%string : str) (VStr ty)) in
      st <- get_state ;;
      set_ctrls (Dict.set (ctrls st) name c)
  end.

Definition get_ctls : M unit :=
  set_ctrls (Dict.empty ctl) ;;;
  st <- get_state ;;
  out <- cmd (list_argv (device st)) ;;
  for_each (lines out) get_ctls_line.

(** [self.ctrls[name]["value"] = val] *)
Definition store_value (name : str) (val : value) : M unit :=
  st <- get_state ;;
  c <- of_option (KeyError name) (Dict.get (ctrls st) name) ;;
  set_ctrls (Dict.set (ctrls st) name (Dict.set c ("value"%string : str) val)).

(** The messages of the two [except] branches; [print] separates its
    arguments by a space. *)
Definition msg_read : str := "Ups, could not read value."%string.

Definition msg_set (name : str) : str :=
  ("Ups, could not set value for "%string : str)
  ++ (" "%string : str) ++ name ++ (" ."%string : str).

(** [[int(s) for s in ret.split() if s.isdigit()]] *)
Definition digit_tokens (out : str) : list str :=
  filter Py.isdigit (Py.split_ws out).

Definition getValue (name : str) : M Z :=
  try_except
    (st <- get_state ;;
     out <- cmd (get_ctrl_argv (device st) name) ;;
     val <- of_option ValueError
              (Py.all_some (map Py.int (digit_tokens out))) ;;
     v0 <- of_option IndexError (nth_error val 0) ;;
     store_value name (VInt v0) ;;;
     ret v0)
    (print msg_read ;;;
     ret 0%Z).

Definition setValue (name : str) (val : value) : M bool :=
  emit (SetValue name val) ;;;
  st <- get_state ;;
  c <- of_option (KeyError name) (Dict.get (ctrls st) name) ;;
  if eqb_value (flags_of c) (VStr ("inactive"%string : str)) then ret true
  else
    ok <- try_except
            (cmd (set_ctrl_argv (device st) name val) ;;; ret true)
            (print (msg_set name) ;;; ret false) ;;
    if ok then store_value name val ;;; ret true
    else ret false.

(** The body of a loop of [update] for the control [name]; [skip] is the
    test on [c["type"]] that makes the loop [continue].  The control is
    read in the object as it is when its turn comes. *)
Definition update_one (skip : value -> bool) (reset : bool) (name : str)
    : M unit :=
  st <- get_state ;;
  c <- of_option RuntimeError (Dict.get (ctrls st) name) ;;
  ty <- of_option (KeyError ("type"%string : str))
          (Dict.get c ("type"%string : str)) ;;
  if skip ty then ret tt
  else
    val <- of_option (KeyError (read_key reset)) (Dict.get c (read_key reset)) ;;
    setValue name val ;;;
    ret tt.

(** One loop of [update] over [self.ctrls.items()] *)
Definition update_pass (skip : value -> bool) (reset : bool) : M unit :=
  st0 <- get_state ;;
  for_each (Dict.keys (ctrls st0)) (update_one skip reset).

Definition is_int (ty : value) : bool :=
  eqb_value ty (VStr ("int"%string : str)).

Definition is_bool_or_menu (ty : value) : bool :=
  eqb_value ty (VStr ("bool"%string : str))
  || eqb_value ty (VStr ("menu"%string : str)).

Definition update (reset : bool) : M unit :=
  update_pass is_int reset ;;;
  update_pass is_bool_or_menu reset.

(** [CameraControl(device)]: the object after [__init__]. *)
Definition init (dev : str) (w : World) (fs : Dict.t str)
    : res unit * state * list event :=
  get_ctls (State dev (Dict.empty ctl) w fs).

(** ** Window: the actions on the configuration

    The widgets are not modelled: of [Window.sync] remains the call of
    [get_ctls], its first step, and the answer of the file dialog is the
    argument [file_name] of the action (empty when the dialog is
    cancelled).  The loop of [Window.sync] over the widgets, which comes
    after [get_ctls], is left out; the properties are stated on runs that
    end before [sync], on the files, which that loop does not touch, or
    relative to the run of [sync] as a whole. *)

Definition sync : M unit := get_ctls.

Definition set_files (f : Dict.t str) : M unit :=
  fun st => (Ok tt, with_files st f, []).

Definition suffix : str := ".ccconf"%string.

(** The name of the file that the save action writes *)
Definition conf_name (file_name : str) : str :=
  if Py.endswith file_name suffix then file_name else file_name ++ suffix.

(** [with open(file_name, "w") as fd: json.dump(self.camCtr.ctrls, fd)] *)
Definition save_conf (file_name : str) : M unit :=
  st <- get_state ;;
  set_files (Dict.set (files st) file_name (Json.dumps (ctrls st))).

(** [with open(file_name, "r") as fd: self.camCtr.ctrls = json.load(fd)] *)
Definition load_conf (file_name : str) : M unit :=
  st <- get_state ;;
  text <- of_option OSError (Dict.get (files st) file_name) ;;
  cs <- of_option JSONDecodeError (Json.loads text) ;;
  set_ctrls cs.

Definition action_Slot (name : str) (file_name : str) : M unit :=
  (if eqb_str name ("default"%string : str) then update true
   else if eqb_str name ("update"%string : str) then update false
   else if eqb_str name ("save"%string : str)
           || eqb_str name ("load"%string : str) then
     if eqb_str name ("save"%string : str) then
       match file_name with
       | [] => ret tt
       | _ => save_conf (conf_name file_name)
       end
     else
       match file_name with
       | [] => ret tt
       | _ => load_conf file_name ;;; update false
       end
   else ret tt) ;;;
  sync.

(** [Window.sl_Change]: the slot of a slider, with the value of the
    slider. *)
Definition sl_Change (val : Z) (name : str) : M unit :=
  ok <- setValue name (VInt val) ;;
  if negb ok then sync else ret tt.

End CameraControl.

Arguments State {World} device ctrls world files.

(** ** Example devices *)

Module Demo.

Definition NL : str := [newline].

(** The listing of a recent v4l2-ctl: headings and empty lines between
    the controls. *)
Definition listing_with_headings : str :=
  NL ++ ("User Controls"%string : str) ++ NL ++ NL
  ++ ("                     brightness 0x00980900 (int)    : min=-64 max=64 step=1 default=0 value=12"%string : str)
  ++ NL.

Definition listing : str :=
  ("                     brightness 0x00980900 (int)    : min=-64 max=64 step=1 default=0 value=12"%string : str)
  ++ NL
  ++ ("                 link_frequency 0x009f0901 (intmenu): min=0 max=1 default=0 value=1"%string : str)
  ++ NL
  ++ ("        white_balance_automatic 0x0098090c (bool)   : default=1 value=1"%string : str)
  ++ NL
  ++ ("      white_balance_temperature 0x0098091a (int)    : min=2800 max=6500 step=1 default=4600 value=4600 flags=inactive"%string : str)
  ++ NL.

Definition is_prefix (p s : str) : bool := eqb_str (firstn (length p) s) p.

(** A device that lists [l], reports 12 for any control and, according
    to [accepts], takes or rejects any value. *)
Definition device_of (l : str) (accepts : bool) (argv : list str) (w : unit)
    : option str * unit :=
  match argv with
  | [a] => if eqb_str a ("-l"%string : str) then (Some l, w) else (None, w)
  | [a; name] =>
      if eqb_str a ("--get-ctrl"%string : str)
      then (Some (name ++ (": 12"%string : str) ++ NL), w)
      else if eqb_str a ("--set-ctrl"%string : str)
      then ((if accepts then Some [] else None), w)
      else (None, w)
  | _ => (None, w)
  end.

(** A device on which every control has the value [n]. *)
Definition device_at (n : Z) (argv : list str) (w : unit)
    : option str * unit :=
  match argv with
  | [a; name] =>
      if eqb_str a ("--get-ctrl"%string : str)
      then (Some (name ++ (": "%string : str) ++ Py.str_of_int n ++ NL), w)
      else (None, w)
  | _ => (None, w)
  end.

Definition brightness : str := "brightness"%string.

(** A listing with a heading between two controls *)
Definition listing_two_groups : str :=
  ("                     brightness 0x00980900 (int)    : min=-64 max=64 step=1 default=0 value=12"%string : str)
  ++ NL ++ NL ++ ("Camera Controls"%string : str) ++ NL ++ NL
  ++ ("        white_balance_automatic 0x0098090c (bool)   : default=1 value=1"%string : str)
  ++ NL.

Definition line_brightness : str :=
  ("                     brightness 0x00980900 (int)    : min=-64 max=64 step=1 default=0 value=12"%string : str)
  ++ NL.

Definition ctl_brightness : ctl :=
  [ ("type"%string : str, VStr ("int"%string : str));
    ("min"%string : str, VInt (-64));
    ("max"%string : str, VInt 64);
    ("step"%string : str, VInt 1);
    ("default"%string : str, VInt 0);
    ("value"%string : str, VInt 12) ].

Definition ctl_link_frequency : ctl :=
  [ ("type"%string : str, VStr ("intmenu"%string : str));
    ("min"%string : str, VInt 0);
    ("max"%string : str, VInt 1);
    ("default"%string : str, VInt 0);
    ("value"%string : str, VInt 1) ].

Definition ctl_wb_auto : ctl :=
  [ ("type"%string : str, VStr ("bool"%string : str));
    ("default"%string : str, VInt 1);
    ("value"%string : str, VInt 1) ].

Definition ctl_wb_temperature : ctl :=
  [ ("type"%string : str, VStr ("int"%string : str));
    ("min"%string : str, VInt 2800);
    ("max"%string : str, VInt 6500);
    ("step"%string : str, VInt 1);
    ("default"%string : str, VInt 4600);
    ("value"%string : str, VInt 4600);
    ("flags"%string : str, VStr ("inactive"%string : str)) ].

Definition cached : Dict.t ctl :=
  [ (brightness, ctl_brightness);
    ("link_frequency"%string : str, ctl_link_frequency);
    ("white_balance_automatic"%string : str, ctl_wb_auto);
    ("white_balance_temperature"%string : str, ctl_wb_temperature) ].

Definition st0 : state unit := State [] cached tt (Dict.empty str).

(** A cache with a control that has no value, as the listing gives for
    a control of type button. *)
Definition ctl_button : ctl :=
  [ ("type"%string : str, VStr ("button"%string : str));
    ("flags"%string : str, VStr ("write"%string : str)) ].

Definition st_button : state unit :=
  State []
    [ (brightness, ctl_brightness);
      ("restore_factory_settings"%string : str, ctl_button) ]
    tt (Dict.empty str).

(** The same with a device path, which [device_of] does not know. *)
Definition video9 : str := "/dev/video9"%string.

Definition st9 : state unit := State video9 cached tt (Dict.empty str).

End Demo.


(** ** Reading a run *)

Section Reading.

Variables (World A : Type).

Definition outcome (x : res A * state World * list event) : res A :=
  fst (fst x).

Definition final (x : res A * state World * list event) : state World :=
  snd (fst x).

Definition events (x : res A * state World * list event) : list event :=
  snd x.

End Reading.

(** The arguments of an invocation for the device [dev] and the
    subcommand [sub]: [-d dev] comes first when a device was given, and
    there is nothing but the subcommand otherwise. *)
Definition selects_device (dev : str) (sub argv : list str) : Prop :=
  (dev <> [] -> argv = ("-d"%string : str) :: dev :: sub)
  /\ (dev = [] -> argv = sub).

(** Reading the value of a control fails: the command exits with an
    error, or no token of its output is made of digits only. *)
Definition read_fails (World : Type)
    (v4l2_ctl : list str -> World -> option str * World)
    (st : state World) (name : str) : Prop :=
  match fst (v4l2_ctl (get_ctrl_argv (device st) name) (world st)) with
  | None => True
  | Some out => digit_tokens out = []
  end.

(** The type of a control of the mapping [cs] *)
Definition type_of (cs : Dict.t ctl) (name : str) : option value :=
  match Dict.get cs name with
  | Some c => Dict.get c ("type"%string : str)
  | None => None
  end.

Definition has_type (cs : Dict.t ctl) (name : str) (ty : String.string)
    : Prop :=
  type_of cs name = Some (VStr (ty : str)).

Arguments has_type cs name ty%_string.

(** How many times a run enters [setValue] for the control [name] *)
Fixpoint set_value_calls (name : str) (ev : list event) : nat :=
  match ev with
  | [] => 0
  | SetValue n _ :: ev' =>
      (if eqb_str name n then 1 else 0) + set_value_calls name ev'
  | _ :: ev' => set_value_calls name ev'
  end.

(** A Python [dict] has one binding per key. *)
Definition wf_dict (V : Type) (d : Dict.t V) : Prop := NoDup (Dict.keys d).

(** Every control has a type and the attribute that [update] reads. *)
Definition readable (reset : bool) (cs : Dict.t ctl) : Prop :=
  forall name c, Dict.get cs name = Some c ->
    Dict.get c ("type"%string : str) <> None
    /\ Dict.get c (read_key reset) <> None.

(** What the calls of [setValue] keep of the cached controls: the names
    in their order, the type of each control and the attributes it has. *)
Definition same_shape (cs cs' : Dict.t ctl) : Prop :=
  Dict.keys cs' = Dict.keys cs
  /\ forall n c, Dict.get cs n = Some c ->
       exists c', Dict.get cs' n = Some c'
         /\ Dict.get c' ("type"%string : str) = Dict.get c ("type"%string : str)
         /\ forall k, Dict.get c k <> None -> Dict.get c' k <> None.

(** ** What the patterns mean

    [matches r s1 s2 cs cs']: the pattern [r] matches the text [s1] when
    [s2] follows it, and the groups go from [cs] to [cs'].  This is the
    meaning of a pattern without the order in which the engine tries the
    alternatives. *)

Inductive matches : Re.regex -> str -> str -> Re.caps -> Re.caps -> Prop :=
| M_Eps s2 cs : matches Re.Eps [] s2 cs cs
| M_One c a s2 cs :
    Re.mem c a = true -> matches (Re.One c) [a] s2 cs cs
| M_Star g c s1 s2 cs :
    forallb (Re.mem c) s1 = true -> matches (Re.Star g c) s1 s2 cs cs
| M_Opt_one c a s2 cs :
    Re.mem c a = true -> matches (Re.Opt c) [a] s2 cs cs
| M_Opt_none c s2 cs : matches (Re.Opt c) [] s2 cs cs
| M_Cat r1 r2 s1 s2 s3 cs cs1 cs2 :
    matches r1 s1 (s2 ++ s3) cs cs1 ->
    matches r2 s2 s3 cs1 cs2 ->
    matches (Re.Cat r1 r2) (s1 ++ s2) s3 cs cs2
| M_Grp i r s1 s2 cs cs1 :
    matches r s1 s2 cs cs1 ->
    matches (Re.Grp i r) s1 s2 cs ((i, s1) :: cs1)
| M_Eol s2 cs :
    s2 = [] \/ s2 = [newline] -> matches Re.Eol [] s2 cs cs.

(** The control pattern, in words: a name made of word characters,
    anything but a line feed, a type made of lowercase letters between
    parentheses, white space, a colon, one white space, and the remainder
    up to the end of the line. *)
Definition control_line (line before name mid ty rest after : str) : Prop :=
  exists ws sp,
    line = before ++ name ++ mid ++ ["("%char] ++ ty ++ [")"%char] ++ ws
           ++ [":"%char] ++ [sp] ++ rest ++ after
    /\ name <> [] /\ forallb is_word name = true
    /\ forallb is_dot mid = true
    /\ ty <> [] /\ forallb is_lower ty = true
    /\ forallb is_space ws = true /\ is_space sp = true
    /\ forallb is_dot rest = true
    /\ (after = [] \/ after = [newline]).

(** A value after [attr=]: word characters, with or without a minus
    sign before them. *)
Definition value_token (tok : str) : Prop :=
  exists w, w <> [] /\ forallb is_word w = true
            /\ (tok = w \/ tok = "-"%char :: w).

(** [attr=tok] occurs in [rest], after [before]. *)
Definition occurs_at (attr rest before tok : str) : Prop :=
  exists after,
    rest = before ++ attr ++ ["="%char] ++ tok ++ after
    /\ value_token tok.

(** The text [s] starts with a word character. *)
Definition word_follows (s : str) : bool :=
  match s with
  | b :: _ => is_word b
  | [] => false
  end.

(** What the loop of [get_ctls] reads for one attribute *)
Definition attr_read (a rest : str) : option value :=
  match Re.search (re_attr a) rest with
  | Some m => option_map attr_value (Re.group 1 (Re.groups m))
  | None => None
  end.

(** The text of the members of an object, between its braces *)
Fixpoint members_text (ms : list (str * Json.json)) : str :=
  match ms with
  | [] => []
  | (k, v) :: ms' =>
      Json.quote k ++ (": "%string : str) ++ Json.encode v ++
      match ms' with
      | [] => []
      | _ => (", "%string : str) ++ members_text ms'
      end
  end.

(** What follows a value in the text that the encoder writes: nothing, a
    comma or a closing brace. *)
Definition closes (rest : str) : bool :=
  match rest with
  | [] => true
  | a :: _ => (code a =? 44) || (code a =? 125)
  end.

(** A value is read back from its text when something that closes it
    follows. *)
Definition reads_back (v : Json.json) : Prop :=
  forall (fuel : nat) (rest : str),
  length (Json.encode v) <= fuel -> closes rest = true ->
  Json.scan_once fuel (Json.encode v ++ rest) = Some (v, rest).

(** The cached controls are a [dict] of [dict]s. *)
Definition wf_ctrls (cs : Dict.t ctl) : Prop :=
  wf_dict cs /\ Forall (fun kc => wf_dict (snd kc)) cs.

(** ** Further notions

    [is_inactive c]: the test of [setValue] on the flags of a control. *)
Definition is_inactive (c : ctl) : bool :=
  eqb_value (flags_of c) (VStr ("inactive"%string : str)).

(** A control after the default action, when the device takes its
    default value: the value becomes the default, unless the control is
    inactive. *)
Definition reset_ctl (c : ctl) : ctl :=
  if is_inactive c then c
  else match Dict.get c ("default"%string : str) with
       | Some d => Dict.set c ("value"%string : str) d
       | None => c
       end.

(** The device [dev] takes every value: no set-control command fails. *)
Definition sets_accepted (World : Type)
    (v4l2_ctl : list str -> World -> option str * World) (dev : str) : Prop :=
  forall name val w, fst (v4l2_ctl (set_ctrl_argv dev name val) w) <> None.

(** The line reads as a control line. *)
Definition is_control_line (line : str) : Prop :=
  exists before name mid ty rest after,
    control_line line before name mid ty rest after.

(** The name that a control line gives: the word that starts at the
    leftmost place from which the line reads as a control line, with all
    the word characters that follow. *)
Definition names_control (line name : str) : Prop :=
  exists before mid ty rest after,
    control_line line before name mid ty rest after
    /\ (forall b' n' m' t' r' a',
          control_line line b' n' m' t' r' a' ->
          length before <= length b')
    /\ (forall x, line = before ++ name ++ x -> word_follows x = false).

(** A cached control as [get_ctls] builds it: one binding per key, a type
    that is a [str], and no key besides the type and the six attributes. *)
Definition listed_ctl (c : ctl) : Prop :=
  wf_dict c
  /\ (exists ty, Dict.get c ("type"%string : str) = Some (VStr ty))
  /\ forall k, In k (Dict.keys c) -> k = ("type"%string : str) \/ In k ATTRS.

(** The attributes of the control [c] are those of the remainder [rest]
    of its line: an attribute is a key exactly when [attr=value] occurs in
    the remainder, and its value is then read at the leftmost occurrence,
    with all the word characters that follow the sign [=], as an [int]
    when [int] accepts it and as the [str] otherwise. *)
Definition reads_attrs (rest : str) (c : ctl) : Prop :=
  forall a, In a ATTRS ->
    match Dict.get c a with
    | Some v =>
        exists b tok after',
          rest = b ++ a ++ ["="%char] ++ tok ++ after'
          /\ value_token tok
          /\ word_follows after' = false
          /\ (forall b' tok', occurs_at a rest b' tok' ->
                length b <= length b')
          /\ v = match Py.int tok with
                 | Some n => VInt n
                 | None => VStr tok
                 end
    | None => forall b tok, ~ occurs_at a rest b tok
    end.

(** The cache as [get_ctls] builds it *)
Definition listed (cs : Dict.t ctl) : Prop :=
  wf_dict cs /\ Forall (fun kc => listed_ctl (snd kc)) cs.

(** Between two states of the cache, nothing but values has changed: the
    names and their order are the same, and each control has the same
    attributes but [value], which it has not lost. *)
Definition only_values (cs cs' : Dict.t ctl) : Prop :=
  Dict.keys cs' = Dict.keys cs
  /\ forall n c, Dict.get cs n = Some c ->
       exists c', Dict.get cs' n = Some c'
         /\ (forall k, k <> ("value"%string : str) ->
               Dict.get c' k = Dict.get c k)
         /\ (Dict.get c ("value"%string : str) <> None ->
             Dict.get c' ("value"%string : str) <> None).

(** What [update] reads of the control [n]: the attribute to set and the
    flags. *)
Definition reads (reset : bool) (cs : Dict.t ctl) (n : str)
    : option (option value * option value) :=
  option_map
    (fun c => (Dict.get c (read_key reset), Dict.get c ("flags"%string : str)))
    (Dict.get cs n).

(** Whether a loop of [update] that continues on the types [skip]
    passes over the control [c]. *)
Definition passes_over (skip : value -> bool) (c : ctl) : bool :=
  match Dict.get c ("type"%string : str) with
  | Some ty => skip ty
  | None => true
  end.

(** [update] ends with KeyError for one of the keys it reads; and a
    control on which a loop that continues on the types [skip] does so:
    it has no type, or it is not passed over and lacks the attribute to
    set. *)
Definition key_missing (reset : bool) (r : res unit) : Prop :=
  r = Raise (KeyError ("type"%string : str))
  \/ r = Raise (KeyError (read_key reset)).

Definition lacks_key (skip : value -> bool) (reset : bool) (c : ctl) : Prop :=
  Dict.get c ("type"%string : str) = None
  \/ (passes_over skip c = false /\ Dict.get c (read_key reset) = None).

(** * Properties *)

Unset Implicit Arguments.

(** ** Strings and dictionaries *)

Module PyFacts.

Lemma eqb_str_refl (s : str) : eqb_str s s = true.
Proof.
  induction s as [|a s IH]; simpl; [reflexivity|].
  now rewrite Ascii.eqb_refl.
Qed.

Lemma eqb_str_eq (s t : str) : eqb_str s t = true <-> s = t.
Proof.
  split; [|intros ->; apply eqb_str_refl].
  revert t; induction s as [|a s IH]; intros [|b t]; simpl; try discriminate.
  - reflexivity.
  - intros H. apply andb_true_iff in H as [Hab Hst].
    apply Ascii.eqb_eq in Hab. now rewrite Hab, (IH _ Hst).
Qed.

Lemma eqb_str_neq (s t : str) : eqb_str s t = false <-> s <> t.
Proof.
  split.
  - intros H E. apply eqb_str_eq in E. congruence.
  - intros H. destruct (eqb_str s t) eqn:E; [|reflexivity].
    apply eqb_str_eq in E. contradiction.
Qed.

Lemma eqb_str_sym (s t : str) : eqb_str s t = eqb_str t s.
Proof.
  destruct (eqb_str s t) eqn:E.
  - apply eqb_str_eq in E. subst. symmetry. apply eqb_str_refl.
  - symmetry. apply eqb_str_neq. apply eqb_str_neq in E. congruence.
Qed.

End PyFacts.
Import PyFacts.

Module DictFacts.

Section DictFacts.

Variable V : Type.
Implicit Types (d : Dict.t V) (k : str) (v : V).

Lemma get_set_same d k v : Dict.get (Dict.set d k v) k = Some v.
Proof.
  induction d as [|[k' v'] d IH]; simpl.
  - now rewrite eqb_str_refl.
  - destruct (eqb_str k k') eqn:E; simpl; rewrite E; auto.
Qed.

Lemma get_set_other d k k' v :
  k' <> k -> Dict.get (Dict.set d k v) k' = Dict.get d k'.
Proof.
  intros N. induction d as [|[k0 v0] d IH]; simpl.
  - apply eqb_str_neq in N. now rewrite N.
  - destruct (eqb_str k k0) eqn:E; simpl.
    + apply eqb_str_eq in E. subst k0.
      apply eqb_str_neq in N. now rewrite N.
    + now rewrite IH.
Qed.

Lemma keys_set_bound d k v v0 :
  Dict.get d k = Some v0 -> Dict.keys (Dict.set d k v) = Dict.keys d.
Proof.
  induction d as [|[k' v'] d IH]; simpl; [discriminate|].
  destruct (eqb_str k k') eqn:E; simpl; [reflexivity|].
  intros H. f_equal. now apply IH.
Qed.

Lemma get_in_keys d k v : Dict.get d k = Some v -> In k (Dict.keys d).
Proof.
  induction d as [|[k' v'] d IH]; simpl; [discriminate|].
  destruct (eqb_str k k') eqn:E.
  - apply eqb_str_eq in E. auto.
  - auto.
Qed.

Lemma in_keys_get d k : In k (Dict.keys d) -> exists v, Dict.get d k = Some v.
Proof.
  induction d as [|[k' v'] d IH]; simpl; [tauto|].
  intros [->|H].
  - rewrite eqb_str_refl. eauto.
  - destruct (eqb_str k k'); eauto.
Qed.

End DictFacts.

End DictFacts.
Import DictFacts.

(** ** int and str on integers *)

Module IntFacts.

Ltac each_ascii a := destruct a as [[] [] [] [] [] [] [] []].

Lemma digit_of_spec (a : ascii) d :
  Py.digit_of a = Some d -> forall u, Py.digits_of (d u) = a :: Py.digits_of u.
Proof.
  each_ascii a; vm_compute; intros H; try discriminate;
    injection H as <-; reflexivity.
Qed.

Lemma is_digit_digit_of (a : ascii) :
  is_digit a = true -> exists d, Py.digit_of a = Some d.
Proof. each_ascii a; vm_compute; intros H; try discriminate; eauto. Qed.

Lemma digit_of_is_digit (a : ascii) d :
  Py.digit_of a = Some d -> is_digit a = true.
Proof. each_ascii a; vm_compute; intros H; try discriminate; reflexivity. Qed.

Lemma is_digit_not_space (a : ascii) : is_digit a = true -> is_space a = false.
Proof. each_ascii a; vm_compute; intros H; try discriminate; reflexivity. Qed.

Lemma uint_of_digits (t : str) :
  t <> [] -> forallb is_digit t = true ->
  forall b, exists u, Py.uint_of b t = Some u /\ Py.digits_of u = t.
Proof.
  induction t as [|a t IH]; [congruence|]. intros _ H b. simpl in H.
  apply andb_true_iff in H as [Ha Ht].
  destruct (is_digit_digit_of _ Ha) as [d Hd]. simpl. rewrite Hd.
  destruct t as [|a' t].
  - exists (d Decimal.Nil). simpl. split; [reflexivity|].
    now rewrite (digit_of_spec _ _ Hd).
  - destruct (IH ltac:(discriminate) Ht true) as (u & Hu & Du).
    exists (d u). rewrite Hu. simpl. split; [reflexivity|].
    now rewrite (digit_of_spec _ _ Hd), Du.
Qed.

Lemma lstrip_head (s : str) :
  match s with a :: _ => is_space a = false | [] => True end ->
  Py.lstrip s = s.
Proof. destruct s as [|a s]; simpl; [reflexivity|]. now intros ->. Qed.

Lemma strip_digits (t : str) : forallb is_digit t = true -> Py.strip t = t.
Proof.
  intros H. unfold Py.strip.
  assert (L : forall s, forallb is_digit s = true -> Py.lstrip s = s).
  { intros s Hs. apply lstrip_head. destruct s as [|a s]; [exact I|].
    simpl in Hs. apply andb_true_iff in Hs as [Ha _].
    now apply is_digit_not_space. }
  rewrite (L t H), L, rev_involutive; [reflexivity|].
  apply forallb_forall. intros a Ha. apply in_rev in Ha.
  now apply (proj1 (forallb_forall _ _) H).
Qed.

(** [int] of a text made of digits: the number of these digits. *)
Lemma int_isdigit (t : str) :
  Py.isdigit t = true ->
  exists u, Py.int t = Some (Z.of_uint u) /\ Py.digits_of u = t.
Proof.
  intros H. assert (N : t <> []) by (destruct t; [discriminate|congruence]).
  assert (D : forallb is_digit t = true) by (destruct t; [congruence|exact H]).
  destruct (uint_of_digits _ N D false) as (u & Hu & Du).
  exists u. split; [|exact Du]. unfold Py.int. rewrite (strip_digits _ D).
  destruct t as [|a t]; [congruence|].
  simpl in D. apply andb_true_iff in D as [Ha _].
  each_ascii a; try discriminate Ha; cbv beta iota; rewrite Hu; reflexivity.
Qed.

Lemma str_of_int_of_uint (u : Decimal.uint) :
  Py.str_of_int (Z.of_uint u) = Py.digits_of (Decimal.unorm u).
Proof.
  unfold Py.str_of_int.
  change (Z.of_uint u) with (Z.of_int (Decimal.Pos u)).
  now rewrite DecimalZ.to_of.
Qed.

Lemma digits_of_iter_D0 (k : nat) (u : Decimal.uint) :
  Py.digits_of (Nat.iter k Decimal.D0 u) = repeat "0"%char k ++ Py.digits_of u.
Proof. induction k as [|k IH]; simpl; [reflexivity|]. now rewrite IH. Qed.

(** Printing the number read from some digits gives these digits back,
    less the zeros at their head. *)
Lemma digits_of_unorm (u : Decimal.uint) :
  u <> Decimal.Nil ->
  exists k, Py.digits_of u = repeat "0"%char k ++ Py.digits_of (Decimal.unorm u).
Proof.
  intros N. pose proof (DecimalFacts.iter_D0_nzhead u) as E.
  set (k := Decimal.nb_digits u - Decimal.nb_digits (Decimal.nzhead u)) in E.
  destruct (Decimal.nzhead u) eqn:Z;
    try (exists k; rewrite <- E at 1; rewrite digits_of_iter_D0;
         unfold Decimal.unorm; rewrite Z; reflexivity).
  destruct k as [|k]; [simpl in E; congruence|].
  exists k. rewrite <- E at 1. rewrite digits_of_iter_D0.
  unfold Decimal.unorm. rewrite Z. simpl.
  clear. induction k as [|k IH]; simpl; [reflexivity|]. now rewrite <- IH.
Qed.

Lemma of_uint_nonneg (u : Decimal.uint) : (0 <= Z.of_uint u)%Z.
Proof. unfold Z.of_uint. apply N2Z.is_nonneg. Qed.

End IntFacts.
Import IntFacts.

(** ** setValue and getValue *)

Ltac mred :=
  repeat (progress (unfold bind, try_except, get_state, set_ctrls, of_option,
                      ret, raise, emit, print, cmd, store_value; simpl)).

Section ValueFacts.

Variable World : Type.
Variable v4l2_ctl : list str -> World -> option str * World.
Implicit Types (st : state World) (name : str) (val : value) (c : ctl).

Ltac run_monad :=
  unfold setValue, getValue, store_value, cmd, print, emit, bind, try_except,
    get_state, set_ctrls, of_option, ret, raise; simpl.

Lemma store_value_known st name val c :
  Dict.get (ctrls st) name = Some c ->
  store_value name val st
  = (Ok tt,
     with_ctrls st
       (Dict.set (ctrls st) name (Dict.set c ("value"%string : str) val)),
     []).
Proof. intros H. run_monad. now rewrite H. Qed.

(** C10. A control whose cached [flags] is ["inactive"]: [setValue]
    returns [True] at once; the run holds no invocation of the command
    (its only event is the mark of the call) and the state, with the cached
    value of the control, is the one before the call. *)
Theorem setValue_inactive st name val c :
  Dict.get (ctrls st) name = Some c ->
  Dict.get c ("flags"%string : str) = Some (VStr ("inactive"%string : str)) ->
  setValue v4l2_ctl name val st = (Ok true, st, [SetValue name val]).
Proof.
  intros Hc Hf. run_monad. rewrite Hc. simpl.
  unfold flags_of. rewrite Hf. simpl. reflexivity.
Qed.

(** What [setValue] does on a known control that is not inactive,
    according to the exit of the command. *)
Lemma setValue_active st name val c :
  Dict.get (ctrls st) name = Some c ->
  eqb_value (flags_of c) (VStr ("inactive"%string : str)) = false ->
  let argv := set_ctrl_argv (device st) name val in
  setValue v4l2_ctl name val st
  = match v4l2_ctl argv (world st) with
    | (Some _, w) =>
        (Ok true,
         with_ctrls (with_world st w)
           (Dict.set (ctrls st) name (Dict.set c ("value"%string : str) val)),
         [SetValue name val; Exec argv true])
    | (None, w) =>
        (Ok false, with_world st w,
         [SetValue name val; Exec argv false; Print (msg_set name)])
    end.
Proof.
  intros Hc Hf. run_monad. rewrite Hc. simpl in *. rewrite Hf.
  destruct (v4l2_ctl _ (world st)) as [[out|] w]; simpl.
  - rewrite Hc. reflexivity.
  - reflexivity.
Qed.

(** C4. A known control: when the set-control command fails, [setValue]
    returns [False] (no exception), a message is printed after the failed
    invocation, and the cached controls are those before the call. *)
Theorem setValue_command_fails st name val c argv :
  Dict.get (ctrls st) name = Some c ->
  In (Exec argv false) (events (setValue v4l2_ctl name val st)) ->
  outcome (setValue v4l2_ctl name val st) = Ok false
  /\ ctrls (final (setValue v4l2_ctl name val st)) = ctrls st
  /\ device (final (setValue v4l2_ctl name val st)) = device st
  /\ events (setValue v4l2_ctl name val st)
     = [SetValue name val; Exec argv false; Print (msg_set name)].
Proof.
  intros Hc Hin.
  destruct (eqb_value (flags_of c) (VStr ("inactive"%string : str))) eqn:Hf.
  - exfalso. revert Hin. run_monad. rewrite Hc. simpl in *. rewrite Hf.
    simpl. intros [H|[]]. discriminate.
  - rewrite (setValue_active st name val c Hc Hf) in *.
    destruct (v4l2_ctl _ (world st)) as [[out|] w]; simpl in *.
    + exfalso. destruct Hin as [H|[H|[]]]; discriminate.
    + destruct Hin as [H|[H|[H|[]]]]; try discriminate.
      injection H as <-. repeat split.
Qed.

Lemma all_some_digits (l : list str) :
  forallb Py.isdigit l = true ->
  exists ns, Py.all_some (map Py.int l) = Some ns /\ length ns = length l.
Proof.
  induction l as [|t l IH]; simpl; intros H.
  - exists []. auto.
  - apply andb_true_iff in H as [Ht Hl].
    destruct (int_isdigit _ Ht) as (u & Hu & _).
    destruct (IH Hl) as (ns & E & L).
    exists (Z.of_uint u :: ns). rewrite Hu, E. simpl. auto.
Qed.

Lemma digit_tokens_digits (out : str) :
  forallb Py.isdigit (digit_tokens out) = true.
Proof.
  unfold digit_tokens. apply forallb_forall. intros t H.
  now apply filter_In in H.
Qed.

(** The [try] block of [getValue] never lets an exception out. *)
Lemma getValue_no_exception st name :
  exists n, outcome (getValue v4l2_ctl name st) = Ok n.
Proof.
  unfold getValue, try_except, outcome.
  match goal with |- context [match ?m st with _ => _ end] =>
    destruct (m st) as [[[n|e] st'] ev] end; simpl; eauto.
Qed.

(** C5. When reading fails (the get-control command exits with an
    error, or its output has no token made of digits), [getValue] prints
    its message after the invocation and returns 0 without an exception;
    the cached controls are those before the call.  And no call of
    [getValue] at all ends with an exception. *)
Theorem getValue_read_fails st name :
  read_fails v4l2_ctl st name ->
  let argv := get_ctrl_argv (device st) name in
  exists ok,
    getValue v4l2_ctl name st
    = (Ok 0%Z, with_world st (snd (v4l2_ctl argv (world st))),
       [Exec argv ok; Print msg_read])
    /\ ctrls (final (getValue v4l2_ctl name st)) = ctrls st
    /\ forall st' name', exists n,
         outcome (getValue v4l2_ctl name' st') = Ok n.
Proof.
  unfold read_fails. intros H. cbv zeta.
  destruct (v4l2_ctl _ (world st)) as [[out|] w] eqn:E; simpl in H.
  - exists true. assert (G : getValue v4l2_ctl name st
      = (Ok 0%Z, with_world st w,
         [Exec (get_ctrl_argv (device st) name) true; Print msg_read])).
    { run_monad. rewrite E. simpl. rewrite H. reflexivity. }
    rewrite G. repeat split. apply getValue_no_exception.
  - exists false. assert (G : getValue v4l2_ctl name st
      = (Ok 0%Z, with_world st w,
         [Exec (get_ctrl_argv (device st) name) false; Print msg_read])).
    { run_monad. rewrite E. reflexivity. }
    rewrite G. repeat split. apply getValue_no_exception.
Qed.

(** C6. A known control, and an output of the get-control command whose
    first token made of digits is [tok]: [getValue] returns the integer
    that [tok] denotes and the cached [value] of the control is that same
    integer; nothing else changes in the cached controls. *)
Theorem getValue_success st name c out w tok toks :
  Dict.get (ctrls st) name = Some c ->
  v4l2_ctl (get_ctrl_argv (device st) name) (world st) = (Some out, w) ->
  digit_tokens out = tok :: toks ->
  exists n,
    Py.int tok = Some n
    /\ (0 <= n)%Z
    /\ (exists k, tok = repeat "0"%char k ++ Py.str_of_int n)
    /\ getValue v4l2_ctl name st
       = (Ok n,
          with_ctrls (with_world st w)
            (Dict.set (ctrls st) name
               (Dict.set c ("value"%string : str) (VInt n))),
          [Exec (get_ctrl_argv (device st) name) true])
    /\ (forall c', Dict.get (ctrls (final (getValue v4l2_ctl name st))) name
                   = Some c' ->
                   Dict.get c' ("value"%string : str) = Some (VInt n))
    /\ (exists c', Dict.get (ctrls (final (getValue v4l2_ctl name st))) name
                   = Some c').
Proof.
  intros Hc E Ht.
  pose proof (digit_tokens_digits out) as D. rewrite Ht in D. simpl in D.
  apply andb_true_iff in D as [Dt Dl].
  destruct (int_isdigit _ Dt) as (u & Hu & Du).
  destruct (all_some_digits _ Dl) as (ns & Hns & _).
  exists (Z.of_uint u). split; [exact Hu|]. split; [apply of_uint_nonneg|].
  split.
  { rewrite str_of_int_of_uint, <- Du. apply digits_of_unorm.
    intros ->. simpl in Du. subst tok. discriminate. }
  assert (G : getValue v4l2_ctl name st
    = (Ok (Z.of_uint u),
       with_ctrls (with_world st w)
         (Dict.set (ctrls st) name
            (Dict.set c ("value"%string : str) (VInt (Z.of_uint u)))),
       [Exec (get_ctrl_argv (device st) name) true])).
  { run_monad. rewrite E. simpl. rewrite Ht. simpl. rewrite Hu, Hns. simpl.
    rewrite Hc. reflexivity. }
  rewrite G. split; [reflexivity|]. unfold final. simpl.
  rewrite get_set_same. split; [|eauto].
  intros c' [= <-]. apply get_set_same.
Qed.

End ValueFacts.

Lemma setValue_inactive_witness :
  setValue (Demo.device_of Demo.listing true)
    ("white_balance_temperature"%string : str) (VInt 5000) Demo.st0
  = (Ok true, Demo.st0,
     [SetValue ("white_balance_temperature"%string : str) (VInt 5000)]).
Proof.
  apply (setValue_inactive unit (Demo.device_of Demo.listing true)
           Demo.st0 _ _ Demo.ctl_wb_temperature); reflexivity.
Defined.


Lemma setValue_command_fails_witness :
  let run := setValue (Demo.device_of Demo.listing false)
               Demo.brightness (VInt 20) Demo.st0 in
  outcome run = Ok false
  /\ ctrls (final run) = ctrls Demo.st0
  /\ device (final run) = device Demo.st0
  /\ events run
     = [SetValue Demo.brightness (VInt 20);
        Exec [ "--set-ctrl"%string : str; "brightness=20"%string : str ] false;
        Print (msg_set Demo.brightness)].
Proof.
  apply (setValue_command_fails unit (Demo.device_of Demo.listing false)
           Demo.st0 _ _ Demo.ctl_brightness).
  - reflexivity.
  - vm_compute. right. left. reflexivity.
Defined.


Lemma getValue_read_fails_witness :
  exists ok,
    getValue (Demo.device_of Demo.listing true) Demo.brightness Demo.st9
    = (Ok 0%Z, Demo.st9,
       [Exec [ "-d"%string : str; Demo.video9; "--get-ctrl"%string : str;
               Demo.brightness ] ok;
        Print msg_read])
    /\ ctrls (final (getValue (Demo.device_of Demo.listing true)
                       Demo.brightness Demo.st9)) = ctrls Demo.st9
    /\ forall st' name', exists n,
         outcome (getValue (Demo.device_of Demo.listing true) name' st')
         = Ok n.
Proof.
  apply (getValue_read_fails unit (Demo.device_of Demo.listing true)
           Demo.st9 Demo.brightness).
  vm_compute. exact I.
Defined.

Lemma getValue_success_witness :
  exists n,
    Py.int ("12"%string : str) = Some n
    /\ (0 <= n)%Z
    /\ (exists k, ("12"%string : str) = repeat "0"%char k ++ Py.str_of_int n)
    /\ getValue (Demo.device_of Demo.listing true) Demo.brightness Demo.st0
       = (Ok n,
          with_ctrls (with_world Demo.st0 tt)
            (Dict.set (ctrls Demo.st0) Demo.brightness
               (Dict.set Demo.ctl_brightness ("value"%string : str) (VInt n))),
          [Exec (get_ctrl_argv (device Demo.st0) Demo.brightness) true])
    /\ (forall c',
          Dict.get (ctrls (final (getValue (Demo.device_of Demo.listing true)
                                    Demo.brightness Demo.st0))) Demo.brightness
          = Some c' ->
          Dict.get c' ("value"%string : str) = Some (VInt n))
    /\ (exists c',
          Dict.get (ctrls (final (getValue (Demo.device_of Demo.listing true)
                                    Demo.brightness Demo.st0))) Demo.brightness
          = Some c').
Proof.
  apply (getValue_success unit (Demo.device_of Demo.listing true) Demo.st0
           Demo.brightness Demo.ctl_brightness
           ("brightness: 12"%string ++ Demo.NL) tt ("12"%string : str) []);
    reflexivity.
Defined.

(** ** The device argument *)

Section DeviceFacts.

Variable World : Type.
Variable v4l2_ctl : list str -> World -> option str * World.
Implicit Types (st : state World) (name : str) (val : value).

Lemma device_args_selects (dev : str) (sub : list str) :
  selects_device dev sub (device_args dev ++ sub).
Proof.
  destruct dev as [|a dev]; split; simpl; intros H; congruence.
Qed.

Lemma for_each_silent (A : Type) (body : A -> M World unit) (l : list A) :
  (forall a st, events (body a st) = []) ->
  forall st, events (for_each l body st) = [].
Proof.
  intros Hb. induction l as [|a l IH]; intros st; simpl; [reflexivity|].
  unfold bind. specialize (Hb a st). unfold events in *.
  destruct (body a st) as [[[[]|e] st'] ev]; simpl in *; subst; auto.
  specialize (IH st'). destruct (for_each l body st') as [[r st''] ev'].
  simpl in *. now subst.
Qed.

Lemma get_ctls_line_silent (line : str) st :
  events (get_ctls_line line st) = [].
Proof.
  unfold get_ctls_line, events.
  destruct (Re.split RE_CTL 3 line) as [|m0 m]; [reflexivity|].
  generalize (m0 :: m). intros mm.
  unfold bind, of_option, get_state, set_ctrls, ret, raise.
  destruct (nth_error mm 1); [|reflexivity].
  destruct (nth_error mm 2); [|reflexivity].
  destruct (nth_error mm 3); reflexivity.
Qed.

(** [get_ctls] runs the command once, to list the controls. *)
Lemma get_ctls_events st :
  exists ok, events (get_ctls v4l2_ctl st) = [Exec (list_argv (device st)) ok].
Proof.
  unfold get_ctls, bind, set_ctrls, get_state, cmd, events. simpl.
  destruct (v4l2_ctl _ (world st)) as [[out|] w]; simpl; [|eauto].
  exists true.
  pose proof (for_each_silent _ (@get_ctls_line World) (lines out)
                (fun a s => get_ctls_line_silent a s)
                (with_world (with_ctrls st (Dict.empty ctl)) w)) as E.
  unfold events in E.
  destruct (for_each _ _ _) as [[r st'] ev]. simpl in *. now subst.
Qed.

Lemma getValue_events st name :
  exists ok tl,
    events (getValue v4l2_ctl name st)
    = Exec (get_ctrl_argv (device st) name) ok :: tl
    /\ (tl = [] \/ tl = [Print msg_read]).
Proof.
  unfold getValue, try_except, bind, get_state, cmd, of_option, store_value,
    set_ctrls, print, emit, ret, raise, events. simpl.
  destruct (v4l2_ctl _ (world st)) as [[out|] w]; simpl; [|eauto].
  destruct (Py.all_some _) as [[|v0 val]|]; simpl; eauto.
  destruct (Dict.get (ctrls st) name) eqn:Hc; mred; rewrite ?Hc; simpl; eauto.
Qed.

Lemma setValue_events st name val :
  events (setValue v4l2_ctl name val st) = [SetValue name val]
  \/ exists ok tl,
       events (setValue v4l2_ctl name val st)
       = SetValue name val :: Exec (set_ctrl_argv (device st) name val) ok :: tl
       /\ (tl = [] \/ tl = [Print (msg_set name)]).
Proof.
  unfold setValue, try_except, bind, get_state, cmd, of_option, store_value,
    set_ctrls, print, emit, ret, raise, events. simpl.
  destruct (Dict.get (ctrls st) name) as [c|] eqn:Hc; simpl; [|auto].
  destruct (eqb_value _ _); simpl; [auto|]. right.
  destruct (v4l2_ctl _ (world st)) as [[out|] w]; simpl; [|eauto].
  mred. rewrite ?Hc. simpl. eauto.
Qed.

(** C9. Every invocation of the command by [get_ctls], [getValue] and
    [setValue]: with a device path, its arguments are [-d], the path and
    then the subcommand; without one, they are the subcommand alone. *)
Theorem invocations_select_device st name val argv ok :
  (In (Exec argv ok) (events (get_ctls v4l2_ctl st)) ->
   selects_device (device st) [ "-l"%string : str ] argv)
  /\ (In (Exec argv ok) (events (getValue v4l2_ctl name st)) ->
      selects_device (device st) [ "--get-ctrl"%string : str; name ] argv)
  /\ (In (Exec argv ok) (events (setValue v4l2_ctl name val st)) ->
      selects_device (device st)
        [ "--set-ctrl"%string : str;
          name ++ ("="%string : str) ++ Py.str_of val ] argv).
Proof.
  split; [|split].
  - destruct (get_ctls_events st) as [ok' ->]. intros [H|[]].
    injection H as <- _. apply device_args_selects.
  - destruct (getValue_events st name) as (ok' & tl & -> & Htl).
    intros [H|H].
    + injection H as <- _. apply device_args_selects.
    + destruct Htl as [->| ->]; [destruct H|].
      destruct H as [H|[]]. discriminate.
  - destruct (setValue_events st name val) as [->|(ok' & tl & -> & Htl)].
    + intros [H|[]]. discriminate.
    + intros [H|[H|H]]; [discriminate| |].
      * injection H as <- _. apply device_args_selects.
      * destruct Htl as [->| ->]; [destruct H|].
        destruct H as [H|[]]. discriminate.
Qed.

End DeviceFacts.

Lemma invocations_select_device_witness :
  selects_device Demo.video9 [ "-l"%string : str ]
    [ "-d"%string : str; Demo.video9; "-l"%string : str ]
  /\ selects_device [] [ "--get-ctrl"%string : str; Demo.brightness ]
       [ "--get-ctrl"%string : str; Demo.brightness ]
  /\ selects_device Demo.video9
       [ "--set-ctrl"%string : str; "brightness=20"%string : str ]
       [ "-d"%string : str; Demo.video9; "--set-ctrl"%string : str;
         "brightness=20"%string : str ].
Proof.
  split; [|split].
  - apply (proj1 (invocations_select_device unit
                    (Demo.device_of Demo.listing true) Demo.st9
                    Demo.brightness (VInt 20) _ false)).
    vm_compute. left. reflexivity.
  - apply (proj1 (proj2 (invocations_select_device unit
                    (Demo.device_of Demo.listing true) Demo.st0
                    Demo.brightness (VInt 20) _ true))).
    vm_compute. left. reflexivity.
  - apply (proj2 (proj2 (invocations_select_device unit
                    (Demo.device_of Demo.listing true) Demo.st9
                    Demo.brightness (VInt 20) _ false))).
    vm_compute. right. left. reflexivity.
Defined.

(** ** The listing: lines that are not controls *)

Section ListingFacts.

Variable World : Type.
Variable v4l2_ctl : list str -> World -> option str * World.
Implicit Types (st : state World) (line : str).

(** [split] never answers the empty list, so the test [if not m] of
    [get_ctls] never holds. *)
Lemma split_not_nil (r : Re.regex) (n : nat) (s : str) : Re.split r n s <> [].
Proof.
  unfold Re.split. simpl. destruct (Re.search r s) as [f|]; [|discriminate].
  destruct (Nat.ltb _ _); discriminate.
Qed.

Lemma split_no_match (r : Re.regex) (n : nat) (s : str) :
  Re.search r s = None -> Re.split r n s = [s].
Proof. unfold Re.split. simpl. now intros ->. Qed.

(** A line on which [RE_CTL] finds nothing: [split] answers the line
    alone, and [m[1]] raises IndexError. *)
Lemma get_ctls_line_no_match st line :
  Re.search RE_CTL line = None ->
  get_ctls_line line st = (Raise IndexError, st, []).
Proof.
  intros H. unfold get_ctls_line. rewrite (split_no_match RE_CTL 3 line H). reflexivity.
Qed.

(** The listing stops at the first such line: the controls of the lines
    before it are cached, the lines after it are not read. *)
Lemma for_each_stops (A : Type) (body : A -> M World unit) (a : A)
    (pre post : list A) st :
  (forall st', body a st' = (Raise IndexError, st', [])) ->
  outcome (for_each pre body st) = Ok tt ->
  for_each (pre ++ a :: post) body st
  = (Raise IndexError, final (for_each pre body st),
     events (for_each pre body st)).
Proof.
  intros Ha. revert st. induction pre as [|b pre IH]; intros st; simpl.
  - intros _. unfold bind. rewrite Ha. reflexivity.
  - unfold bind, outcome, final, events in *.
    destruct (body b st) as [[[[]|e] st1] ev1]; simpl; [|discriminate].
    intros H. rewrite (IH st1).
    + destruct (for_each pre body st1) as [[r2 st2] ev2]. reflexivity.
    + destruct (for_each pre body st1) as [[r2 st2] ev2]. exact H.
Qed.

End ListingFacts.

(** C3, at a listing with headings.  The first line of the listing is
    empty: [get_ctls] ends with IndexError on it, and the control of the
    fourth line is not cached. *)
Theorem get_ctls_heading_raises :
  Re.search RE_CTL Demo.NL = None
  /\ lines Demo.listing_with_headings
     = [ Demo.NL; ("User Controls"%string : str) ++ Demo.NL; Demo.NL;
         ("                     brightness 0x00980900 (int)    : min=-64 max=64 step=1 default=0 value=12"%string : str)
         ++ Demo.NL ]
  /\ get_ctls (Demo.device_of Demo.listing_with_headings true) Demo.st0
     = (Raise IndexError,
        State [] (Dict.empty ctl) tt (Dict.empty str),
        [Exec [ "-l"%string : str ] true]).
Proof. vm_compute. repeat split. Qed.

(** C2, at the same listing.  Its fourth line matches the control
    pattern, and the body of the loop alone stores the control
    [brightness] for it, with its type and its five attributes.  But
    [get_ctls] ends with IndexError on the first line of the listing (the
    defect of C3) and never comes to this line: after [get_ctls], no
    control is cached under the name [brightness]. *)
Theorem get_ctls_misses_control_line :
  nth_error (lines Demo.listing_with_headings) 3 = Some Demo.line_brightness
  /\ Re.search RE_CTL Demo.line_brightness <> None
  /\ get_ctls_line Demo.line_brightness
       (State [] (Dict.empty ctl) tt (Dict.empty str))
     = (Ok tt,
        State [] [(Demo.brightness, Demo.ctl_brightness)] tt (Dict.empty str),
        [])
  /\ outcome (get_ctls (Demo.device_of Demo.listing_with_headings true)
                Demo.st0)
     = Raise IndexError
  /\ Dict.get
       (ctrls (final (get_ctls (Demo.device_of Demo.listing_with_headings true)
                        Demo.st0)))
       Demo.brightness
     = None.
Proof.
  split; [reflexivity|]. split; [vm_compute; discriminate|].
  split; [vm_compute; reflexivity|]. split; vm_compute; reflexivity.
Qed.

(** ** update: the two passes *)

Section UpdateFacts.

Variable World : Type.
Variable v4l2_ctl : list str -> World -> option str * World.
Implicit Types (st : state World) (name n : str) (val : value)
  (cs : Dict.t ctl) (ev : list event).

Lemma get_none_not_in (V : Type) (d : Dict.t V) (k : str) :
  Dict.get d k = None <-> ~ In k (Dict.keys d).
Proof.
  split.
  - intros H I. apply in_keys_get in I as [v E]. congruence.
  - intros H. destruct (Dict.get d k) eqn:E; [|reflexivity].
    apply get_in_keys in E. contradiction.
Qed.

Lemma same_shape_refl cs : same_shape cs cs.
Proof. split; [reflexivity|]. intros n c H. exists c. auto. Qed.

Lemma same_shape_trans cs1 cs2 cs3 :
  same_shape cs1 cs2 -> same_shape cs2 cs3 -> same_shape cs1 cs3.
Proof.
  intros [K1 H1] [K2 H2]. split; [congruence|].
  intros n c Hc. destruct (H1 _ _ Hc) as (c2 & G2 & T2 & A2).
  destruct (H2 _ _ G2) as (c3 & G3 & T3 & A3).
  exists c3. repeat split; [assumption|congruence|auto].
Qed.

Lemma same_shape_type_of cs cs' n :
  same_shape cs cs' -> type_of cs' n = type_of cs n.
Proof.
  intros [K H]. unfold type_of. destruct (Dict.get cs n) as [c|] eqn:E.
  - destruct (H _ _ E) as (c' & -> & T & _). exact T.
  - apply get_none_not_in in E. rewrite <- K in E.
    apply get_none_not_in in E. now rewrite E.
Qed.

Lemma same_shape_store cs name c val :
  Dict.get cs name = Some c ->
  same_shape cs (Dict.set cs name (Dict.set c ("value"%string : str) val)).
Proof.
  intros Hc. split; [now apply keys_set_bound with (v0 := c)|].
  intros n c0 Hn. destruct (eqb_str n name) eqn:E.
  - apply eqb_str_eq in E. subst n. rewrite Hc in Hn. injection Hn as <-.
    exists (Dict.set c ("value"%string : str) val).
    rewrite get_set_same. split; [reflexivity|]. split.
    + apply get_set_other. discriminate.
    + intros k Hk. destruct (eqb_str k ("value"%string : str)) eqn:Ek.
      * apply eqb_str_eq in Ek. subst k. rewrite get_set_same. discriminate.
      * apply eqb_str_neq in Ek. now rewrite get_set_other.
  - apply eqb_str_neq in E. exists c0. rewrite get_set_other; auto.
Qed.

(** [setValue] keeps the shape of the cached controls. *)
Lemma setValue_shape st name val :
  same_shape (ctrls st) (ctrls (final (setValue v4l2_ctl name val st))).
Proof.
  unfold setValue, final. mred.
  destruct (Dict.get (ctrls st) name) as [c|] eqn:Hc; simpl;
    [|apply same_shape_refl].
  destruct (eqb_value _ _); simpl; [apply same_shape_refl|].
  destruct (v4l2_ctl _ (world st)) as [[out|] w]; simpl;
    [|apply same_shape_refl].
  mred. rewrite Hc. simpl. now apply same_shape_store.
Qed.

Lemma setValue_known_ok st name val c :
  Dict.get (ctrls st) name = Some c ->
  exists b, outcome (setValue v4l2_ctl name val st) = Ok b.
Proof.
  intros Hc. unfold setValue, outcome. mred. rewrite Hc. simpl.
  destruct (eqb_value _ _); simpl; [eauto|].
  destruct (v4l2_ctl _ (world st)) as [[out|] w]; simpl; [|eauto].
  mred. rewrite Hc. simpl. eauto.
Qed.

Lemma setValue_marks st name val n v :
  In (SetValue n v) (events (setValue v4l2_ctl name val st)) -> n = name.
Proof.
  destruct (setValue_events World v4l2_ctl st name val)
    as [->|(ok & tl & -> & Htl)].
  - intros [H|[]]. now injection H.
  - intros [H|[H|H]]; [now injection H|discriminate|].
    destruct Htl as [->| ->]; [destruct H|].
    destruct H as [H|[]]. discriminate.
Qed.

Lemma setValue_calls st name val n :
  set_value_calls n (events (setValue v4l2_ctl name val st))
  = if eqb_str n name then 1 else 0.
Proof.
  destruct (setValue_events World v4l2_ctl st name val)
    as [->|(ok & tl & -> & [->| ->])]; simpl; lia.
Qed.

Lemma set_value_calls_app n ev ev' :
  set_value_calls n (ev ++ ev')
  = set_value_calls n ev + set_value_calls n ev'.
Proof.
  induction ev as [|[argv ok|msg|m v] ev IH]; simpl; auto. rewrite IH. lia.
Qed.

(** One turn of a loop of [update]. *)
Lemma update_one_skip skip reset st name c ty :
  Dict.get (ctrls st) name = Some c ->
  Dict.get c ("type"%string : str) = Some ty ->
  skip ty = true ->
  update_one v4l2_ctl skip reset name st = (Ok tt, st, []).
Proof.
  intros Hc Ht Hs. unfold update_one. mred. rewrite Hc. simpl in *.
  rewrite Ht. simpl. rewrite Hs. reflexivity.
Qed.

Lemma update_one_set skip reset st name c ty val :
  Dict.get (ctrls st) name = Some c ->
  Dict.get c ("type"%string : str) = Some ty ->
  skip ty = false ->
  Dict.get c (read_key reset) = Some val ->
  update_one v4l2_ctl skip reset name st
  = match setValue v4l2_ctl name val st with
    | (Ok _, st', ev) => (Ok tt, st', ev)
    | (Raise e, st', ev) => (Raise e, st', ev)
    end.
Proof.
  intros Hc Ht Hs Hv. unfold update_one.
  unfold bind at 1. unfold get_state at 1.
  unfold bind at 1. rewrite Hc. unfold of_option at 1, ret at 1.
  unfold bind at 1. simpl in Ht. simpl. rewrite Ht.
  unfold of_option at 1, ret at 1. rewrite Hs.
  unfold bind at 1. rewrite Hv. unfold of_option at 1, ret at 1.
  unfold bind at 1.
  destruct (setValue v4l2_ctl name val st) as [[[b|e] st'] ev];
    [|reflexivity].
  unfold ret. now rewrite !List.app_nil_r.
Qed.

(** Whatever the control, one turn keeps the shape of the cached
    controls and enters [setValue] for this control only, and only when
    its type does not make the loop continue. *)
Lemma update_one_any skip reset st name :
  same_shape (ctrls st)
    (ctrls (final (update_one v4l2_ctl skip reset name st)))
  /\ forall n v,
       In (SetValue n v) (events (update_one v4l2_ctl skip reset name st)) ->
       n = name
       /\ exists ty, type_of (ctrls st) name = Some ty /\ skip ty = false.
Proof.
  destruct (Dict.get (ctrls st) name) as [c|] eqn:Hc.
  2:{ unfold update_one. mred. rewrite Hc. simpl.
      split; [apply same_shape_refl|intros n v []]. }
  destruct (Dict.get c ("type"%string : str)) as [ty|] eqn:Ht.
  2:{ unfold update_one. mred. rewrite Hc. simpl in *. rewrite Ht. simpl.
      split; [apply same_shape_refl|intros n v []]. }
  destruct (skip ty) eqn:Hs.
  { rewrite (update_one_skip skip reset st name c ty Hc Ht Hs). simpl.
    split; [apply same_shape_refl|intros n v []]. }
  destruct (Dict.get c (read_key reset)) as [val|] eqn:Hv.
  2:{ unfold update_one. mred. rewrite Hc. simpl in *. rewrite Ht. simpl.
      rewrite Hs. mred. rewrite Hv. simpl.
      split; [apply same_shape_refl|intros n v []]. }
  rewrite (update_one_set skip reset st name c ty val Hc Ht Hs Hv).
  pose proof (setValue_shape st name val) as Sh.
  pose proof (setValue_marks st name val) as Mk.
  destruct (setValue v4l2_ctl name val st) as [[[b|e] st'] ev];
    unfold final, events in *; simpl in *.
  - split; [exact Sh|]. intros n v H. split; [eapply Mk; eauto|].
    exists ty. unfold type_of. now rewrite Hc.
  - split; [exact Sh|]. intros n v H. split; [eapply Mk; eauto|].
    exists ty. unfold type_of. now rewrite Hc.
Qed.

Lemma is_int_not_bool_menu (ty : value) :
  is_int ty = true -> is_bool_or_menu ty = false.
Proof.
  unfold is_int. destruct ty as [z|t]; [discriminate|].
  intros H. apply eqb_str_eq in H. subst t. reflexivity.
Qed.

Lemma update_pass_for_each skip reset st :
  update_pass v4l2_ctl skip reset st
  = for_each (Dict.keys (ctrls st)) (update_one v4l2_ctl skip reset) st.
Proof.
  unfold update_pass, bind, get_state.
  destruct (for_each _ _ st) as [[r st'] ev]. reflexivity.
Qed.

(** A loop, from any state of the shape [cs0]: it keeps the shape, and it
    enters [setValue] only for controls whose type does not make it
    continue. *)
Lemma pass_loop_any skip reset cs0 (l : list str) :
  forall st,
  same_shape cs0 (ctrls st) ->
  same_shape cs0
    (ctrls (final (for_each l (update_one v4l2_ctl skip reset) st)))
  /\ forall n v,
       In (SetValue n v)
          (events (for_each l (update_one v4l2_ctl skip reset) st)) ->
       exists ty, type_of cs0 n = Some ty /\ skip ty = false.
Proof.
  induction l as [|k l IH]; intros st Sh; simpl.
  - split; [exact Sh|intros n v []].
  - destruct (update_one_any skip reset st k) as [Sh1 Mk1].
    unfold bind, final, events in *.
    destruct (update_one v4l2_ctl skip reset k st) as [[[[]|e] st1] ev1];
      simpl in *.
    + destruct (IH st1 (same_shape_trans _ _ _ Sh Sh1)) as [Sh2 Mk2].
      destruct (for_each l _ st1) as [[r2 st2] ev2]; simpl in *.
      split; [exact Sh2|]. intros n v H. apply in_app_or in H as [H|H].
      * destruct (Mk1 _ _ H) as (-> & ty & T & S).
        exists ty. now rewrite <- (same_shape_type_of _ _ k Sh).
      * eauto.
    + split; [exact (same_shape_trans _ _ _ Sh Sh1)|]. intros n v H.
      destruct (Mk1 _ _ H) as (-> & ty & T & S).
      exists ty. now rewrite <- (same_shape_type_of _ _ k Sh).
Qed.

(** The same loop when every control can be read: it completes, and it
    enters [setValue] once for each control that it does not skip. *)
Lemma pass_loop_count skip reset cs0 (l : list str) :
  readable reset cs0 ->
  NoDup l ->
  (forall k, In k l -> In k (Dict.keys cs0)) ->
  forall st,
  same_shape cs0 (ctrls st) ->
  outcome (for_each l (update_one v4l2_ctl skip reset) st) = Ok tt
  /\ forall n ty, type_of cs0 n = Some ty ->
       set_value_calls n
         (events (for_each l (update_one v4l2_ctl skip reset) st))
       = if skip ty then 0 else if existsb (eqb_str n) l then 1 else 0.
Proof.
  intros Rd. induction l as [|k l IH]; intros ND Hin st Sh; simpl.
  - split; [reflexivity|]. intros n ty _. now destruct (skip ty).
  - apply NoDup_cons_iff in ND as [Hk ND].
    assert (Hin' : forall k', In k' l -> In k' (Dict.keys cs0))
      by (intros; apply Hin; now right).
    destruct (in_keys_get _ cs0 k (Hin k (or_introl eq_refl))) as [c0 Hc0].
    destruct (Rd _ _ Hc0) as [Ty0 Rk0].
    destruct (proj2 Sh _ _ Hc0) as (c & Hc & Tc & Ac).
    destruct (Dict.get c ("type"%string : str)) as [tk|] eqn:Ht;
      [|congruence].
    assert (Tk : type_of cs0 k = Some tk)
      by (unfold type_of; rewrite Hc0; congruence).
    destruct (Dict.get c (read_key reset)) as [val|] eqn:Hv;
      [|now apply Ac in Rk0].
    assert (Step : exists st1 ev1,
      update_one v4l2_ctl skip reset k st = (Ok tt, st1, ev1)
      /\ same_shape cs0 (ctrls st1)
      /\ forall n, set_value_calls n ev1
                   = if skip tk then 0 else if eqb_str n k then 1 else 0).
    { destruct (skip tk) eqn:Hs.
      - exists st, []. rewrite (update_one_skip skip reset st k c tk Hc Ht Hs).
        auto.
      - rewrite (update_one_set skip reset st k c tk val Hc Ht Hs Hv).
        pose proof (setValue_shape st k val) as Sh1.
        pose proof (setValue_calls st k val) as Ct.
        destruct (setValue_known_ok st k val c Hc) as [b Hb].
        unfold outcome, final, events in *.
        destruct (setValue v4l2_ctl k val st) as [[r st1] ev1].
        simpl in *. subst r. exists st1, ev1.
        split; [reflexivity|]. split; [exact (same_shape_trans _ _ _ Sh Sh1)|].
        exact Ct. }
    destruct Step as (st1 & ev1 & E1 & Sh1 & Ct1).
    destruct (IH ND Hin' st1 Sh1) as [Ok2 Ct2].
    unfold bind, outcome, events in *. rewrite E1.
    destruct (for_each l _ st1) as [[r2 st2] ev2]; simpl in *.
    split; [exact Ok2|]. intros n ty Tn.
    rewrite set_value_calls_app, Ct1, (Ct2 _ _ Tn).
    destruct (eqb_str n k) eqn:E; simpl.
    + apply eqb_str_eq in E. subst n.
      assert (ty = tk) by congruence. subst ty.
      destruct (skip tk); [reflexivity|].
      destruct (existsb (eqb_str k) l) eqn:X; [|reflexivity].
      exfalso. apply Hk. apply existsb_exists in X as (x & Hx & Ex).
      apply eqb_str_eq in Ex. now subst.
    + destruct (skip tk), (skip ty); lia.
Qed.

Lemma update_events reset st :
  exists ev2,
    events (update v4l2_ctl reset st)
    = events (update_pass v4l2_ctl is_int reset st) ++ ev2
    /\ (ev2 = []
        \/ ev2 = events (update_pass v4l2_ctl is_bool_or_menu reset
                           (final (update_pass v4l2_ctl is_int reset st)))).
Proof.
  unfold update, bind, events, final.
  destruct (update_pass v4l2_ctl is_int reset st) as [[[[]|e] st1] ev1];
    simpl.
  - destruct (update_pass v4l2_ctl is_bool_or_menu reset st1)
      as [[r2 st2] ev2]. simpl. eauto.
  - exists []. rewrite List.app_nil_r. auto.
Qed.

Lemma later_in_second [A : Type] (l1 l2 p q r : list A) (x y : A) :
  l1 ++ l2 = p ++ x :: q ++ y :: r -> ~ In x l1 -> In y l2.
Proof.
  revert p. induction l1 as [|a l1 IH]; intros p E N; simpl in *.
  - subst l2. apply in_or_app. right. right. apply in_or_app. right. now left.
  - destruct p as [|b p]; simpl in E; injection E as -> E.
    + exfalso. apply N. now left.
    + apply (IH p E). intros I. apply N. now right.
Qed.

(** C1. In the run of [update], for [reset] True or False: when a call
    of [setValue] for a control of type int comes before another call of
    [setValue], this other call is not for a control of type bool or menu.
    All the calls for bool and menu controls come before any call for an
    int control. *)
Theorem update_bool_menu_first st reset ev1 n1 v1 ev2 n2 v2 ev3 :
  events (update v4l2_ctl reset st)
  = ev1 ++ SetValue n1 v1 :: ev2 ++ SetValue n2 v2 :: ev3 ->
  has_type (ctrls st) n1 "int" ->
  ~ has_type (ctrls st) n2 "bool" /\ ~ has_type (ctrls st) n2 "menu".
Proof.
  intros E T1. destruct (update_events reset st) as (evB & EB & HB).
  rewrite EB in E. rewrite update_pass_for_each in E.
  destruct (pass_loop_any is_int reset _ (Dict.keys (ctrls st)) st
              (same_shape_refl (ctrls st))) as [Sh1 Mk1].
  assert (N1 : ~ In (SetValue n1 v1)
                 (events (for_each (Dict.keys (ctrls st))
                            (update_one v4l2_ctl is_int reset) st))).
  { intros I. destruct (Mk1 _ _ I) as (ty & T & S).
    unfold has_type in T1. rewrite T1 in T. injection T as <-.
    discriminate S. }
  pose proof (later_in_second _ _ _ _ _ _ _ E N1) as I2.
  destruct HB as [->|HB]; [destruct I2|]. subst evB.
  rewrite update_pass_for_each in I2. rewrite update_pass_for_each in I2.
  destruct (pass_loop_any is_bool_or_menu reset _
              (Dict.keys (ctrls (final (for_each (Dict.keys (ctrls st))
                 (update_one v4l2_ctl is_int reset) st)))) _ Sh1)
    as [_ Mk2].
  destruct (Mk2 _ _ I2) as (ty & T & S).
  unfold has_type. rewrite T. unfold is_bool_or_menu in S.
  apply orb_false_iff in S as [Sb Sm].
  split; intros [= ->]; discriminate.
Qed.

(** C7, as the code has it.  When the cached controls form a [dict] and
    each has a type and the attribute that [update] reads, [update]
    completes, and it enters [setValue] once for a control of type int,
    bool or menu, and twice (once in each pass) for a control of any other
    type. *)
Theorem update_calls_per_control st reset name ty :
  wf_dict (ctrls st) ->
  readable reset (ctrls st) ->
  type_of (ctrls st) name = Some ty ->
  outcome (update v4l2_ctl reset st) = Ok tt
  /\ set_value_calls name (events (update v4l2_ctl reset st))
     = if is_int ty || is_bool_or_menu ty then 1 else 2.
Proof.
  intros Wf Rd Tn.
  assert (Bn : existsb (eqb_str name) (Dict.keys (ctrls st)) = true).
  { apply existsb_exists. exists name. split; [|apply eqb_str_refl].
    unfold type_of in Tn. destruct (Dict.get (ctrls st) name) eqn:G;
      [|discriminate]. eapply get_in_keys; eauto. }
  destruct (pass_loop_count is_int reset _ _ Rd Wf (fun k H => H) st
              (same_shape_refl _)) as [Ok1 Ct1].
  destruct (pass_loop_any is_int reset _ (Dict.keys (ctrls st)) st
              (same_shape_refl (ctrls st))) as [Sh1 _].
  unfold update, bind. rewrite !update_pass_for_each.
  unfold outcome, final, events in *.
  destruct (for_each (Dict.keys (ctrls st)) _ st) as [[r1 st1] ev1].
  simpl in *. subst r1. rewrite update_pass_for_each.
  destruct Sh1 as [K1 H1]. rewrite K1.
  destruct (pass_loop_count is_bool_or_menu reset _ _ Rd Wf (fun k H => H)
              st1 (conj K1 H1)) as [Ok2 Ct2].
  destruct (for_each (Dict.keys (ctrls st)) _ st1) as [[r2 st2] ev2].
  simpl in *. split; [exact Ok2|].
  rewrite set_value_calls_app, (Ct1 _ _ Tn), (Ct2 _ _ Tn), Bn.
  destruct (is_int ty) eqn:Ei, (is_bool_or_menu ty) eqn:Eb;
    try reflexivity.
  rewrite (is_int_not_bool_menu _ Ei) in Eb. discriminate.
Qed.

End UpdateFacts.

Lemma update_bool_menu_first_witness :
  ~ has_type (ctrls Demo.st0) ("white_balance_temperature"%string : str) "bool"
  /\ ~ has_type (ctrls Demo.st0) ("white_balance_temperature"%string : str)
         "menu".
Proof.
  pose (E := events (update (Demo.device_of Demo.listing true) false
                       Demo.st0)).
  apply (update_bool_menu_first unit (Demo.device_of Demo.listing true)
           Demo.st0 false (firstn 4 E) Demo.brightness (VInt 12)
           (firstn 3 (skipn 5 E)) ("white_balance_temperature"%string : str)
           (VInt 4600) []); reflexivity.
Defined.

(** C7 as stated fails on a control of another type: the integer menu
    [link_frequency] of the example is set in both passes. *)
Lemma update_intmenu_twice :
  In ("link_frequency"%string : str) (Dict.keys (ctrls Demo.st0))
  /\ set_value_calls ("link_frequency"%string : str)
       (events (update (Demo.device_of Demo.listing true) false Demo.st0))
     = 2
  /\ set_value_calls ("link_frequency"%string : str)
       (events (update (Demo.device_of Demo.listing true) false Demo.st0))
     <> 1.
Proof. vm_compute. split; [auto|]. split; [reflexivity|discriminate]. Qed.

Lemma update_calls_per_control_witness :
  outcome (update (Demo.device_of Demo.listing true) true Demo.st0) = Ok tt
  /\ set_value_calls ("link_frequency"%string : str)
       (events (update (Demo.device_of Demo.listing true) true Demo.st0))
     = 2.
Proof.
  apply (update_calls_per_control unit (Demo.device_of Demo.listing true)
           Demo.st0 true ("link_frequency"%string : str)
           (VStr ("intmenu"%string : str))).
  - unfold wf_dict. vm_compute. repeat constructor; simpl; intuition discriminate.
  - intros name c H. vm_compute in H.
    repeat match type of H with
           | (if ?b then _ else _) = _ => destruct b
           end;
      try discriminate; injection H as <-; vm_compute; split; discriminate.
  - reflexivity.
Defined.

(** ** The matcher and the meaning of the patterns *)

Module ReFacts.

Section Star.

Variable A : Type.
Implicit Types (c : Re.cset) (s : str) (k : str -> option A).

Lemma star_greedy_sound c s k x :
  Re.star_greedy c s k = Some x ->
  exists s1 s2, s = s1 ++ s2 /\ forallb (Re.mem c) s1 = true
                /\ k s2 = Some x.
Proof.
  induction s as [|a s IH]; simpl.
  - intros H. exists [], []. auto.
  - destruct (Re.mem c a) eqn:Ha.
    + destruct (Re.star_greedy c s k) as [y|] eqn:E; simpl.
      * intros [= ->]. destruct (IH eq_refl) as (s1 & s2 & -> & F & K).
        exists (a :: s1), s2. simpl. rewrite Ha. auto.
      * intros H. exists [], (a :: s). auto.
    + intros H. exists [], (a :: s). auto.
Qed.

Lemma star_lazy_sound c s k x :
  Re.star_lazy c s k = Some x ->
  exists s1 s2, s = s1 ++ s2 /\ forallb (Re.mem c) s1 = true
                /\ k s2 = Some x.
Proof.
  induction s as [|a s IH]; simpl.
  - destruct (k []) eqn:E; [|discriminate]. intros [= ->].
    exists [], []. auto.
  - destruct (k (a :: s)) eqn:E.
    + intros [= ->]. exists [], (a :: s). auto.
    + destruct (Re.mem c a) eqn:Ha; [|discriminate]. intros H.
      destruct (IH H) as (s1 & s2 & -> & F & K).
      exists (a :: s1), s2. simpl. rewrite Ha. auto.
Qed.

Lemma star_greedy_complete c s1 s2 k :
  forallb (Re.mem c) s1 = true -> k s2 <> None ->
  Re.star_greedy c (s1 ++ s2) k <> None.
Proof.
  induction s1 as [|a s1 IH]; simpl; intros F K.
  - destruct s2 as [|b s2]; simpl; [exact K|].
    destruct (Re.mem c b); [|exact K].
    destruct (Re.star_greedy c s2 k); simpl; [discriminate|exact K].
  - apply andb_true_iff in F as [Ha F]. rewrite Ha.
    specialize (IH F K). destruct (Re.star_greedy c (s1 ++ s2) k);
      simpl; [discriminate|contradiction].
Qed.

Lemma star_lazy_complete c s1 s2 k :
  forallb (Re.mem c) s1 = true -> k s2 <> None ->
  Re.star_lazy c (s1 ++ s2) k <> None.
Proof.
  induction s1 as [|a s1 IH]; simpl; intros F K.
  - destruct s2 as [|b s2]; simpl; destruct (k _); congruence.
  - apply andb_true_iff in F as [Ha F]. rewrite Ha.
    destruct (k (a :: s1 ++ s2)); [discriminate|]. now apply IH.
Qed.

(** The greedy star tries the longer runs first: when the run it keeps
    could take one more character, what follows has failed after this
    longer run. *)
Lemma star_greedy_none c s k : Re.star_greedy c s k = None -> k s = None.
Proof.
  destruct s as [|a s]; simpl; [auto|]. destruct (Re.mem c a); [|auto].
  destruct (Re.star_greedy c s k); simpl; [discriminate|auto].
Qed.

Lemma star_greedy_first c s k x :
  Re.star_greedy c s k = Some x ->
  exists s1 s2, s = s1 ++ s2 /\ forallb (Re.mem c) s1 = true
                /\ k s2 = Some x
                /\ forall a s2', s2 = a :: s2' -> Re.mem c a = true ->
                     k s2' = None.
Proof.
  induction s as [|a s IH]; simpl.
  - intros H. exists [], []. repeat split; auto. discriminate.
  - destruct (Re.mem c a) eqn:Ha.
    + destruct (Re.star_greedy c s k) as [y|] eqn:E; simpl.
      * intros [= ->]. destruct (IH eq_refl) as (s1 & s2 & -> & F & K & X).
        exists (a :: s1), s2. simpl. rewrite Ha. auto.
      * intros H. exists [], (a :: s). repeat split; auto.
        intros a0 s2' [= <- <-] _. now apply (star_greedy_none c).
    + intros H. exists [], (a :: s). repeat split; auto.
      intros a0 s2' [= <- <-] M. congruence.
Qed.

(** The lazy star tries the shorter runs first: what follows has failed
    after every run shorter than the one it keeps. *)
Lemma star_lazy_first c s k x :
  Re.star_lazy c s k = Some x ->
  exists s1 s2, s = s1 ++ s2 /\ forallb (Re.mem c) s1 = true
                /\ k s2 = Some x
                /\ forall p q, s1 = p ++ q -> q <> [] -> k (q ++ s2) = None.
Proof.
  induction s as [|a s IH]; simpl.
  - destruct (k []) eqn:E; [|discriminate]. intros [= ->].
    exists [], []. repeat split; auto.
    intros p q H N. destruct p; destruct q; simpl in H; congruence.
  - destruct (k (a :: s)) eqn:E.
    + intros [= ->]. exists [], (a :: s). repeat split; auto.
      intros p q H N. destruct p; destruct q; simpl in H; congruence.
    + destruct (Re.mem c a) eqn:Ha; [|discriminate]. intros H.
      destruct (IH H) as (s1 & s2 & -> & F & K & X).
      exists (a :: s1), s2. simpl. rewrite Ha. repeat split; auto.
      intros p q Hp N. destruct p as [|b p]; simpl in Hp.
      * subst q. exact E.
      * injection Hp as <- Hp. eapply X; eauto.
Qed.

(** When what follows always succeeds, the greedy star takes the whole
    run of characters of the class. *)
Lemma star_greedy_longest c s k :
  (forall s', k s' <> None) ->
  Re.star_greedy c s k = k (Re.skip_class c s).
Proof.
  intros K. induction s as [|a s IH]; simpl; [reflexivity|].
  destruct (Re.mem c a); [|reflexivity]. rewrite IH.
  destruct (k (Re.skip_class c s)) eqn:E; [reflexivity|]. now apply K in E.
Qed.

End Star.

Lemma firstn_app_length (s1 s2 : str) :
  firstn (length (s1 ++ s2) - length s2) (s1 ++ s2) = s1.
Proof.
  rewrite length_app, Nat.add_sub. rewrite firstn_app, Nat.sub_diag.
  simpl. now rewrite firstn_all, List.app_nil_r.
Qed.

Section Run.

Variable A : Type.

(** What the matcher finds is a match. *)
Lemma run_sound (r : Re.regex) :
  forall (s : str) (cs : Re.caps) (k : str -> Re.caps -> option A) (x : A),
  Re.run r s cs k = Some x ->
  exists s1 s2 cs',
    s = s1 ++ s2 /\ matches r s1 s2 cs cs' /\ k s2 cs' = Some x.
Proof.
  induction r as [|c|g c|c|r1 IH1 r2 IH2|i r IH|]; intros s cs k x; simpl.
  - intros H. exists [], s, cs. repeat split; [constructor|exact H].
  - destruct s as [|a s]; [discriminate|].
    destruct (Re.mem c a) eqn:Ha; [|discriminate]. intros H.
    exists [a], s, cs. repeat split; [now constructor|exact H].
  - intros H.
    assert (G : exists s1 s2, s = s1 ++ s2
                /\ forallb (Re.mem c) s1 = true /\ k s2 cs = Some x).
    { destruct g; [apply star_greedy_sound in H|apply star_lazy_sound in H];
        exact H. }
    destruct G as (s1 & s2 & -> & F & K).
    exists s1, s2, cs. repeat split; [now constructor|exact K].
  - destruct s as [|a s].
    + intros H. exists [], [], cs. repeat split; [constructor|exact H].
    + destruct (Re.mem c a) eqn:Ha.
      * destruct (k s cs) as [y|] eqn:E; simpl.
        -- intros [= ->]. exists [a], s, cs.
           repeat split; [now constructor|exact E].
        -- intros H. exists [], (a :: s), cs.
           repeat split; [constructor|exact H].
      * intros H. exists [], (a :: s), cs.
        repeat split; [constructor|exact H].
  - intros H. destruct (IH1 _ _ _ _ H) as (s1 & s' & cs1 & -> & M1 & H').
    destruct (IH2 _ _ _ _ H') as (s2 & s3 & cs2 & -> & M2 & K).
    exists (s1 ++ s2), s3, cs2. rewrite <- app_assoc.
    repeat split; [econstructor; eauto|exact K].
  - intros H. destruct (IH _ _ _ _ H) as (s1 & s2 & cs1 & -> & M & K).
    rewrite firstn_app_length in K.
    exists s1, s2, ((i, s1) :: cs1). repeat split; [now constructor|exact K].
  - destruct s as [|a [|b s]].
    + intros H. exists [], [], cs. repeat split; [constructor; auto|exact H].
    + destruct (Ascii.eqb a newline) eqn:Ea; [|discriminate].
      apply Ascii.eqb_eq in Ea. subst a. intros H.
      exists [], [newline], cs. repeat split; [constructor; auto|exact H].
    + discriminate.
Qed.

(** A match on which what follows succeeds makes the matcher succeed. *)
Lemma run_complete (r : Re.regex) (s1 s2 : str) (cs cs' : Re.caps) :
  matches r s1 s2 cs cs' ->
  forall (k : str -> Re.caps -> option A),
  k s2 cs' <> None -> Re.run r (s1 ++ s2) cs k <> None.
Proof.
  induction 1 as [s2 cs|c a s2 cs Ha|g c s1 s2 cs F|c a s2 cs Ha|c s2 cs
                 |r1 r2 s1 s2 s3 cs cs1 cs2 M1 IH1 M2 IH2
                 |i r s1 s2 cs cs1 M IH|s2 cs E]; intros k K; simpl.
  - exact K.
  - now rewrite Ha.
  - destruct g; [now apply star_greedy_complete|now apply star_lazy_complete].
  - rewrite Ha. destruct (k s2 cs); simpl; [discriminate|contradiction].
  - destruct s2 as [|b s2]; [exact K|].
    destruct (Re.mem c b); [|exact K].
    destruct (k s2 cs); simpl; [discriminate|exact K].
  - rewrite <- app_assoc. apply IH1. now apply IH2.
  - apply IH. now rewrite firstn_app_length.
  - destruct E as [->| ->]; [exact K|]. simpl. exact K.
Qed.

End Run.

Lemma match_here_sound (r : Re.regex) (s : str) (cs : Re.caps) (s2 : str) :
  Re.match_here r s = Some (cs, s2) ->
  exists s1, s = s1 ++ s2 /\ matches r s1 s2 [] cs.
Proof.
  unfold Re.match_here. intros H.
  destruct (run_sound _ _ _ _ _ _ H) as (s1 & s2' & cs' & -> & M & [= -> ->]).
  eauto.
Qed.

Lemma match_here_complete (r : Re.regex) (s1 s2 : str) (cs : Re.caps) :
  matches r s1 s2 [] cs -> Re.match_here r (s1 ++ s2) <> None.
Proof.
  intros M. unfold Re.match_here. eapply run_complete; eauto. discriminate.
Qed.

(** [search] finds the leftmost place where the pattern matches. *)
Lemma search_from_here (r : Re.regex) (s : str) :
  forall (pre : str) (f : Re.found),
  Re.search_from r pre s = Some f ->
  exists skipped s',
    s = skipped ++ s'
    /\ Re.before f = rev pre ++ skipped
    /\ Re.match_here r s' = Some (Re.groups f, Re.after f)
    /\ forall s1 s2, skipped = s1 ++ s2 -> s2 <> [] ->
         Re.match_here r (s2 ++ s') = None.
Proof.
  induction s as [|a s IH]; intros pre f; simpl.
  - destruct (Re.match_here r []) as [[cs s']|] eqn:E; [|discriminate].
    intros [= <-]. simpl. exists [], []. rewrite !List.app_nil_r.
    repeat split; auto.
    intros s0 s2 H N. destruct s0; destruct s2; simpl in H; congruence.
  - destruct (Re.match_here r (a :: s)) as [[cs s']|] eqn:E.
    + intros [= <-]. simpl. exists [], (a :: s). rewrite !List.app_nil_r.
      repeat split; auto.
      intros s0 s2 H N. destruct s0; destruct s2; simpl in H; congruence.
    + intros H. destruct (IH _ _ H) as (sk & s' & Es & Eb & M & L).
      exists (a :: sk), s'. simpl. repeat split.
      * now rewrite Es.
      * rewrite Eb. simpl. now rewrite <- app_assoc.
      * exact M.
      * intros s1 s2 E12 N. destruct s1 as [|b s1]; simpl in E12.
        -- subst s2. simpl. now rewrite <- Es.
        -- injection E12 as -> E12. eapply L; eauto.
Qed.

Lemma search_from_sound (r : Re.regex) (s : str) :
  forall (pre : str) (f : Re.found),
  Re.search_from r pre s = Some f ->
  exists skipped matched,
    s = skipped ++ matched ++ Re.after f
    /\ Re.before f = rev pre ++ skipped
    /\ matches r matched (Re.after f) [] (Re.groups f)
    /\ forall s1 s2, skipped = s1 ++ s2 -> s2 <> [] ->
         Re.match_here r (s2 ++ matched ++ Re.after f) = None.
Proof.
  intros pre f H.
  destruct (search_from_here _ _ _ _ H) as (sk & s' & -> & B & M & L).
  destruct (match_here_sound _ _ _ _ M) as (m & -> & Mm).
  exists sk, m. auto.
Qed.

Lemma search_from_complete (r : Re.regex) (skipped rest : str) :
  Re.match_here r rest <> None ->
  forall pre, Re.search_from r pre (skipped ++ rest) <> None.
Proof.
  intros H. induction skipped as [|a sk IH]; intros pre; simpl.
  - destruct rest as [|b rest]; simpl;
      destruct (Re.match_here r _) as [[cs s']|]; congruence.
  - destruct (Re.match_here r (a :: sk ++ rest)) as [[cs s']|];
      [discriminate|apply IH].
Qed.

End ReFacts.

(** ** The control pattern *)

Module CtlFacts.

Import ReFacts.

Ltac inv H := inversion H; subst; clear H.

(** Whether a pattern matches does not depend on the groups bound
    before. *)
Lemma matches_any_caps (r : Re.regex) (s1 s2 : str) (cs cs' : Re.caps) :
  matches r s1 s2 cs cs' ->
  forall cs0, exists cs0', matches r s1 s2 cs0 cs0'.
Proof.
  induction 1 as [s2 cs|c a s2 cs Ha|g c s1 s2 cs F|c a s2 cs Ha|c s2 cs
                 |r1 r2 s1 s2 s3 cs cs1 cs2 M1 IH1 M2 IH2
                 |i r s1 s2 cs cs1 M IH|s2 cs E]; intros cs0.
  - eexists. constructor.
  - eexists. now constructor.
  - eexists. now constructor.
  - eexists. now constructor.
  - eexists. apply M_Opt_none.
  - destruct (IH1 cs0) as [c1 N1]. destruct (IH2 c1) as [c2 N2].
    eexists. econstructor; eauto.
  - destruct (IH cs0) as [c1 N1]. eexists. constructor. eauto.
  - eexists. now constructor.
Qed.

(** A match of the pattern from the type on. *)
Lemma re_ctl_type_sound (m after : str) (cs0 cs : Re.caps) :
  matches RE_CTL_type m after cs0 cs ->
  exists ty ws sp rest,
    m = ["("%char] ++ ty ++ [")"%char] ++ ws ++ [":"%char] ++ [sp] ++ rest
    /\ cs = (3, rest) :: (2, ty) :: cs0
    /\ ty <> [] /\ forallb is_lower ty = true
    /\ forallb is_space ws = true /\ is_space sp = true
    /\ forallb is_dot rest = true
    /\ (after = [] \/ after = [newline]).
Proof.
  unfold RE_CTL_type, Re.Plus. intros H.
  repeat match goal with
         | M : matches (Re.Cat _ _) _ _ _ _ |- _ => inv M
         | M : matches (Re.Grp _ _) _ _ _ _ |- _ => inv M
         | M : matches (Re.One _) _ _ _ _ |- _ => inv M
         | M : matches (Re.Star _ _) _ _ _ _ |- _ => inv M
         | M : matches Re.Eol _ _ _ _ |- _ => inv M
         end.
  repeat match goal with
         | E : Re.mem (Re.Lit _) _ = true |- _ =>
             apply Ascii.eqb_eq in E; subst
         end.
  simpl in *. rewrite List.app_nil_r.
  repeat (rewrite <- app_assoc; simpl).
  eexists _, _, _, _. split; [|split; [reflexivity|]].
  { simpl. reflexivity. }
  simpl.
  repeat match goal with
         | E : ?x = true |- context [?x] => rewrite E
         end.
  repeat split; try discriminate; try assumption.
Qed.

Lemma re_ctl_type_complete (ty ws : str) (sp : ascii) (rest after : str)
    (cs0 : Re.caps) :
  ty <> [] -> forallb is_lower ty = true ->
  forallb is_space ws = true -> is_space sp = true ->
  forallb is_dot rest = true ->
  after = [] \/ after = [newline] ->
  exists cs,
    matches RE_CTL_type
      (["("%char] ++ ty ++ [")"%char] ++ ws ++ [":"%char] ++ [sp] ++ rest)
      after cs0 cs.
Proof.
  intros Nt Lt Sw Ssp Dr Ha.
  destruct ty as [|b t]; [congruence|]. simpl in Lt.
  apply andb_true_iff in Lt as [Lb Lt].
  replace (["("%char] ++ (b :: t) ++ [")"%char] ++ ws ++ [":"%char]
           ++ [sp] ++ rest)
    with (["("%char] ++ ([b] ++ t) ++ [")"%char] ++ ws ++ [":"%char]
          ++ [sp] ++ rest ++ [])
    by (now rewrite List.app_nil_r).
  eexists. unfold RE_CTL_type, Re.Plus.
  repeat (eapply M_Cat || eapply M_Grp);
    try (apply M_One; simpl; auto using Ascii.eqb_refl);
    try (apply M_Star; assumption).
  apply M_Eol. exact Ha.
Qed.

(** A control line is matched by [RE_CTL] where its name starts. *)
Lemma re_ctl_complete (line before name mid ty rest after : str) :
  control_line line before name mid ty rest after ->
  exists matched,
    line = before ++ matched ++ after
    /\ Re.match_here RE_CTL (matched ++ after) <> None.
Proof.
  intros (ws & sp & E & Nn & Wn & Dm & Nt & Lt & Sw & Ssp & Dr & Ha).
  destruct name as [|a n]; [congruence|].
  simpl in Wn. apply andb_true_iff in Wn as [Wa Wn].
  destruct (re_ctl_type_complete ty ws sp rest after [(1, [a] ++ n)]
              Nt Lt Sw Ssp Dr Ha) as [cs Mt].
  exists (([a] ++ n) ++ mid ++ ["("%char] ++ ty ++ [")"%char] ++ ws
          ++ [":"%char] ++ [sp] ++ rest).
  split.
  { rewrite E. simpl. repeat (rewrite <- app_assoc; simpl). reflexivity. }
  eapply match_here_complete. unfold RE_CTL, Re.Plus.
  eapply M_Cat; [|eapply M_Cat; [|exact Mt]].
  - apply M_Grp. eapply M_Cat; [now apply M_One|now apply M_Star].
  - now apply M_Star.
Qed.

Lemma control_line_prepend (pre line before name mid ty rest after : str) :
  control_line line before name mid ty rest after ->
  control_line (pre ++ line) (pre ++ before) name mid ty rest after.
Proof.
  intros (ws & sp & E & H). exists ws, sp. split; [|exact H].
  rewrite E. now rewrite <- app_assoc.
Qed.

(** Two ways of cutting a text, the first one earlier than the second *)
Lemma cut_earlier (A : Type) (p1 r1 p2 r2 : list A) :
  p1 ++ r1 = p2 ++ r2 -> length p1 < length p2 ->
  exists s, s <> [] /\ p2 = p1 ++ s /\ r1 = s ++ r2.
Proof.
  revert p2. induction p1 as [|a p1 IH]; intros p2 E L; simpl in *.
  - destruct p2 as [|b p2]; [simpl in L; lia|].
    exists (b :: p2). repeat split; [discriminate|exact E].
  - destruct p2 as [|b p2]; [simpl in L; lia|]. simpl in *.
    injection E as <- E. destruct (IH p2 E ltac:(lia)) as (s & N & -> & ->).
    exists s. auto.
Qed.

(** What the engine does with [RE_CTL] at the head of a text *)
Lemma match_here_ctl (a : ascii) (s : str) :
  Re.match_here RE_CTL (a :: s)
  = if is_word a
    then Re.star_greedy Re.Word s
           (fun s2 =>
              Re.star_lazy Re.Dot s2
                (fun s3 =>
                   Re.run RE_CTL_type s3
                     [(1, firstn (length (a :: s) - length s2) (a :: s))]
                     (fun s' cs => Some (cs, s'))))
    else None.
Proof. reflexivity. Qed.

(** A match of [RE_CTL] at the head of a text reads the text as a control
    line.  The name takes all the word characters there are, and the type
    is the first one that can be read after the name. *)
Lemma re_ctl_here (s : str) (cs : Re.caps) (after : str) :
  Re.match_here RE_CTL s = Some (cs, after) ->
  exists name mid ty rest,
    control_line s [] name mid ty rest after
    /\ cs = [(3, rest); (2, ty); (1, name)]
    /\ length after < length s
    /\ (forall x, s = name ++ x -> word_follows x = false)
    /\ (forall mid' ty' rest' after',
          control_line s [] name mid' ty' rest' after' ->
          length mid <= length mid').
Proof.
  destruct s as [|a s]; [discriminate|]. rewrite match_here_ctl.
  destruct (is_word a) eqn:Wa; [|discriminate]. intros H.
  apply star_greedy_first in H as (s1 & s2 & -> & W1 & K & Ext).
  change (a :: s1 ++ s2) with ((a :: s1) ++ s2) in K.
  rewrite firstn_app_length in K.
  apply star_lazy_first in K as (mid & s3 & -> & Dm & K3 & Min).
  apply run_sound in K3 as (m3 & after' & cs' & -> & M3 & [= -> ->]).
  destruct (re_ctl_type_sound _ _ _ _ M3)
    as (ty & ws & sp & rest & -> & -> & Nt & Lt & Sw & Ssp & Dr & Ha).
  exists (a :: s1), mid, ty, rest.
  assert (C : control_line
                (a :: s1 ++ mid ++
                 (["("%char] ++ ty ++ [")"%char] ++ ws ++ [":"%char]
                  ++ [sp] ++ rest) ++ after)
                [] (a :: s1) mid ty rest after).
  { exists ws, sp. split.
    - simpl. repeat (rewrite <- app_assoc; simpl). reflexivity.
    - simpl. rewrite Wa. repeat split; auto; discriminate. }
  split; [exact C|]. split; [reflexivity|]. split; [|split].
  - cbn [length app]. repeat (rewrite length_app; cbn [length]). lia.
  - intros x Ex. change (a :: s1 ++ ?t) with ((a :: s1) ++ t) in Ex.
    apply app_inv_head in Ex. subst x.
    destruct mid as [|b mid]; [reflexivity|].
    simpl. destruct (is_word b) eqn:Wb; [|reflexivity]. exfalso.
    specialize (Ext b _ eq_refl Wb).
    simpl in Dm. apply andb_true_iff in Dm as [_ Dm].
    destruct (matches_any_caps _ _ _ _ _ M3
                [(1, firstn (length (a :: s1 ++ b :: mid ++ (["("%char] ++ ty ++ [")"%char] ++ ws ++ [":"%char] ++ [sp] ++ rest) ++ after)
                               - length (mid ++ (["("%char] ++ ty ++ [")"%char] ++ ws ++ [":"%char] ++ [sp] ++ rest) ++ after))
                        (a :: s1 ++ b :: mid ++ (["("%char] ++ ty ++ [")"%char] ++ ws ++ [":"%char] ++ [sp] ++ rest) ++ after))])
      as [cs1 M1].
    revert Ext. apply star_lazy_complete; [exact Dm|].
    eapply run_complete; [exact M1|discriminate].
  - intros mid' ty' rest' after' (ws' & sp' & E' & _ & _ & Dm' & Nt' & Lt' & Sw'
                                  & Ssp' & Dr' & Ha').
    destruct (Nat.le_gt_cases (length mid) (length mid')) as [|Lt0];
      [assumption|]. exfalso.
    simpl in E'. injection E' as E'. apply app_inv_head in E'.
    destruct (cut_earlier _ _ _ _ _ (eq_sym E') Lt0) as (q & Nq & Em & Er).
    destruct (re_ctl_type_complete ty' ws' sp' rest' after' [(1, a :: s1)]
                Nt' Lt' Sw' Ssp' Dr' Ha') as [cs1 M1].
    apply (run_complete _ _ _ _ _ _ M1 (fun s' cs => Some (cs, s'))
             ltac:(discriminate)).
    assert (Et : (["("%char] ++ ty' ++ [")"%char] ++ ws' ++ [":"%char]
                  ++ [sp'] ++ rest') ++ after'
                 = q ++ (["("%char] ++ ty ++ [")"%char] ++ ws ++ [":"%char]
                         ++ [sp] ++ rest) ++ after).
    { repeat (rewrite <- app_assoc in Er; simpl in Er).
      repeat (rewrite <- app_assoc; simpl). exact Er. }
    rewrite Et. eapply Min; eauto.
Qed.

(** What [RE_CTL.split] answers on a line where the pattern is found: the
    text before the match, then the three groups.  They read the line as
    a control line at the leftmost place where it can be read so, with the
    longest name and then the first type. *)
Lemma split_control_line (line : str) (f : Re.found) :
  Re.search RE_CTL line = Some f ->
  exists name mid ty rest tl,
    Re.split RE_CTL 3 line = Re.before f :: name :: ty :: rest :: tl
    /\ control_line line (Re.before f) name mid ty rest (Re.after f)
    /\ (forall b' n' m' t' r' a',
          control_line line b' n' m' t' r' a' ->
          length (Re.before f) <= length b')
    /\ (forall x, line = Re.before f ++ name ++ x -> word_follows x = false)
    /\ (forall m' t' r' a',
          control_line line (Re.before f) name m' t' r' a' ->
          length mid <= length m').
Proof.
  intros S. pose proof S as S'. unfold Re.search in S'.
  apply search_from_here in S' as (sk & s' & E & B & M & L). simpl in B.
  destruct (re_ctl_here _ _ _ M)
    as (name & mid & ty & rest & C & G & Ll & Mx & Mn).
  exists name, mid, ty, rest.
  exists (Re.split_fuel (length line) RE_CTL 3 (Re.after f)).
  split; [|split; [|split; [|split]]].
  - unfold Re.split. simpl. rewrite S.
    assert (Lt : Nat.ltb (length (Re.after f)) (length line) = true).
    { apply Nat.ltb_lt. rewrite E, length_app. lia. }
    rewrite Lt, G. reflexivity.
  - rewrite B, E. apply (control_line_prepend sk) in C.
    now rewrite List.app_nil_r in C.
  - intros b' n' m' t' r' a' C'. rewrite B.
    destruct (Nat.le_gt_cases (length sk) (length b')) as [|Lt]; [assumption|].
    exfalso. destruct (re_ctl_complete _ _ _ _ _ _ _ C') as (m0 & E' & Mh).
    rewrite E in E'.
    destruct (cut_earlier _ _ _ _ _ (eq_sym E') Lt) as (s2 & N2 & Es & Er).
    rewrite Er in Mh. apply Mh. eapply L; eauto.
  - intros x Ex. rewrite B, E in Ex. apply app_inv_head in Ex. eauto.
  - intros m' t' r' a' (ws' & sp' & E' & H'). apply (Mn m' t' r' a').
    exists ws', sp'. split; [|exact H'].
    rewrite B, E in E'. apply app_inv_head in E'. exact E'.
Qed.

End CtlFacts.

(** ** The attribute patterns *)

Module AttrFacts.

Import ReFacts.

Lemma matches_Lits (a s1 s2 : str) (cs cs' : Re.caps) :
  matches (Re.Lits a) s1 s2 cs cs' -> s1 = a /\ cs' = cs.
Proof.
  revert s1 s2 cs cs'. induction a as [|x a IH]; intros s1 s2 cs cs' M; simpl in M.
  - inversion M; subst; auto.
  - inversion M as [| | | | |r1 r2 t1 t2 t3 c0 c1 c2 M1 M2| |]; subst; clear M.
    inversion M1; subst; clear M1.
    destruct (IH _ _ _ _ M2) as [-> ->]. simpl in *.
    match goal with E : Ascii.eqb _ _ = true |- _ =>
      apply Ascii.eqb_eq in E; subst end.
    auto.
Qed.

Lemma Lits_matches (a s2 : str) (cs : Re.caps) :
  matches (Re.Lits a) a s2 cs cs.
Proof.
  revert s2. induction a as [|x a IH]; intros s2; simpl; [constructor|].
  change (x :: a) with ([x] ++ a). econstructor; [|apply IH].
  constructor. simpl. apply Ascii.eqb_refl.
Qed.

Lemma skip_class_split (c : Re.cset) (t : str) :
  exists run, t = run ++ Re.skip_class c t
              /\ forallb (Re.mem c) run = true
              /\ match Re.skip_class c t with
                 | b :: _ => Re.mem c b = false
                 | [] => True
                 end.
Proof.
  induction t as [|x t (run & E & F & H)]; simpl.
  - exists []. auto.
  - destruct (Re.mem c x) eqn:Hx.
    + exists (x :: run). simpl. rewrite Hx. rewrite <- E. auto.
    + exists []. simpl. auto.
Qed.

(** The greedy run of word characters that ends a value, when the group
    started [pre] earlier in the text [whole] *)
Lemma greedy_word_run (whole pre t : str) :
  whole = pre ++ t ->
  exists run rest,
    t = run ++ rest
    /\ forallb is_word run = true
    /\ word_follows rest = false
    /\ Re.star_greedy Re.Word t
         (fun s1 => Some ([(1, firstn (length whole - length s1) whole)], s1))
       = Some ([(1, pre ++ run)], rest).
Proof.
  intros ->. destruct (skip_class_split Re.Word t) as (run & E & F & H).
  rewrite star_greedy_longest by discriminate.
  remember (Re.skip_class Re.Word t) as rest eqn:R. clear R.
  exists run, rest. repeat split; auto.
  - destruct rest; [reflexivity|exact H].
  - rewrite E, app_assoc, firstn_app_length. reflexivity.
Qed.

(** A match of an attribute pattern at the head of a text: the name of
    the attribute, the sign [=] and a value that takes all the word
    characters there are. *)
Lemma re_attr_here (a s : str) (cs : Re.caps) (s2 : str) :
  Re.match_here (re_attr a) s = Some (cs, s2) ->
  exists tok,
    s = a ++ ["="%char] ++ tok ++ s2
    /\ value_token tok
    /\ cs = [(1, tok)]
    /\ word_follows s2 = false.
Proof.
  unfold Re.match_here, re_attr. simpl. intros H.
  apply run_sound in H as (s1 & s' & cs' & -> & M & K).
  apply matches_Lits in M as [-> ->].
  destruct s' as [|e s']; [discriminate|].
  destruct (Ascii.eqb e "="%char) eqn:Ee; [|discriminate].
  apply Ascii.eqb_eq in Ee. subst e.
  destruct s' as [|a0 s']; [discriminate|].
  destruct (Ascii.eqb a0 "-"%char) eqn:E0.
  - apply Ascii.eqb_eq in E0. subst a0.
    destruct s' as [|a1 s']; [discriminate|].
    change (is_word "-"%char) with false in K. cbv match in K.
    unfold Re.orelse in K.
    destruct (is_word a1) eqn:W1; [|discriminate].
    destruct (greedy_word_run ("-"%char :: a1 :: s') ["-"%char; a1] s' eq_refl)
      as (run & rest & -> & Wr & Fr & G).
    unfold Re.caps in *. rewrite G in K. injection K as <- <-.
    exists ("-"%char :: a1 :: run). repeat split; auto.
    exists (a1 :: run). simpl. rewrite W1.
    repeat split; [discriminate|exact Wr|now right].
  - destruct (is_word a0) eqn:W0; [|discriminate].
    destruct (greedy_word_run (a0 :: s') [a0] s' eq_refl)
      as (run & rest & -> & Wr & Fr & G).
    unfold Re.caps in *. rewrite G in K. injection K as <- <-.
    exists (a0 :: run). repeat split; auto.
    exists (a0 :: run). simpl. rewrite W0.
    repeat split; [discriminate|exact Wr|now left].
Qed.

Lemma re_attr_complete (a tok after : str) :
  value_token tok ->
  Re.match_here (re_attr a) (a ++ ["="%char] ++ tok ++ after) <> None.
Proof.
  intros (w & Nw & Ww & Et).
  destruct w as [|b w]; [congruence|]. simpl in Ww.
  apply andb_true_iff in Ww as [Wb Ww].
  assert (M : exists sign,
             tok = sign ++ ([b] ++ w)
             /\ forall s2 cs, matches (Re.Opt (Re.Lit "-"%char)) sign s2 cs cs).
  { destruct Et as [->| ->].
    - exists []. split; [reflexivity|]. intros. constructor.
    - exists ["-"%char]. split; [reflexivity|]. intros. now constructor. }
  destruct M as (sign & -> & Ms).
  replace (a ++ ["="%char] ++ (sign ++ [b] ++ w) ++ after)
    with ((a ++ ["="%char] ++ (sign ++ [b] ++ w)) ++ after)
    by (repeat (rewrite <- app_assoc; simpl); reflexivity).
  eapply match_here_complete. unfold re_attr, Re.Plus.
  repeat (eapply M_Cat || eapply M_Grp);
    [apply Lits_matches
    |apply M_One; apply Ascii.eqb_refl
    |apply Ms
    |apply M_One; exact Wb
    |apply M_Star; exact Ww].
Qed.

(** [search] on an attribute pattern: the leftmost place where
    [attr=value] occurs, with the longest value there; nothing when it
    occurs nowhere. *)
Lemma search_attr (a rest : str) :
  match Re.search (re_attr a) rest with
  | Some f =>
      exists tok after,
        Re.group 1 (Re.groups f) = Some tok
        /\ rest = Re.before f ++ a ++ ["="%char] ++ tok ++ after
        /\ value_token tok
        /\ word_follows after = false
        /\ forall b' tok', occurs_at a rest b' tok' ->
             length (Re.before f) <= length b'
  | None => forall b tok, ~ occurs_at a rest b tok
  end.
Proof.
  destruct (Re.search (re_attr a) rest) as [f|] eqn:S.
  - unfold Re.search in S.
    apply search_from_here in S as (sk & s' & E & B & M & L). simpl in B.
    apply re_attr_here in M as (tok & -> & V & G & F).
    exists tok, (Re.after f). rewrite G, B. simpl.
    repeat split; auto. intros b' tok' (after' & E' & V').
    destruct (Nat.le_gt_cases (length sk) (length b')) as [|Lt]; [assumption|].
    exfalso. rewrite E in E'.
    destruct (CtlFacts.cut_earlier _ _ _ _ _ (eq_sym E') Lt)
      as (s2 & N2 & Es & Er).
    apply (re_attr_complete a tok' after' V'). rewrite Er.
    eapply L; eauto.
  - intros b tok (after & E & V).
    apply (search_from_complete (re_attr a) b _
             (re_attr_complete a tok after V) []).
    rewrite <- E. exact S.
Qed.

(** The attributes after the loop over [names]: those that are read
    from the remainder, over what the control had before. *)
Lemma parse_attrs_get (names : list str) (rest : str) :
  NoDup names ->
  forall (c : ctl) (k : str),
  Dict.get (parse_attrs (map (fun a => (a, re_attr a)) names) rest c) k
  = if existsb (eqb_str k) names
    then match attr_read k rest with
         | Some v => Some v
         | None => Dict.get c k
         end
    else Dict.get c k.
Proof.
  induction names as [|a names IH]; intros ND c k; [reflexivity|].
  cbn [map existsb].
  apply NoDup_cons_iff in ND as [Na ND].
  assert (Step : exists c',
    parse_attrs ((a, re_attr a) :: map (fun a => (a, re_attr a)) names) rest c
    = parse_attrs (map (fun a => (a, re_attr a)) names) rest c'
    /\ Dict.get c' a = match attr_read a rest with
                       | Some v => Some v
                       | None => Dict.get c a
                       end
    /\ forall k', k' <> a -> Dict.get c' k' = Dict.get c k').
  { simpl. unfold attr_read.
    destruct (Re.search (re_attr a) rest) as [m|]; [|exists c; auto].
    destruct (Re.group 1 (Re.groups m)) as [tok|]; [|exists c; auto].
    exists (Dict.set c a (attr_value tok)). simpl.
    split; [reflexivity|]. split; [apply get_set_same|].
    intros k' N. now apply get_set_other. }
  destruct Step as (c' & -> & Ga & Go). rewrite (IH ND).
  destruct (eqb_str k a) eqn:E; simpl.
  - apply eqb_str_eq in E. subst k.
    assert (X : existsb (eqb_str a) names = false).
    { destruct (existsb (eqb_str a) names) eqn:X; [|reflexivity].
      apply existsb_exists in X as (x & Hx & Ex).
      apply eqb_str_eq in Ex. subst x. contradiction. }
    rewrite X. exact Ga.
  - apply eqb_str_neq in E. now rewrite (Go _ E).
Qed.

End AttrFacts.

(** ** get_ctls on the lines that are controls *)

Section ControlLines.

Variable World : Type.
Implicit Types (st : state World) (line : str).

Lemma NoDup_ATTRS : NoDup ATTRS.
Proof.
  unfold ATTRS. repeat constructor; simpl; intuition discriminate.
Qed.

Lemma in_ATTRS (a : str) :
  In a ATTRS ->
  existsb (eqb_str a) ATTRS = true
  /\ eqb_str a ("type"%string : str) = false.
Proof.
  unfold ATTRS. simpl.
  intros [<-|[<-|[<-|[<-|[<-|[<-|[]]]]]]]; split; reflexivity.
Qed.

(** On a line that reads as a control line the body of the loop ends
    without an exception and binds one name. *)
Lemma get_ctls_line_ok st line :
  (exists before name mid ty rest after,
     control_line line before name mid ty rest after) ->
  exists name c,
    get_ctls_line line st
    = (Ok tt, with_ctrls st (Dict.set (ctrls st) name c), []).
Proof.
  intros (b0 & n0 & m0 & t0 & r0 & a0 & C0).
  destruct (CtlFacts.re_ctl_complete _ _ _ _ _ _ _ C0) as (mt & E0 & M0).
  destruct (Re.search RE_CTL line) as [f|] eqn:S.
  2:{ exfalso. unfold Re.search in S. rewrite E0 in S.
      exact (ReFacts.search_from_complete RE_CTL b0 _ M0 [] S). }
  destruct (CtlFacts.split_control_line _ _ S)
    as (name & mid & ty & rest & tl & Sp & _).
  exists name. eexists. unfold get_ctls_line. rewrite Sp. reflexivity.
Qed.

(** The body of the loop of [get_ctls], on a line that reads as a
    control line, whatever the lines before it were: it ends without an
    exception and stores a control under the name of the line, read at the
    leftmost place where the line reads as a control line, with all the
    word characters of the name and the first type after it.  The [type] of this control is the word between the
    parentheses and its other keys are among the six attributes.  An
    attribute is a key exactly when [attr=value] occurs in the remainder;
    its value is then read at the leftmost occurrence, with all the word
    characters that follow the sign [=] (and a minus sign before them), as
    an [int] when [int] accepts it and as the [str] otherwise. *)
Theorem get_ctls_line_control st line :
  (exists before name mid ty rest after,
     control_line line before name mid ty rest after) ->
  exists before name mid ty rest after c,
    control_line line before name mid ty rest after
    /\ (forall b' n' m' t' r' a',
          control_line line b' n' m' t' r' a' -> length before <= length b')
    /\ (forall x, line = before ++ name ++ x -> word_follows x = false)
    /\ (forall m' t' r' a',
          control_line line before name m' t' r' a' ->
          length mid <= length m')
    /\ get_ctls_line line st
       = (Ok tt, with_ctrls st (Dict.set (ctrls st) name c), [])
    /\ Dict.get (Dict.set (ctrls st) name c) name = Some c
    /\ Dict.get c ("type"%string : str) = Some (VStr ty)
    /\ (forall k, In k (Dict.keys c) ->
          k = ("type"%string : str) \/ In k ATTRS)
    /\ forall a, In a ATTRS ->
         match Dict.get c a with
         | Some v =>
             exists b tok after',
               rest = b ++ a ++ ["="%char] ++ tok ++ after'
               /\ value_token tok
               /\ word_follows after' = false
               /\ (forall b' tok', occurs_at a rest b' tok' ->
                     length b <= length b')
               /\ v = match Py.int tok with
                      | Some n => VInt n
                      | None => VStr tok
                      end
         | None => forall b tok, ~ occurs_at a rest b tok
         end.
Proof.
  intros (b0 & n0 & m0 & t0 & r0 & a0 & C0).
  destruct (CtlFacts.re_ctl_complete _ _ _ _ _ _ _ C0) as (mt & E0 & M0).
  destruct (Re.search RE_CTL line) as [f|] eqn:S.
  2:{ exfalso. unfold Re.search in S. rewrite E0 in S.
      exact (ReFacts.search_from_complete RE_CTL b0 _ M0 [] S). }
  destruct (CtlFacts.split_control_line _ _ S)
    as (name & mid & ty & rest & tl & Sp & C & L & Mx & Mn).
  set (c := parse_attrs re_attrs rest
              (Dict.set (Dict.empty value) ("type"%string : str) (VStr ty))).
  assert (G : forall k,
    Dict.get c k
    = if existsb (eqb_str k) ATTRS
      then match attr_read k rest with
           | Some v => Some v
           | None => if eqb_str k ("type"%string : str)
                     then Some (VStr ty) else None
           end
      else if eqb_str k ("type"%string : str) then Some (VStr ty) else None).
  { intros k. unfold c, re_attrs.
    rewrite (AttrFacts.parse_attrs_get ATTRS rest NoDup_ATTRS). reflexivity. }
  exists (Re.before f), name, mid, ty, rest, (Re.after f), c.
  split; [exact C|]. split; [exact L|]. split; [exact Mx|].
  split; [exact Mn|]. split; [|split; [|split; [|split]]].
  - unfold get_ctls_line. rewrite Sp. reflexivity.
  - apply get_set_same.
  - rewrite G. reflexivity.
  - intros k Hk. apply in_keys_get in Hk as [v Hv]. rewrite G in Hv.
    destruct (existsb (eqb_str k) ATTRS) eqn:X.
    + right. apply existsb_exists in X as (x & Hx & Ex).
      apply eqb_str_eq in Ex. now subst x.
    + left. destruct (eqb_str k ("type"%string : str)) eqn:Ek;
        [now apply eqb_str_eq in Ek|discriminate].
  - intros a Ha. destruct (in_ATTRS a Ha) as [X T]. rewrite G, X, T.
    unfold attr_read. pose proof (AttrFacts.search_attr a rest) as Sa.
    destruct (Re.search (re_attr a) rest) as [fa|].
    + destruct Sa as (tok & after' & Gr & Er & V & F & La).
      rewrite Gr. simpl. exists (Re.before fa), tok, after'.
      repeat split; auto.
    + exact Sa.
Qed.

(** A listing made of control lines only is read to its end. *)
Lemma get_ctls_lines_ok (l : list str) :
  Forall (fun line => exists before name mid ty rest after,
                        control_line line before name mid ty rest after) l ->
  forall st, outcome (for_each l (@get_ctls_line World) st) = Ok tt.
Proof.
  induction 1 as [|line l H F IH]; intros st; simpl; [reflexivity|].
  destruct (get_ctls_line_ok st line H) as (n & c & E).
  unfold bind, outcome in *. rewrite E.
  specialize (IH (with_ctrls st (Dict.set (ctrls st) n c))).
  destruct (for_each l _ _) as [[r2 st2] ev2]. exact IH.
Qed.

End ControlLines.

Lemma control_line_brightness :
  control_line Demo.line_brightness
    ("                     "%string : str) Demo.brightness
    (" 0x00980900 "%string : str) ("int"%string : str)
    ("min=-64 max=64 step=1 default=0 value=12"%string : str) Demo.NL.
Proof.
  exists ("    "%string : str), " "%char.
  repeat split; try reflexivity; try discriminate. now right.
Qed.

Lemma get_ctls_line_control_witness :
  exists before name mid ty rest after c,
    control_line Demo.line_brightness before name mid ty rest after
    /\ (forall b' n' m' t' r' a',
          control_line Demo.line_brightness b' n' m' t' r' a' ->
          length before <= length b')
    /\ (forall x, Demo.line_brightness = before ++ name ++ x ->
          word_follows x = false)
    /\ (forall m' t' r' a',
          control_line Demo.line_brightness before name m' t' r' a' ->
          length mid <= length m')
    /\ get_ctls_line Demo.line_brightness Demo.st0
       = (Ok tt, with_ctrls Demo.st0 (Dict.set (ctrls Demo.st0) name c), [])
    /\ Dict.get (Dict.set (ctrls Demo.st0) name c) name = Some c
    /\ Dict.get c ("type"%string : str) = Some (VStr ty)
    /\ (forall k, In k (Dict.keys c) ->
          k = ("type"%string : str) \/ In k ATTRS)
    /\ forall a, In a ATTRS ->
         match Dict.get c a with
         | Some v =>
             exists b tok after',
               rest = b ++ a ++ ["="%char] ++ tok ++ after'
               /\ value_token tok
               /\ word_follows after' = false
               /\ (forall b' tok', occurs_at a rest b' tok' ->
                     length b <= length b')
               /\ v = match Py.int tok with
                      | Some n => VInt n
                      | None => VStr tok
                      end
         | None => forall b tok, ~ occurs_at a rest b tok
         end.
Proof.
  apply (get_ctls_line_control unit Demo.st0 Demo.line_brightness).
  eexists _, _, _, _, _, _. exact control_line_brightness.
Defined.

(** The listing of the example is read as the controls of the example. *)
Example get_ctls_listing :
  init (Demo.device_of Demo.listing true) [] tt (Dict.empty str)
  = (Ok tt, Demo.st0, [Exec [ "-l"%string : str ] true]).
Proof. vm_compute. reflexivity. Qed.

(** ** The configuration file: what is saved is what is loaded *)

Module JsonFacts.

Import Json.

Ltac each_ascii a := destruct a as [[] [] [] [] [] [] [] []].

(** *** Strings *)

(** One turn of [scanstring] reads one character as the encoder
    writes it. *)
Lemma scanstring_escape (a : ascii) (fuel : nat) (acc tl : str) :
  scanstring (S fuel) acc (escape a ++ tl) = scanstring fuel (a :: acc) tl.
Proof. each_ascii a; reflexivity. Qed.

Lemma escape_length (a : ascii) : 1 <= length (escape a).
Proof. each_ascii a; vm_compute; lia. Qed.

Lemma scanstring_quoted (s : str) :
  forall (fuel : nat) (acc rest : str),
  length (flat_map escape s) < fuel ->
  scanstring fuel acc (flat_map escape s ++ dquote :: rest)
  = Some (rev acc ++ s, rest).
Proof.
  induction s as [|a s IH]; intros fuel acc rest L; simpl in *.
  - destruct fuel as [|fuel]; [lia|]. simpl. now rewrite List.app_nil_r.
  - rewrite length_app in L. pose proof (escape_length a) as La.
    destruct fuel as [|fuel]; [lia|].
    rewrite <- app_assoc, scanstring_escape, IH by lia.
    simpl. now rewrite <- app_assoc.
Qed.

(** A quoted string is read back, whatever follows it. *)
Lemma scan_quote (s rest : str) (fuel : nat) :
  length (quote s ++ rest) <= fuel ->
  scanstring fuel [] (flat_map escape s ++ dquote :: rest) = Some (s, rest).
Proof.
  intros L. apply scanstring_quoted. unfold quote in L. simpl in L.
  rewrite !length_app in L. simpl in L. lia.
Qed.

(** *** Integers *)

Lemma uint_of_digits_of (u : Decimal.uint) :
  forall b : bool,
  u <> Decimal.Nil \/ b = true -> Py.uint_of b (Py.digits_of u) = Some u.
Proof.
  induction u; intros b H; simpl;
    try (rewrite IHu by (now right); reflexivity).
  destruct H as [H| ->]; [congruence|reflexivity].
Qed.

Lemma digits_of_digits (u : Decimal.uint) :
  forallb is_digit (Py.digits_of u) = true.
Proof. induction u; simpl; auto. Qed.

Lemma span_digits_app (d rest : str) :
  forallb is_digit d = true ->
  match rest with a :: _ => is_digit a = false | [] => True end ->
  span_digits (d ++ rest) = (d, rest).
Proof.
  intros D R. induction d as [|a d IH]; simpl in *.
  - destruct rest as [|a rest]; [reflexivity|]. simpl. now rewrite R.
  - apply andb_true_iff in D as [Da D]. rewrite Da, (IH D). reflexivity.
Qed.

Lemma closes_follow (rest : str) :
  closes rest = true ->
  match rest with a :: _ => is_digit a = false | [] => True end
  /\ starts_fraction rest = false.
Proof.
  destruct rest as [|a rest]; simpl; [auto|].
  each_ascii a; vm_compute; intros H; try discriminate; auto.
Qed.

(** The digits of a positive number start with a digit other than 0. *)
Lemma to_uint_head (p : positive) :
  exists a t, Py.digits_of (Pos.to_uint p) = a :: t
              /\ is_digit a = true /\ (code a =? 48) = false.
Proof.
  pose proof (DecimalPos.Unsigned.to_of (Pos.to_uint p)) as E.
  rewrite DecimalPos.Unsigned.of_to in E. simpl in E.
  pose proof (DecimalPos.Unsigned.to_uint_nonzero p) as NZ.
  pose proof (DecimalFacts.nzhead_nonzero (Pos.to_uint p)) as NH.
  unfold Decimal.unorm in E.
  destruct (Decimal.nzhead (Pos.to_uint p)) eqn:Z;
    try (rewrite E in *; simpl; eexists _, _; repeat split; reflexivity).
  - exfalso. apply NZ. exact E.
  - exfalso. exact (NH _ eq_refl).
Qed.

Lemma scan_digits_positive (p : positive) (rest : str) :
  closes rest = true ->
  scan_digits (Py.digits_of (Pos.to_uint p) ++ rest)
  = Some (Py.digits_of (Pos.to_uint p), rest).
Proof.
  intros C. destruct (closes_follow _ C) as [F _].
  destruct (to_uint_head p) as (a & t & E & Da & Na).
  pose proof (digits_of_digits (Pos.to_uint p)) as D.
  pose proof (span_digits_app _ _ D F) as Sp.
  rewrite E in *. simpl. simpl in Sp. rewrite Na, Da.
  rewrite Da in Sp. now rewrite Sp.
Qed.

Lemma of_uint_to_uint (p : positive) : Z.of_uint (Pos.to_uint p) = Z.pos p.
Proof.
  unfold Z.of_uint. now rewrite DecimalPos.Unsigned.of_to.
Qed.

(** An integer is read back from its decimal writing. *)
Lemma scan_int_str_of_int (n : Z) (rest : str) :
  closes rest = true ->
  scan_int (Py.str_of_int n ++ rest) = Some (n, rest).
Proof.
  intros C. destruct (closes_follow _ C) as [F Fr].
  unfold Py.str_of_int. destruct n as [|p|p]; simpl.
  - unfold scan_int. simpl. rewrite Fr. reflexivity.
  - destruct (to_uint_head p) as (a & t & E & Da & Na).
    unfold scan_int.
    assert (Nm : (code a =? 45) = false).
    { clear - Da. each_ascii a; try discriminate Da; reflexivity. }
    pose proof (scan_digits_positive p rest C) as Sd.
    rewrite E in *. simpl app. cbv iota beta. rewrite Nm.
    change (a :: t ++ rest) with ((a :: t) ++ rest). rewrite Sd, Fr.
    rewrite <- E, uint_of_digits_of, of_uint_to_uint;
      [reflexivity|left; apply DecimalPos.Unsigned.to_uint_nonnil].
  - unfold scan_int. simpl.
    rewrite (scan_digits_positive p rest C), Fr.
    rewrite uint_of_digits_of, of_uint_to_uint;
      [reflexivity|left; apply DecimalPos.Unsigned.to_uint_nonnil].
Qed.

(** *** Objects *)

Lemma encode_obj (ms : list (str * json)) :
  encode (JObj ms) = "{"%char :: members_text ms ++ ["}"%char].
Proof.
  reflexivity.
Qed.

Lemma str_of_int_head (n : Z) :
  exists a t, Py.str_of_int n = a :: t
              /\ is_ws a = false /\ (code a =? 34) = false
              /\ (code a =? 123) = false.
Proof.
  unfold Py.str_of_int. destruct n as [|p|p]; simpl.
  - eexists _, _. repeat split.
  - destruct (to_uint_head p) as (a & t & -> & Da & _).
    exists a, t.
    clear - Da. each_ascii a; try discriminate Da; repeat split.
  - eexists _, _. repeat split.
Qed.

Lemma encode_head (v : json) :
  exists a t, encode v = a :: t /\ is_ws a = false.
Proof.
  destruct v as [n|s|ms].
  - destruct (str_of_int_head n) as (a & t & E & W & _). simpl. eauto.
  - eexists _, _. split; [reflexivity|reflexivity].
  - rewrite encode_obj. eexists _, _. split; reflexivity.
Qed.

Lemma skip_ws_head (s : str) :
  match s with a :: _ => is_ws a = false | [] => True end -> skip_ws s = s.
Proof. destruct s as [|a s]; simpl; [reflexivity|]. now intros ->. Qed.

Lemma skip_ws_encode (v : json) (rest : str) :
  skip_ws (encode v ++ rest) = encode v ++ rest.
Proof.
  destruct (encode_head v) as (a & t & -> & W). simpl. now rewrite W.
Qed.

Lemma reads_back_int (n : Z) : reads_back (JInt n).
Proof.
  intros fuel rest L C. simpl in *.
  destruct (str_of_int_head n) as (a & t & E & W & Q & B).
  pose proof (scan_int_str_of_int n rest C) as S.
  rewrite E in *. destruct fuel as [|fuel]; [simpl in L; lia|].
  cbn [scan_once app]. rewrite Q, B.
  change (a :: t ++ rest) with ((a :: t) ++ rest). now rewrite S.
Qed.

Lemma reads_back_str (s : str) : reads_back (JStr s).
Proof.
  intros fuel rest L C. simpl in *. unfold quote in *.
  destruct fuel as [|fuel]; [simpl in L; lia|].
  cbn [scan_once app]. change (code dquote =? 34) with true. cbv iota.
  rewrite <- app_assoc. change ([dquote] ++ rest) with (dquote :: rest).
  rewrite scanstring_quoted; [reflexivity|].
  cbn [length]. rewrite length_app. lia.
Qed.

Lemma members_text_head (ms : list (str * json)) :
  ms <> [] -> exists t, members_text ms = dquote :: t.
Proof.
  destruct ms as [|[k v] ms]; [congruence|]. intros _.
  cbn [members_text]. unfold quote. simpl. eauto.
Qed.

(** One member, as the encoder writes it: the key, a colon and a space,
    then the value and what follows it. *)
Lemma scan_members_step (fuel : nat) (k tail : str) :
  scan_members (S fuel)
    (flat_map escape k ++ dquote :: ":"%char :: " "%char :: tail)
  = match scan_once fuel (skip_ws tail) with
    | Some (v, s3) =>
        match skip_ws s3 with
        | d :: s4 =>
            if code d =? 125 then Some ([(k, v)], s4)
            else if code d =? 44 then
              match skip_ws s4 with
              | q :: s5 =>
                  if code q =? 34 then
                    match scan_members fuel s5 with
                    | Some (ms, r) => Some ((k, v) :: ms, r)
                    | None => None
                    end
                  else None
              | [] => None
              end
            else None
        | [] => None
        end
    | None => None
    end.
Proof.
  cbn [scan_members].
  rewrite scanstring_quoted by (rewrite length_app; cbn [length]; lia).
  reflexivity.
Qed.

Lemma scan_members_text (ms : list (str * json)) :
  ms <> [] ->
  Forall (fun kv => reads_back (snd kv)) ms ->
  forall (fuel : nat) (rest : str),
  length (members_text ms) <= fuel ->
  scan_members fuel (tl (members_text ms ++ "}"%char :: rest))
  = Some (ms, rest).
Proof.
  induction ms as [|[k v] ms IH]; [congruence|].
  intros _ F fuel rest L. inversion F as [|kv l Rv Rms]; subst.
  cbn [snd] in Rv.
  set (more := match ms with
               | [] => []
               | _ :: _ => (", "%string : str) ++ members_text ms
               end).
  assert (ET : tl (members_text ((k, v) :: ms) ++ "}"%char :: rest)
               = flat_map escape k ++ dquote :: ":"%char :: " "%char
                 :: (encode v ++ more ++ "}"%char :: rest)).
  { cbn [members_text]. unfold quote. fold more. cbn [app tl].
    rewrite <- !app_assoc. reflexivity. }
  assert (Lk : length (flat_map escape k) + 4 + length (encode v)
               + length more <= fuel).
  { assert (EM : members_text ((k, v) :: ms)
                 = dquote :: flat_map escape k ++ dquote :: ":"%char
                   :: " "%char :: encode v ++ more).
    { cbn [members_text]. unfold quote. fold more. cbn [app].
      rewrite <- !app_assoc. reflexivity. }
    rewrite EM in L. cbn [length] in L. rewrite length_app in L.
    cbn [length] in L. rewrite length_app in L. lia. }
  clear L. destruct fuel as [|fuel]; [lia|].
  rewrite ET, scan_members_step, skip_ws_encode.
  assert (Cm : closes (more ++ "}"%char :: rest) = true).
  { unfold more. destruct ms; reflexivity. }
  assert (Lv : length (encode v) <= fuel) by lia.
  rewrite (Rv fuel _ Lv Cm).
  unfold more in *. destruct ms as [|kv' ms'].
  - reflexivity.
  - destruct (members_text_head (kv' :: ms') ltac:(discriminate)) as [t Et].
    assert (IH' := IH ltac:(discriminate) Rms fuel rest).
    rewrite Et in *. simpl in Lk.
    assert (Lt : length (dquote :: t) <= fuel) by (simpl; lia).
    specialize (IH' Lt).
    cbn [tl app] in IH'.
    change (skip_ws (((", "%string : str) ++ dquote :: t) ++ "}"%char :: rest))
      with (","%char :: " "%char :: dquote :: t ++ "}"%char :: rest).
    cbv iota.
    change (code ","%char =? 125) with false.
    change (code ","%char =? 44) with true. cbv iota.
    change (skip_ws (" "%char :: dquote :: t ++ "}"%char :: rest))
      with (dquote :: t ++ "}"%char :: rest).
    cbv iota. change (code dquote =? 34) with true. cbv iota.
    rewrite IH'. reflexivity.
Qed.

Lemma reads_back_obj (ms : list (str * json)) :
  Forall (fun kv => reads_back (snd kv)) ms -> reads_back (JObj ms).
Proof.
  intros F fuel rest L C. rewrite encode_obj in *.
  cbn [length] in L. rewrite length_app in L. cbn [length] in L.
  destruct fuel as [|fuel]; [lia|].
  destruct ms as [|kv ms]; [reflexivity|].
  destruct (members_text_head (kv :: ms) ltac:(discriminate)) as [t Et].
  pose proof (scan_members_text (kv :: ms) ltac:(discriminate) F fuel rest
                ltac:(lia)) as S.
  rewrite Et in *. cbn [tl app] in S.
  change (("{"%char :: (dquote :: t) ++ ["}"%char]) ++ rest)
    with ("{"%char :: dquote :: (t ++ ["}"%char]) ++ rest).
  rewrite <- app_assoc. change (["}"%char] ++ rest) with ("}"%char :: rest).
  cbn [scan_once].
  change (code "{"%char =? 34) with false.
  change (code "{"%char =? 123) with true. cbv iota.
  change (skip_ws (dquote :: t ++ "}"%char :: rest))
    with (dquote :: t ++ "}"%char :: rest).
  cbv iota. change (code dquote =? 125) with false.
  change (code dquote =? 34) with true. cbv iota.
  rewrite S. reflexivity.
Qed.

(** The decoder reads back the text of a value. *)
Lemma decode_encode (v : json) : reads_back v -> decode (encode v) = Some v.
Proof.
  intros R. unfold decode.
  rewrite <- (List.app_nil_r (encode v)) at 2. rewrite skip_ws_encode.
  rewrite (R (S (length (encode v))) [] ltac:(lia) eq_refl). reflexivity.
Qed.

(** *** Control mappings *)

Lemma reads_back_ctl (c : ctl) : reads_back (of_ctl c).
Proof.
  apply reads_back_obj. apply Forall_forall. intros [k j] H.
  apply in_map_iff in H as ([k' v] & [= <- <-] & _). simpl.
  destruct v; [apply reads_back_int|apply reads_back_str].
Qed.

Lemma reads_back_ctrls (cs : Dict.t ctl) : reads_back (of_ctrls cs).
Proof.
  apply reads_back_obj. apply Forall_forall. intros [k j] H.
  apply in_map_iff in H as ([k' c] & [= <- <-] & _). simpl.
  apply reads_back_ctl.
Qed.

Lemma decode_dumps (cs : Dict.t ctl) :
  decode (dumps cs) = Some (of_ctrls cs).
Proof. apply decode_encode, reads_back_ctrls. Qed.

Lemma set_fresh (V : Type) (d : Dict.t V) (k : str) (v : V) :
  ~ In k (Dict.keys d) -> Dict.set d k v = d ++ [(k, v)].
Proof.
  induction d as [|[k' v'] d IH]; simpl; intros N; [reflexivity|].
  destruct (eqb_str k k') eqn:E.
  - apply eqb_str_eq in E. subst. tauto.
  - rewrite IH; [reflexivity|tauto].
Qed.

Lemma fold_set_fresh (V : Type) (l : list (str * V)) :
  forall acc : Dict.t V,
  NoDup (Dict.keys (acc ++ l)) ->
  fold_left (fun d kv => Dict.set d (fst kv) (snd kv)) l acc = acc ++ l.
Proof.
  induction l as [|[k v] l IH]; intros acc ND; simpl.
  - now rewrite List.app_nil_r.
  - rewrite set_fresh.
    + rewrite IH; rewrite <- app_assoc; [reflexivity|exact ND].
    + unfold Dict.keys in ND. rewrite map_app in ND. simpl in ND.
      apply NoDup_remove_2 in ND. intros I. apply ND.
      apply in_or_app. now left.
Qed.

(** [dict(pairs)] of the pairs of a [dict] is this [dict]. *)
Lemma of_pairs_wf (V : Type) (d : Dict.t V) :
  wf_dict d -> Dict.of_pairs d = d.
Proof. intros W. unfold Dict.of_pairs. now rewrite fold_set_fresh. Qed.

Lemma to_ctl_of_ctl (c : ctl) : wf_dict c -> to_ctl (of_ctl c) = Some c.
Proof.
  intros W. unfold to_ctl, of_ctl.
  assert (E : Py.all_some
                (map (fun kv : str * json =>
                        option_map (pair (fst kv)) (to_value (snd kv)))
                   (map (fun kv : str * value =>
                           (fst kv, of_value (snd kv))) c)) = Some c).
  { clear W. induction c as [|[k v] c IH]; [reflexivity|].
    cbn [map fst snd]. destruct v; simpl; rewrite IH; reflexivity. }
  rewrite E. simpl. now rewrite of_pairs_wf.
Qed.

Lemma to_ctrls_of_ctrls (cs : Dict.t ctl) :
  wf_ctrls cs -> to_ctrls (of_ctrls cs) = Some cs.
Proof.
  intros [W F]. unfold to_ctrls, of_ctrls.
  assert (E : Py.all_some
                (map (fun kv : str * json =>
                        option_map (pair (fst kv)) (to_ctl (snd kv)))
                   (map (fun kv : str * ctl => (fst kv, of_ctl (snd kv))) cs))
              = Some cs).
  { clear W. induction cs as [|[k c] cs IH]; [reflexivity|].
    inversion F as [|kc l Wc Fl]; subst. cbn [map fst snd].
    rewrite (to_ctl_of_ctl c Wc). simpl. rewrite (IH Fl). reflexivity. }
  rewrite E. simpl. now rewrite of_pairs_wf.
Qed.

(** What [json.load] reads from what [json.dump] wrote is the mapping
    that was written. *)
Lemma loads_dumps (cs : Dict.t ctl) :
  wf_ctrls cs -> loads (dumps cs) = Some cs.
Proof.
  intros W. unfold loads. rewrite decode_dumps. now apply to_ctrls_of_ctrls.
Qed.

End JsonFacts.

(** ** The save and load actions *)

Section ActionFacts.

Variable World : Type.
Variable v4l2_ctl : list str -> World -> option str * World.
Implicit Types (st : state World) (file_name : str).

Lemma for_each_keeps (A : Type) (P : state World -> Prop)
    (body : A -> M World unit) (l : list A) :
  (forall a st, P st -> P (final (body a st))) ->
  forall st, P st -> P (final (for_each l body st)).
Proof.
  intros Hb. induction l as [|a l IH]; intros st H; simpl; [exact H|].
  unfold bind, final in *. specialize (Hb a st H).
  destruct (body a st) as [[[[]|e] st1] ev1]; simpl in *; [|exact Hb].
  specialize (IH st1 Hb). destruct (for_each l body st1) as [[r2 st2] ev2].
  exact IH.
Qed.

Lemma get_ctls_line_files (line : str) st :
  files (final (get_ctls_line line st)) = files st.
Proof.
  unfold get_ctls_line, final.
  destruct (Re.split RE_CTL 3 line) as [|m0 m]; [reflexivity|].
  generalize (m0 :: m). intros mm.
  unfold bind, of_option, get_state, set_ctrls, ret, raise.
  destruct (nth_error mm 1); [|reflexivity].
  destruct (nth_error mm 2); [|reflexivity].
  destruct (nth_error mm 3); reflexivity.
Qed.

(** Listing the controls leaves the files as they are. *)
Lemma get_ctls_files st : files (final (get_ctls v4l2_ctl st)) = files st.
Proof.
  unfold get_ctls, bind, set_ctrls, get_state, cmd, final. simpl.
  destruct (v4l2_ctl _ (world st)) as [[out|] w]; simpl; [|reflexivity].
  pose proof (for_each_keeps _ (fun s => files s = files st)
                (@get_ctls_line World) (lines out)
                (fun a s H => eq_trans (get_ctls_line_files a s) H)
                (with_world (with_ctrls st (Dict.empty ctl)) w) eq_refl) as E.
  unfold final in E.
  destruct (for_each _ _ _) as [[r st'] ev]. exact E.
Qed.

Lemma conf_name_not_empty file_name :
  file_name <> [] -> conf_name file_name <> [].
Proof.
  unfold conf_name. destruct (Py.endswith file_name suffix); [auto|].
  destruct file_name; [congruence|discriminate].
Qed.

(** C8. The save action writes the cached controls in the file of the
    chosen name; the mapping that the load action then reads from this
    file, assigns to [ctrls] and hands over to [update] is equal to the
    mapping that was saved.  (After [update], the load action ends with
    [sync], which lists the controls of the device again.) *)
Theorem save_then_load st file_name :
  wf_ctrls (ctrls st) ->
  file_name <> [] ->
  let saved := final (action_Slot v4l2_ctl ("save"%string : str) file_name st) in
  Dict.get (files saved) (conf_name file_name) = Some (Json.dumps (ctrls st))
  /\ Json.loads (Json.dumps (ctrls st)) = Some (ctrls st)
  /\ load_conf (conf_name file_name) saved
     = (Ok tt, with_ctrls saved (ctrls st), [])
  /\ action_Slot v4l2_ctl ("load"%string : str) (conf_name file_name) saved
     = bind (update v4l2_ctl false) (fun _ => sync v4l2_ctl)
         (with_ctrls saved (ctrls st)).
Proof.
  intros W N saved.
  assert (Fs : Dict.get (files saved) (conf_name file_name)
               = Some (Json.dumps (ctrls st))).
  { unfold saved, action_Slot. simpl.
    destruct file_name as [|a fn]; [congruence|].
    unfold bind at 1. unfold save_conf, bind, get_state, set_files. simpl.
    unfold sync.
    pose proof (get_ctls_files
                  (with_files st
                     (Dict.set (files st) (conf_name (a :: fn))
                        (Json.dumps (ctrls st))))) as E.
    unfold final in *.
    destruct (get_ctls v4l2_ctl _) as [[r st'] ev]. simpl in *.
    rewrite E. apply get_set_same. }
  assert (Ld : load_conf (conf_name file_name) saved
               = (Ok tt, with_ctrls saved (ctrls st), [])).
  { unfold load_conf, bind, get_state, of_option, set_ctrls, ret.
    rewrite Fs, (JsonFacts.loads_dumps _ W). reflexivity. }
  split; [exact Fs|]. split; [now apply JsonFacts.loads_dumps|].
  split; [exact Ld|].
  unfold action_Slot. simpl.
  pose proof (conf_name_not_empty file_name N) as Nc.
  destruct (conf_name file_name) as [|a fn] eqn:Ec; [congruence|].
  unfold bind at 1 2. rewrite Ld. unfold bind.
  destruct (update v4l2_ctl false (with_ctrls saved (ctrls st)))
    as [[[[]|e] st1] ev1]; simpl; [|reflexivity].
  destruct (sync v4l2_ctl st1) as [[r2 st2] ev2]. reflexivity.
Qed.

End ActionFacts.

Lemma cached_wf : wf_ctrls Demo.cached.
Proof.
  split.
  - unfold wf_dict. vm_compute.
    repeat constructor; simpl; intuition discriminate.
  - unfold Demo.cached. repeat constructor; unfold wf_dict; vm_compute;
      repeat constructor; simpl; intuition discriminate.
Qed.

Lemma save_then_load_witness :
  let saved := final (action_Slot (Demo.device_of Demo.listing true)
                        ("save"%string : str) ("cam"%string : str) Demo.st0) in
  Dict.get (files saved) (conf_name ("cam"%string : str))
  = Some (Json.dumps (ctrls Demo.st0))
  /\ Json.loads (Json.dumps (ctrls Demo.st0)) = Some (ctrls Demo.st0)
  /\ load_conf (conf_name ("cam"%string : str)) saved
     = (Ok tt, with_ctrls saved (ctrls Demo.st0), [])
  /\ action_Slot (Demo.device_of Demo.listing true) ("load"%string : str)
       (conf_name ("cam"%string : str)) saved
     = bind (update (Demo.device_of Demo.listing true) false)
         (fun _ => sync (Demo.device_of Demo.listing true))
         (with_ctrls saved (ctrls Demo.st0)).
Proof.
  apply (save_then_load unit (Demo.device_of Demo.listing true) Demo.st0
           ("cam"%string : str)).
  - exact cached_wf.
  - discriminate.
Defined.

(** The file of the example, as the save action writes it *)
Example dumps_brightness :
  Json.dumps [(Demo.brightness, Demo.ctl_brightness)]
  = (String.list_ascii_of_string "{"
     ++ [Json.dquote] ++ ("brightness"%string : str) ++ [Json.dquote]
     ++ (": {"%string : str)
     ++ [Json.dquote] ++ ("type"%string : str) ++ [Json.dquote]
     ++ (": "%string : str)
     ++ [Json.dquote] ++ ("int"%string : str) ++ [Json.dquote]
     ++ (", "%string : str)
     ++ [Json.dquote] ++ ("min"%string : str) ++ [Json.dquote]
     ++ (": -64, "%string : str)
     ++ [Json.dquote] ++ ("max"%string : str) ++ [Json.dquote]
     ++ (": 64, "%string : str)
     ++ [Json.dquote] ++ ("step"%string : str) ++ [Json.dquote]
     ++ (": 1, "%string : str)
     ++ [Json.dquote] ++ ("default"%string : str) ++ [Json.dquote]
     ++ (": 0, "%string : str)
     ++ [Json.dquote] ++ ("value"%string : str) ++ [Json.dquote]
     ++ (": 12}}"%string : str)).
Proof. vm_compute. reflexivity. Qed.
(** * Further properties of the code *)

(** ** setValue, getValue and the slider *)

Section MoreValueFacts.

Variable World : Type.
Variable v4l2_ctl : list str -> World -> option str * World.
Implicit Types (st : state World) (name : str) (val : value) (c : ctl).

Lemma eqb_value_eq (v w : value) : eqb_value v w = true <-> v = w.
Proof.
  destruct v as [n|s], w as [m|t]; simpl; split; try discriminate.
  - intros H. apply Z.eqb_eq in H. now subst.
  - intros [= ->]. apply Z.eqb_refl.
  - intros H. apply eqb_str_eq in H. now subst.
  - intros [= ->]. apply eqb_str_refl.
Qed.

(** The test of [setValue] holds exactly for the flags ["inactive"]. *)
Lemma is_inactive_flags c :
  is_inactive c = true
  <-> Dict.get c ("flags"%string : str) = Some (VStr ("inactive"%string : str)).
Proof.
  unfold is_inactive, flags_of. rewrite eqb_value_eq.
  destruct (Dict.get c ("flags"%string : str)) as [f|].
  - split; congruence.
  - split; discriminate.
Qed.

Lemma not_inactive_flags c :
  Dict.get c ("flags"%string : str) <> Some (VStr ("inactive"%string : str)) ->
  eqb_value (flags_of c) (VStr ("inactive"%string : str)) = false.
Proof.
  intros H. apply not_true_is_false. intros E. apply H.
  now apply is_inactive_flags.
Qed.

(** [setValue] for a name that is not cached: the subscript in
    [self.ctrls[name]] stands before the [try], so KeyError leaves
    [setValue]; no command was run and the state is as before. *)
Theorem setValue_unknown_raises st name val :
  Dict.get (ctrls st) name = None ->
  setValue v4l2_ctl name val st
  = (Raise (KeyError name), st, [SetValue name val]).
Proof. intros H. unfold setValue. mred. rewrite H. reflexivity. Qed.

(** [setValue] on a cached control that is not inactive, when the
    command succeeds: it returns [True] after this one invocation, the
    cached value of the control is [val] as it was given, and nothing else
    changes in the cached controls: the names and their order, the other
    controls, the other attributes of this one. *)
Theorem setValue_accepted st name val c out w :
  Dict.get (ctrls st) name = Some c ->
  Dict.get c ("flags"%string : str) <> Some (VStr ("inactive"%string : str)) ->
  v4l2_ctl (set_ctrl_argv (device st) name val) (world st) = (Some out, w) ->
  outcome (setValue v4l2_ctl name val st) = Ok true
  /\ events (setValue v4l2_ctl name val st)
     = [SetValue name val; Exec (set_ctrl_argv (device st) name val) true]
  /\ Dict.keys (ctrls (final (setValue v4l2_ctl name val st)))
     = Dict.keys (ctrls st)
  /\ (forall n, n <> name ->
        Dict.get (ctrls (final (setValue v4l2_ctl name val st))) n
        = Dict.get (ctrls st) n)
  /\ exists c',
       Dict.get (ctrls (final (setValue v4l2_ctl name val st))) name = Some c'
       /\ Dict.get c' ("value"%string : str) = Some val
       /\ forall k, k <> ("value"%string : str) -> Dict.get c' k = Dict.get c k.
Proof.
  intros Hc Hf E.
  pose proof (setValue_active World v4l2_ctl st name val c Hc
                (not_inactive_flags c Hf)) as A.
  cbv zeta in A. rewrite E in A. rewrite A. unfold outcome, events, final.
  simpl. split; [reflexivity|]. split; [reflexivity|].
  split; [now apply keys_set_bound with (v0 := c)|].
  split; [intros n Hn; now apply get_set_other|].
  exists (Dict.set c ("value"%string : str) val).
  split; [apply get_set_same|]. split; [apply get_set_same|].
  intros k Hk. now apply get_set_other.
Qed.

(** [getValue] for a name that is not cached: whatever the command
    answers, the subscript [self.ctrls[name]] fails inside the [try], so
    the message is printed and 0 is returned; the cached controls are as
    before. *)
Theorem getValue_unknown_control st name :
  Dict.get (ctrls st) name = None ->
  exists ok,
    getValue v4l2_ctl name st
    = (Ok 0%Z,
       with_world st
         (snd (v4l2_ctl (get_ctrl_argv (device st) name) (world st))),
       [Exec (get_ctrl_argv (device st) name) ok; Print msg_read]).
Proof.
  intros H. unfold getValue. mred.
  destruct (v4l2_ctl _ (world st)) as [[out|] w]; simpl; [|eauto].
  exists true.
  destruct (all_some_digits _ (digit_tokens_digits out)) as (ns & -> & _).
  simpl. destruct ns as [|v0 ns]; simpl; [reflexivity|].
  rewrite H. reflexivity.
Qed.

Lemma is_word_not_space (a : ascii) : is_word a = true -> is_space a = false.
Proof. each_ascii a; vm_compute; intros H; try discriminate; reflexivity. Qed.

Lemma split_ws_from_run (w cur rest : str) :
  forallb (fun a => negb (is_space a)) w = true ->
  Py.split_ws_from cur (w ++ rest) = Py.split_ws_from (rev w ++ cur) rest.
Proof.
  revert cur. induction w as [|a w IH]; intros cur H; simpl; [reflexivity|].
  simpl in H. apply andb_true_iff in H as [Ha Hw].
  apply negb_true_iff in Ha. rewrite Ha, (IH _ Hw), <- app_assoc.
  reflexivity.
Qed.

(** The tokens of the answer [name: -digits] of the get-control command:
    none is made of digits only. *)
Lemma digit_tokens_negative (name : str) (n : Z) :
  forallb is_word name = true -> (n < 0)%Z ->
  digit_tokens (name ++ (": "%string : str) ++ Py.str_of_int n ++ [newline])
  = [].
Proof.
  intros Hn Hneg. destruct n as [|p|p]; try lia.
  unfold Py.str_of_int. simpl Z.to_int. cbv iota.
  set (ds := Py.digits_of (Pos.to_uint p)).
  assert (Hd : forallb (fun a => negb (is_space a)) ("-"%char :: ds) = true).
  { simpl. apply forallb_forall. intros a Ha. apply negb_true_iff.
    apply is_digit_not_space.
    exact (proj1 (forallb_forall _ _)
             (JsonFacts.digits_of_digits (Pos.to_uint p)) a Ha). }
  assert (Hw : forallb (fun a => negb (is_space a)) (name ++ [":"%char])
               = true).
  { rewrite forallb_app. apply andb_true_iff. split; [|reflexivity].
    apply forallb_forall. intros a Ha. apply negb_true_iff.
    apply is_word_not_space.
    exact (proj1 (forallb_forall _ _) Hn a Ha). }
  unfold digit_tokens, Py.split_ws.
  change (name ++ (": "%string : str) ++ ("-"%char :: ds) ++ [newline])
    with (name ++ [":"%char] ++ " "%char :: ("-"%char :: ds) ++ [newline]).
  rewrite app_assoc, (split_ws_from_run _ [] _ Hw), List.app_nil_r.
  assert (R : exists a t, rev (name ++ [":"%char]) = a :: t).
  { rewrite rev_app_distr. simpl. eauto. }
  destruct R as (a & t & R).
  cbn [Py.split_ws_from]. change (is_space " "%char) with true. cbv iota.
  rewrite R, <- R, rev_involutive.
  rewrite (split_ws_from_run _ [] _ Hd), List.app_nil_r.
  cbn [Py.split_ws_from]. change (is_space newline) with true. cbv iota.
  assert (R2 : exists a2 t2, rev ("-"%char :: ds) = a2 :: t2).
  { destruct (rev ("-"%char :: ds)) as [|a2 t2] eqn:E; [|eauto].
    apply (f_equal (@rev ascii)) in E. rewrite rev_involutive in E.
    discriminate. }
  destruct R2 as (a2 & t2 & R2). rewrite R2, <- R2, rev_involutive.
  cbn [filter].
  assert (I1 : Py.isdigit (name ++ [":"%char]) = false).
  { unfold Py.isdigit. destruct (name ++ [":"%char]) as [|x y] eqn:E;
      [reflexivity|]. rewrite <- E, forallb_app. simpl.
    apply andb_false_r. }
  rewrite I1. reflexivity.
Qed.

(** A negative value cannot be read: on the answer [name: -digits] of
    the get-control command, [getValue] finds no token made of digits,
    prints its message and returns 0; the cached controls are as before. *)
Theorem getValue_negative st name (n : Z) w :
  forallb is_word name = true ->
  (n < 0)%Z ->
  v4l2_ctl (get_ctrl_argv (device st) name) (world st)
  = (Some (name ++ (": "%string : str) ++ Py.str_of_int n ++ [newline]), w) ->
  getValue v4l2_ctl name st
  = (Ok 0%Z, with_world st w,
     [Exec (get_ctrl_argv (device st) name) true; Print msg_read]).
Proof.
  intros Hn Hneg E. unfold getValue. mred. rewrite E. simpl.
  change (name ++ ":"%char :: " "%char :: Py.str_of_int n ++ [newline])
    with (name ++ (": "%string : str) ++ Py.str_of_int n ++ [newline]).
  rewrite (digit_tokens_negative name n Hn Hneg). reflexivity.
Qed.

(** A slider moved on a control that is not inactive, when the device
    takes the value: one invocation, the value is cached, and the controls
    are not listed again. *)
Theorem sl_Change_accepted st name (val : Z) c out w :
  Dict.get (ctrls st) name = Some c ->
  Dict.get c ("flags"%string : str) <> Some (VStr ("inactive"%string : str)) ->
  v4l2_ctl (set_ctrl_argv (device st) name (VInt val)) (world st)
  = (Some out, w) ->
  sl_Change v4l2_ctl val name st
  = (Ok tt,
     with_ctrls (with_world st w)
       (Dict.set (ctrls st) name
          (Dict.set c ("value"%string : str) (VInt val))),
     [SetValue name (VInt val);
      Exec (set_ctrl_argv (device st) name (VInt val)) true]).
Proof.
  intros Hc Hf E.
  pose proof (setValue_active World v4l2_ctl st name (VInt val) c Hc
                (not_inactive_flags c Hf)) as A.
  cbv zeta in A. rewrite E in A. unfold sl_Change, bind. rewrite A.
  reflexivity.
Qed.


End MoreValueFacts.

Lemma setValue_unknown_raises_witness :
  setValue (Demo.device_of Demo.listing true) ("zoom"%string : str) (VInt 1)
    Demo.st0
  = (Raise (KeyError ("zoom"%string : str)), Demo.st0,
     [SetValue ("zoom"%string : str) (VInt 1)]).
Proof.
  apply (setValue_unknown_raises unit (Demo.device_of Demo.listing true)
           Demo.st0 ("zoom"%string : str) (VInt 1)).
  reflexivity.
Defined.

Lemma setValue_accepted_witness :
  let run := setValue (Demo.device_of Demo.listing true) Demo.brightness
               (VInt 20) Demo.st0 in
  outcome run = Ok true
  /\ events run
     = [SetValue Demo.brightness (VInt 20);
        Exec (set_ctrl_argv (device Demo.st0) Demo.brightness (VInt 20)) true]
  /\ Dict.keys (ctrls (final run)) = Dict.keys (ctrls Demo.st0)
  /\ (forall n, n <> Demo.brightness ->
        Dict.get (ctrls (final run)) n = Dict.get (ctrls Demo.st0) n)
  /\ exists c',
       Dict.get (ctrls (final run)) Demo.brightness = Some c'
       /\ Dict.get c' ("value"%string : str) = Some (VInt 20)
       /\ forall k, k <> ("value"%string : str) ->
            Dict.get c' k = Dict.get Demo.ctl_brightness k.
Proof.
  apply (setValue_accepted unit (Demo.device_of Demo.listing true) Demo.st0
           Demo.brightness (VInt 20) Demo.ctl_brightness [] tt).
  - reflexivity.
  - discriminate.
  - reflexivity.
Defined.

Lemma getValue_unknown_control_witness :
  exists ok,
    getValue (Demo.device_of Demo.listing true) ("zoom"%string : str) Demo.st0
    = (Ok 0%Z, Demo.st0,
       [Exec [ "--get-ctrl"%string : str; "zoom"%string : str ] ok;
        Print msg_read]).
Proof.
  apply (getValue_unknown_control unit (Demo.device_of Demo.listing true)
           Demo.st0 ("zoom"%string : str)).
  reflexivity.
Defined.

Lemma getValue_negative_witness :
  getValue (Demo.device_at (-5)) Demo.brightness Demo.st0
  = (Ok 0%Z, Demo.st0,
     [Exec [ "--get-ctrl"%string : str; Demo.brightness ] true;
      Print msg_read]).
Proof.
  apply (getValue_negative unit (Demo.device_at (-5)) Demo.st0
           Demo.brightness (-5) tt).
  - reflexivity.
  - lia.
  - reflexivity.
Defined.

Lemma sl_Change_accepted_witness :
  sl_Change (Demo.device_of Demo.listing true) 20 Demo.brightness Demo.st0
  = (Ok tt,
     with_ctrls Demo.st0
       (Dict.set (ctrls Demo.st0) Demo.brightness
          (Dict.set Demo.ctl_brightness ("value"%string : str) (VInt 20))),
     [SetValue Demo.brightness (VInt 20);
      Exec [ "--set-ctrl"%string : str; "brightness=20"%string : str ] true]).
Proof.
  apply (sl_Change_accepted unit (Demo.device_of Demo.listing true) Demo.st0
           Demo.brightness 20 Demo.ctl_brightness [] tt).
  - reflexivity.
  - discriminate.
  - reflexivity.
Defined.


(** ** get_ctls on a whole listing *)

Section MoreListingFacts.

Variable World : Type.
Variable v4l2_ctl : list str -> World -> option str * World.
Implicit Types (st : state World) (line name : str).

Lemma in_keys_set (V : Type) (d : Dict.t V) (k x : str) (v : V) :
  In x (Dict.keys (Dict.set d k v)) <-> x = k \/ In x (Dict.keys d).
Proof.
  induction d as [|[k' v'] d IH]; simpl.
  - intuition congruence.
  - destruct (eqb_str k k') eqn:E; simpl.
    + apply eqb_str_eq in E. subst k'. intuition congruence.
    + rewrite IH. intuition congruence.
Qed.

Lemma set_wf (V : Type) (d : Dict.t V) (k : str) (v : V) :
  wf_dict d -> wf_dict (Dict.set d k v).
Proof.
  unfold wf_dict. intros W. destruct (Dict.get d k) as [v0|] eqn:G.
  - now rewrite (keys_set_bound _ d k v v0 G).
  - rewrite JsonFacts.set_fresh.
    + unfold Dict.keys. rewrite map_app. simpl.
      apply NoDup_app; [exact W|repeat constructor; intros []|].
      intros a Ia [<-|[]]. apply in_keys_get in Ia as [v1 E]. congruence.
    + intros I. apply in_keys_get in I as [v1 E]. congruence.
Qed.

Lemma set_Forall (V : Type) (R : V -> Prop) (d : Dict.t V) (k : str) (v : V) :
  Forall (fun kc => R (snd kc)) d -> R v ->
  Forall (fun kc => R (snd kc)) (Dict.set d k v).
Proof.
  intros F Hv. induction F as [|[k' v'] d H F IH]; simpl.
  - repeat constructor. exact Hv.
  - destruct (eqb_str k k'); constructor; auto.
Qed.

Lemma get_Forall (V : Type) (R : V -> Prop) (d : Dict.t V) (k : str) (v : V) :
  Forall (fun kc => R (snd kc)) d -> Dict.get d k = Some v -> R v.
Proof.
  intros F. induction F as [|[k' v'] d H F IH]; simpl; [discriminate|].
  destruct (eqb_str k k'); [intros [= <-]; exact H|exact IH].
Qed.

Lemma parse_attrs_wf (l : list (str * Re.regex)) (rest : str) :
  forall c : ctl, wf_dict c -> wf_dict (parse_attrs l rest c).
Proof.
  induction l as [|[a re] l IH]; intros c W; simpl; [exact W|].
  destruct (Re.search re rest) as [m|]; [|auto].
  destruct (Re.group 1 (Re.groups m)) as [tok|]; [|auto].
  apply IH. now apply set_wf.
Qed.

(** The control that the loop of [get_ctls] builds for a line. *)
Lemma parsed_ctl_listed (ty rest : str) :
  listed_ctl
    (parse_attrs re_attrs rest
       (Dict.set (Dict.empty value) ("type"%string : str) (VStr ty))).
Proof.
  set (c := parse_attrs re_attrs rest _).
  assert (G : forall k,
    Dict.get c k
    = if existsb (eqb_str k) ATTRS
      then match attr_read k rest with
           | Some v => Some v
           | None => if eqb_str k ("type"%string : str)
                     then Some (VStr ty) else None
           end
      else if eqb_str k ("type"%string : str) then Some (VStr ty) else None).
  { intros k. unfold c, re_attrs.
    rewrite (AttrFacts.parse_attrs_get ATTRS rest (NoDup_ATTRS)). reflexivity. }
  split; [|split].
  - apply parse_attrs_wf. unfold wf_dict. simpl.
    repeat constructor. intros [].
  - exists ty. rewrite G. reflexivity.
  - intros k Hk. apply in_keys_get in Hk as [v Hv]. rewrite G in Hv.
    destruct (existsb (eqb_str k) ATTRS) eqn:X.
    + right. apply existsb_exists in X as (x & Hx & Ex).
      apply eqb_str_eq in Ex. now subst x.
    + left. destruct (eqb_str k ("type"%string : str)) eqn:Ek;
        [now apply eqb_str_eq in Ek|discriminate].
Qed.

Lemma get_ctls_line_listed line st :
  listed (ctrls st) -> listed (ctrls (final (get_ctls_line line st))).
Proof.
  intros [W F]. unfold get_ctls_line, final.
  destruct (Re.split RE_CTL 3 line) as [|m0 m]; [split; assumption|].
  generalize (m0 :: m). intros mm.
  unfold bind, of_option, get_state, set_ctrls, ret, raise.
  destruct (nth_error mm 1) as [name|]; [|split; assumption].
  destruct (nth_error mm 2) as [ty|]; [|split; assumption].
  destruct (nth_error mm 3) as [rest|]; [|split; assumption].
  simpl. split; [now apply set_wf|].
  apply set_Forall; [exact F|apply parsed_ctl_listed].
Qed.

Lemma listed_wf_ctrls (cs : Dict.t ctl) : listed cs -> wf_ctrls cs.
Proof.
  intros [W F]. split; [exact W|].
  eapply Forall_impl; [|exact F]. intros kc H. exact (proj1 H).
Qed.

Lemma get_ctls_listed st : listed (ctrls (final (get_ctls v4l2_ctl st))).
Proof.
  assert (E : listed (Dict.empty ctl)) by (split; constructor).
  unfold get_ctls, bind, set_ctrls, get_state, cmd, final. simpl.
  destruct (v4l2_ctl _ (world st)) as [[out|] w]; simpl; [|exact E].
  pose proof (for_each_keeps World _ (fun s => listed (ctrls s))
                (@get_ctls_line World) (lines out)
                (fun a s H => get_ctls_line_listed a s H)
                (with_world (with_ctrls st (Dict.empty ctl)) w) E) as K.
  unfold final in K.
  destruct (for_each _ _ _) as [[r st'] ev]. exact K.
Qed.

(** Whatever the device answers and whether the listing ends or stops
    with an exception, what [get_ctls] leaves in the cache is a [dict]
    with one binding per name, of controls that each have one binding per
    key, a [type] that is a [str] and no key besides [type] and the six
    attributes.  So the file that the save action writes from it is read
    back by the load action as the same mapping. *)
Theorem get_ctls_cache_listed st :
  wf_ctrls (ctrls (final (get_ctls v4l2_ctl st)))
  /\ (forall name c,
        Dict.get (ctrls (final (get_ctls v4l2_ctl st))) name = Some c ->
        listed_ctl c)
  /\ Json.loads (Json.dumps (ctrls (final (get_ctls v4l2_ctl st))))
     = Some (ctrls (final (get_ctls v4l2_ctl st))).
Proof.
  pose proof (get_ctls_listed st) as L.
  split; [now apply listed_wf_ctrls|]. split.
  - intros name c H. exact (get_Forall _ listed_ctl _ _ _ (proj2 L) H).
  - apply JsonFacts.loads_dumps. now apply listed_wf_ctrls.
Qed.

(** When the listing command fails, [get_ctls] ends with the exception of
    the command, and the cache, emptied before the command was run, holds
    no control. *)
Theorem get_ctls_command_fails st w :
  v4l2_ctl (list_argv (device st)) (world st) = (None, w) ->
  get_ctls v4l2_ctl st
  = (Raise ErrorReturnCode,
     with_world (with_ctrls st (Dict.empty ctl)) w,
     [Exec (list_argv (device st)) false]).
Proof.
  intros E. unfold get_ctls, bind, set_ctrls, get_state, cmd. simpl.
  rewrite E. reflexivity.
Qed.

Lemma word_run_unique (w1 w2 r1 r2 : str) :
  forallb is_word w1 = true -> forallb is_word w2 = true ->
  word_follows r1 = false -> word_follows r2 = false ->
  w1 ++ r1 = w2 ++ r2 -> w1 = w2.
Proof.
  revert w2. induction w1 as [|a w1 IH]; intros [|b w2] H1 H2 F1 F2 E;
    simpl in *.
  - reflexivity.
  - subst r1. simpl in F1. apply andb_true_iff in H2 as [Hb _]. congruence.
  - subst r2. simpl in F2. apply andb_true_iff in H1 as [Ha _]. congruence.
  - injection E as <- E. apply andb_true_iff in H1 as [_ H1].
    apply andb_true_iff in H2 as [_ H2]. f_equal. eauto.
Qed.

Lemma app_same_length (A : Type) (p1 p2 r1 r2 : list A) :
  length p1 = length p2 -> p1 ++ r1 = p2 ++ r2 -> p1 = p2 /\ r1 = r2.
Proof.
  revert p2. induction p1 as [|a p1 IH]; intros [|b p2] L E;
    try discriminate; simpl in *.
  - auto.
  - injection E as <- E. injection L as L.
    destruct (IH _ L E) as [-> ->]. auto.
Qed.

(** A control line gives one name. *)
Lemma names_control_unique line n1 n2 :
  names_control line n1 -> names_control line n2 -> n1 = n2.
Proof.
  intros (b1 & m1 & t1 & r1 & a1 & C1 & L1 & X1)
         (b2 & m2 & t2 & r2 & a2 & C2 & L2 & X2).
  pose proof (L1 _ _ _ _ _ _ C2) as Le1.
  pose proof (L2 _ _ _ _ _ _ C1) as Le2.
  destruct C1 as (ws1 & sp1 & E1 & _ & W1 & _).
  destruct C2 as (ws2 & sp2 & E2 & _ & W2 & _).
  pose proof E2 as E. rewrite E1 in E.
  apply app_same_length in E as [-> E]; [|lia].
  exact (word_run_unique n1 n2 _ _ W1 W2 (X1 _ E1) (X2 _ E2) E).
Qed.

(** The body of the loop on a control line: it binds the name of the
    line. *)
Lemma get_ctls_line_names st line :
  is_control_line line ->
  exists name c,
    names_control line name
    /\ get_ctls_line line st
       = (Ok tt, with_ctrls st (Dict.set (ctrls st) name c), []).
Proof.
  intros (b0 & n0 & m0 & t0 & r0 & a0 & C0).
  destruct (CtlFacts.re_ctl_complete _ _ _ _ _ _ _ C0) as (mt & E0 & M0).
  destruct (Re.search RE_CTL line) as [f|] eqn:S.
  2:{ exfalso. unfold Re.search in S. rewrite E0 in S.
      exact (ReFacts.search_from_complete RE_CTL b0 _ M0 [] S). }
  destruct (CtlFacts.split_control_line _ _ S)
    as (name & mid & ty & rest & tl & Sp & C & L & Mx & _).
  exists name. eexists. split.
  - exists (Re.before f), mid, ty, rest, (Re.after f). auto.
  - unfold get_ctls_line. rewrite Sp. reflexivity.
Qed.

(** The loop over control lines: it ends without an exception, and the
    names it adds to the cached ones are the names of these lines. *)
Lemma read_control_lines (l : list str) :
  Forall is_control_line l ->
  forall st, exists cs,
    for_each l (@get_ctls_line World) st = (Ok tt, with_ctrls st cs, [])
    /\ forall name,
         In name (Dict.keys cs)
         <-> In name (Dict.keys (ctrls st))
             \/ exists line, In line l /\ names_control line name.
Proof.
  induction 1 as [|line l H F IH]; intros st; simpl.
  - exists (ctrls st). destruct st. unfold ret, with_ctrls. simpl.
    split; [reflexivity|]. intros name. split; [auto|].
    intros [I|(line & [] & _)]. exact I.
  - destruct (get_ctls_line_names st line H) as (n & c & Nm & E).
    destruct (IH (with_ctrls st (Dict.set (ctrls st) n c)))
      as (cs & E2 & Iff).
    exists cs. unfold bind. rewrite E, E2. simpl in *.
    split; [reflexivity|]. intros name. rewrite Iff, in_keys_set. split.
    + intros [[->|I]|(line' & Il & Nl)]; eauto.
    + intros [I|(line' & [<-|Il] & Nl)]; eauto.
      left. left. exact (names_control_unique _ _ _ Nl Nm).
Qed.

(** A listing made of control lines only: [get_ctls] completes after its
    one invocation, and the cached names are the names of the lines. *)
Theorem get_ctls_listing_names st out w :
  v4l2_ctl (list_argv (device st)) (world st) = (Some out, w) ->
  Forall is_control_line (lines out) ->
  outcome (get_ctls v4l2_ctl st) = Ok tt
  /\ events (get_ctls v4l2_ctl st) = [Exec (list_argv (device st)) true]
  /\ forall name,
       In name (Dict.keys (ctrls (final (get_ctls v4l2_ctl st))))
       <-> exists line, In line (lines out) /\ names_control line name.
Proof.
  intros E F.
  destruct (read_control_lines _ F
              (with_world (with_ctrls st (Dict.empty ctl)) w))
    as (cs & R & Iff).
  unfold get_ctls, bind, set_ctrls, get_state, cmd, outcome, events, final.
  simpl. rewrite E, R. simpl. split; [reflexivity|]. split; [reflexivity|].
  intros name. rewrite Iff. simpl. tauto.
Qed.

Lemma no_paren_no_control line :
  ~ In "("%char line -> Re.search RE_CTL line = None.
Proof.
  intros N. destruct (Re.search RE_CTL line) as [f|] eqn:S; [|reflexivity].
  exfalso. destruct (CtlFacts.split_control_line _ _ S)
    as (name & mid & ty & rest & tl & _ & (ws & sp & C & _) & _).
  apply N. rewrite C. apply in_or_app. right. apply in_or_app. right.
  apply in_or_app. right. now left.
Qed.

(** A listing with a line that has no parenthesis (a heading, an empty
    line) after some control lines: [get_ctls] ends with IndexError at
    this line.  The cached names are the names of the lines before it;
    the lines after it are not read. *)
Theorem get_ctls_stops st out w (pre : list str) (bad : str)
    (post : list str) :
  v4l2_ctl (list_argv (device st)) (world st) = (Some out, w) ->
  lines out = pre ++ bad :: post ->
  Forall is_control_line pre ->
  ~ In "("%char bad ->
  get_ctls v4l2_ctl st
  = (Raise IndexError,
     final (for_each pre (@get_ctls_line World)
              (with_world (with_ctrls st (Dict.empty ctl)) w)),
     [Exec (list_argv (device st)) true])
  /\ forall name,
       In name (Dict.keys (ctrls (final (get_ctls v4l2_ctl st))))
       <-> exists line, In line pre /\ names_control line name.
Proof.
  intros E L F N.
  destruct (read_control_lines _ F
              (with_world (with_ctrls st (Dict.empty ctl)) w))
    as (cs & R & Iff).
  assert (G : get_ctls v4l2_ctl st
    = (Raise IndexError,
       final (for_each pre (@get_ctls_line World)
                (with_world (with_ctrls st (Dict.empty ctl)) w)),
       [Exec (list_argv (device st)) true])).
  { unfold get_ctls, bind, set_ctrls, get_state, cmd. simpl. rewrite E, L.
    rewrite (for_each_stops World _ (@get_ctls_line World) bad pre post).
    - rewrite R. reflexivity.
    - intros st'. apply get_ctls_line_no_match. now apply no_paren_no_control.
    - rewrite R. reflexivity. }
  split; [exact G|]. rewrite G, R. unfold final. simpl.
  intros name. rewrite Iff. simpl. tauto.
Qed.

(** The control that the loop builds for a line has the type of the
    line and the attributes of its remainder. *)
Lemma parsed_ctl_attrs (ty rest : str) :
  Dict.get
    (parse_attrs re_attrs rest
       (Dict.set (Dict.empty value) ("type"%string : str) (VStr ty)))
    ("type"%string : str)
  = Some (VStr ty)
  /\ reads_attrs rest
       (parse_attrs re_attrs rest
          (Dict.set (Dict.empty value) ("type"%string : str) (VStr ty))).
Proof.
  set (c := parse_attrs re_attrs rest _).
  assert (G : forall k,
    Dict.get c k
    = if existsb (eqb_str k) ATTRS
      then match attr_read k rest with
           | Some v => Some v
           | None => if eqb_str k ("type"%string : str)
                     then Some (VStr ty) else None
           end
      else if eqb_str k ("type"%string : str) then Some (VStr ty) else None).
  { intros k. unfold c, re_attrs.
    rewrite (AttrFacts.parse_attrs_get ATTRS rest NoDup_ATTRS). reflexivity. }
  split; [rewrite G; reflexivity|].
  intros a Ha. destruct (in_ATTRS a Ha) as [X T]. rewrite G, X, T.
  unfold attr_read. pose proof (AttrFacts.search_attr a rest) as Sa.
  destruct (Re.search (re_attr a) rest) as [fa|].
  - destruct Sa as (tok & after' & Gr & Er & V & F & La).
    rewrite Gr. simpl. exists (Re.before fa), tok, after'.
    repeat split; auto.
  - exact Sa.
Qed.

(** The body of the loop on a control line, in any state: the name, the
    type and the remainder it reads depend on the line alone. *)
Lemma get_ctls_line_parsed line :
  is_control_line line ->
  exists name before mid ty rest after,
    control_line line before name mid ty rest after
    /\ names_control line name
    /\ forall st,
         get_ctls_line line st
         = (Ok tt,
            with_ctrls st
              (Dict.set (ctrls st) name
                 (parse_attrs re_attrs rest
                    (Dict.set (Dict.empty value) ("type"%string : str)
                       (VStr ty)))),
            []).
Proof.
  intros (b0 & n0 & m0 & t0 & r0 & a0 & C0).
  destruct (CtlFacts.re_ctl_complete _ _ _ _ _ _ _ C0) as (mt & E0 & M0).
  destruct (Re.search RE_CTL line) as [f|] eqn:S.
  2:{ exfalso. unfold Re.search in S. rewrite E0 in S.
      exact (ReFacts.search_from_complete RE_CTL b0 _ M0 [] S). }
  destruct (CtlFacts.split_control_line _ _ S)
    as (name & mid & ty & rest & tl & Sp & C & L & Mx & _).
  exists name, (Re.before f), mid, ty, rest, (Re.after f).
  split; [exact C|]. split.
  - exists (Re.before f), mid, ty, rest, (Re.after f). auto.
  - intros st. unfold get_ctls_line. rewrite Sp. reflexivity.
Qed.

(** Control lines that do not have the name [name] leave the control
    cached under it as it is. *)
Lemma read_other_lines (name : str) (l : list str) :
  Forall is_control_line l ->
  (forall line, In line l -> ~ names_control line name) ->
  forall st,
    Dict.get (ctrls (final (for_each l (@get_ctls_line World) st))) name
    = Dict.get (ctrls st) name.
Proof.
  induction 1 as [|line l H F IH]; intros Hn st; simpl; [reflexivity|].
  destruct (get_ctls_line_names st line H) as (n & c & Nm & E).
  assert (Ne : name <> n).
  { intros ->. apply (Hn line); [now left|exact Nm]. }
  specialize (IH (fun l' I => Hn l' (or_intror I))
                (with_ctrls st (Dict.set (ctrls st) n c))).
  unfold bind, final in *. rewrite E.
  destruct (for_each l _ _) as [[r2 s2] ev2]. simpl in *.
  rewrite IH. now apply get_set_other.
Qed.

(** A listing made of control lines only: [get_ctls] completes, and for
    each line whose name no later line has, the control cached under this
    name is the one of the line: its type is the word between the
    parentheses, its keys are [type] and attributes, and its attributes
    are those that occur as [attr=value] in the remainder of the line, an
    integer as an [int] and anything else as a [str]. *)
Theorem get_ctls_stores_control_lines st out w (l1 : list str) (line : str)
    (l2 : list str) :
  v4l2_ctl (list_argv (device st)) (world st) = (Some out, w) ->
  lines out = l1 ++ line :: l2 ->
  Forall is_control_line (lines out) ->
  (forall name later,
     names_control line name -> In later l2 -> ~ names_control later name) ->
  outcome (get_ctls v4l2_ctl st) = Ok tt
  /\ exists name before mid ty rest after c,
       control_line line before name mid ty rest after
       /\ names_control line name
       /\ Dict.get (ctrls (final (get_ctls v4l2_ctl st))) name = Some c
       /\ Dict.get c ("type"%string : str) = Some (VStr ty)
       /\ (forall k, In k (Dict.keys c) ->
             k = ("type"%string : str) \/ In k ATTRS)
       /\ reads_attrs rest c.
Proof.
  intros E L F Later. rewrite L in F.
  apply Forall_app in F as [F1 F]. inversion F as [|x y Hline F2]; subst x y.
  destruct (get_ctls_line_parsed line Hline)
    as (name & before & mid & ty & rest & after & C & Nm & Run).
  set (c := parse_attrs re_attrs rest
              (Dict.set (Dict.empty value) ("type"%string : str) (VStr ty)))
    in *.
  destruct (read_control_lines l1 F1
              (with_world (with_ctrls st (Dict.empty ctl)) w))
    as (cs1 & R1 & _).
  set (s1 := with_ctrls (with_world (with_ctrls st (Dict.empty ctl)) w) cs1)
    in *.
  destruct (read_control_lines l2 F2
              (with_ctrls s1 (Dict.set (ctrls s1) name c)))
    as (cs2 & R2 & _).
  pose proof (read_other_lines name l2 F2 (fun l' I => Later name l' Nm I)
                (with_ctrls s1 (Dict.set (ctrls s1) name c))) as Keep.
  rewrite R2 in Keep. unfold final in Keep. simpl in Keep.
  rewrite get_set_same in Keep.
  assert (G : get_ctls v4l2_ctl st
    = (Ok tt,
       with_ctrls (with_ctrls s1 (Dict.set (ctrls s1) name c)) cs2,
       [Exec (list_argv (device st)) true])).
  { unfold get_ctls, bind, set_ctrls, get_state, cmd. simpl. rewrite E, L.
    assert (A : forall (la lb : list str) s sa,
              for_each la (@get_ctls_line World) s = (Ok tt, sa, []) ->
              for_each (la ++ lb) (@get_ctls_line World) s
              = for_each lb (@get_ctls_line World) sa).
    { induction la as [|a la IHa]; intros lb s sa Ha; simpl in *.
      - unfold ret in Ha. now injection Ha as <-.
      - unfold bind in *.
        destruct (get_ctls_line a s) as [[[[]|e] sb] evb]; [|discriminate].
        destruct (for_each la _ sb) as [[rb sc] evc] eqn:Eb.
        injection Ha as -> <- Hev. apply app_eq_nil in Hev as [-> ->].
        rewrite (IHa lb sb sc Eb).
        now destruct (for_each lb _ sc) as [[rd sd] evd]. }
    rewrite (A l1 (line :: l2) _ _ R1). simpl. unfold bind.
    rewrite (Run s1), R2. reflexivity. }
  rewrite G. unfold outcome, final. simpl. split; [reflexivity|].
  exists name, before, mid, ty, rest, after, c.
  split; [exact C|]. split; [exact Nm|]. split; [exact Keep|].
  destruct (parsed_ctl_attrs ty rest) as [T A].
  destruct (parsed_ctl_listed ty rest) as (_ & _ & K). auto.
Qed.

End MoreListingFacts.

Lemma get_ctls_command_fails_witness :
  get_ctls (Demo.device_of Demo.listing true) Demo.st9
  = (Raise ErrorReturnCode,
     State Demo.video9 (Dict.empty ctl) tt (Dict.empty str),
     [Exec [ "-d"%string : str; Demo.video9; "-l"%string : str ] false]).
Proof.
  apply (get_ctls_command_fails unit (Demo.device_of Demo.listing true)
           Demo.st9 tt).
  reflexivity.
Defined.

Lemma listing_control_lines : Forall is_control_line (lines Demo.listing).
Proof.
  repeat constructor.
  - exists ("                     "%string : str), Demo.brightness,
      (" 0x00980900 "%string : str), ("int"%string : str),
      ("min=-64 max=64 step=1 default=0 value=12"%string : str), Demo.NL.
    exists ("    "%string : str), " "%char.
    repeat split; try reflexivity; try discriminate. now right.
  - exists ("                 "%string : str), ("link_frequency"%string : str),
      (" 0x009f0901 "%string : str), ("intmenu"%string : str),
      ("min=0 max=1 default=0 value=1"%string : str), Demo.NL.
    exists [], " "%char.
    repeat split; try reflexivity; try discriminate. now right.
  - exists ("        "%string : str),
      ("white_balance_automatic"%string : str),
      (" 0x0098090c "%string : str), ("bool"%string : str),
      ("default=1 value=1"%string : str), Demo.NL.
    exists ("   "%string : str), " "%char.
    repeat split; try reflexivity; try discriminate. now right.
  - exists ("      "%string : str),
      ("white_balance_temperature"%string : str),
      (" 0x0098091a "%string : str), ("int"%string : str),
      ("min=2800 max=6500 step=1 default=4600 value=4600 flags=inactive"%string : str),
      Demo.NL.
    exists ("    "%string : str), " "%char.
    repeat split; try reflexivity; try discriminate. now right.
Qed.

Lemma get_ctls_listing_names_witness :
  let run := get_ctls (Demo.device_of Demo.listing true) Demo.st0 in
  outcome run = Ok tt
  /\ events run = [Exec [ "-l"%string : str ] true]
  /\ forall name,
       In name (Dict.keys (ctrls (final run)))
       <-> exists line, In line (lines Demo.listing)
                        /\ names_control line name.
Proof.
  apply (get_ctls_listing_names unit (Demo.device_of Demo.listing true)
           Demo.st0 Demo.listing tt).
  - reflexivity.
  - exact listing_control_lines.
Defined.

Lemma get_ctls_stops_witness :
  let dev := Demo.device_of Demo.listing_two_groups true in
  get_ctls dev Demo.st0
  = (Raise IndexError,
     State [] [(Demo.brightness, Demo.ctl_brightness)] tt (Dict.empty str),
     [Exec [ "-l"%string : str ] true])
  /\ forall name,
       In name (Dict.keys (ctrls (final (get_ctls dev Demo.st0))))
       <-> exists line, In line [Demo.line_brightness]
                        /\ names_control line name.
Proof.
  apply (get_ctls_stops unit (Demo.device_of Demo.listing_two_groups true)
           Demo.st0 Demo.listing_two_groups tt [Demo.line_brightness] Demo.NL
           [ ("Camera Controls"%string : str) ++ Demo.NL; Demo.NL;
             ("        white_balance_automatic 0x0098090c (bool)   : default=1 value=1"%string : str)
             ++ Demo.NL ]).
  - reflexivity.
  - reflexivity.
  - repeat constructor.
    exists ("                     "%string : str), Demo.brightness,
      (" 0x00980900 "%string : str), ("int"%string : str),
      ("min=-64 max=64 step=1 default=0 value=12"%string : str), Demo.NL.
    exists ("    "%string : str), " "%char.
    repeat split; try reflexivity; try discriminate. now right.
  - simpl. intros [H|[]]. discriminate.
Defined.

Lemma get_ctls_stores_control_lines_witness :
  outcome (get_ctls (Demo.device_of Demo.listing true) Demo.st0) = Ok tt
  /\ exists name before mid ty rest after c,
       control_line
         (("      white_balance_temperature 0x0098091a (int)    : min=2800 max=6500 step=1 default=4600 value=4600 flags=inactive"%string : str)
          ++ Demo.NL)
         before name mid ty rest after
       /\ names_control
            (("      white_balance_temperature 0x0098091a (int)    : min=2800 max=6500 step=1 default=4600 value=4600 flags=inactive"%string : str)
             ++ Demo.NL)
            name
       /\ Dict.get
            (ctrls (final (get_ctls (Demo.device_of Demo.listing true)
                             Demo.st0)))
            name
          = Some c
       /\ Dict.get c ("type"%string : str) = Some (VStr ty)
       /\ (forall k, In k (Dict.keys c) ->
             k = ("type"%string : str) \/ In k ATTRS)
       /\ reads_attrs rest c.
Proof.
  apply (get_ctls_stores_control_lines unit
           (Demo.device_of Demo.listing true) Demo.st0 Demo.listing tt
           (firstn 3 (lines Demo.listing))
           (("      white_balance_temperature 0x0098091a (int)    : min=2800 max=6500 step=1 default=4600 value=4600 flags=inactive"%string : str)
            ++ Demo.NL)
           []).
  - reflexivity.
  - reflexivity.
  - exact listing_control_lines.
  - intros name later _ [].
Defined.

(** ** update: what it changes, what it runs, when it fails *)

Section MoreUpdateFacts.

Variable World : Type.
Variable v4l2_ctl : list str -> World -> option str * World.
Implicit Types (st s : state World) (name n : str) (val : value)
  (cs : Dict.t ctl) (c : ctl).

Lemma set_same (V : Type) (d : Dict.t V) (k : str) (v : V) :
  Dict.get d k = Some v -> Dict.set d k v = d.
Proof.
  induction d as [|[k' v'] d IH]; simpl; [discriminate|].
  destruct (eqb_str k k') eqn:E.
  - now intros [= ->].
  - intros H. now rewrite IH.
Qed.

Lemma set_set (V : Type) (d : Dict.t V) (k : str) (v v' : V) :
  Dict.set (Dict.set d k v) k v' = Dict.set d k v'.
Proof.
  induction d as [|[k' v0] d IH]; simpl.
  - now rewrite eqb_str_refl.
  - destruct (eqb_str k k') eqn:E; simpl; rewrite E; [reflexivity|].
    now rewrite IH.
Qed.

(** What a call of [setValue] on a cached control comes to. *)
Lemma setValue_cases st name val c :
  Dict.get (ctrls st) name = Some c ->
  exists b s' ev,
    setValue v4l2_ctl name val st = (Ok b, s', ev)
    /\ device s' = device st /\ files s' = files st
    /\ (ctrls s' = ctrls st
        \/ is_inactive c = false
           /\ ctrls s'
              = Dict.set (ctrls st) name
                  (Dict.set c ("value"%string : str) val))
    /\ forall argv ok, In (Exec argv ok) ev ->
         is_inactive c = false
         /\ argv = set_ctrl_argv (device st) name val.
Proof.
  intros Hc. destruct (is_inactive c) eqn:Hf.
  - exists true, st, [SetValue name val]. split.
    + unfold setValue. mred. rewrite Hc. simpl. unfold is_inactive in Hf.
      simpl in Hf. rewrite Hf. reflexivity.
    + repeat split; auto; destruct H as [H|[]]; discriminate.
  - pose proof (setValue_active World v4l2_ctl st name val c Hc Hf) as A.
    cbv zeta in A. rewrite A.
    destruct (v4l2_ctl _ (world st)) as [[out|] w].
    + do 3 eexists. split; [reflexivity|]. simpl.
      split; [reflexivity|]. split; [reflexivity|]. split; [now right|].
      intros argv ok [H|[H|[]]]; [discriminate|]. now injection H as <- _.
    + do 3 eexists. split; [reflexivity|]. simpl.
      split; [reflexivity|]. split; [reflexivity|]. split; [now left|].
      intros argv ok [H|[H|[H|[]]]]; try discriminate.
      now injection H as <- _.
Qed.

(** What one turn of a loop of [update] comes to: nothing (the control
    is passed over, or a key is missing), or one call of [setValue] with
    the attribute read. *)
Lemma update_one_cases skip reset st name :
  (final (update_one v4l2_ctl skip reset name st) = st
   /\ events (update_one v4l2_ctl skip reset name st) = [])
  \/ exists c val b,
       Dict.get (ctrls st) name = Some c
       /\ Dict.get c (read_key reset) = Some val
       /\ passes_over skip c = false
       /\ setValue v4l2_ctl name val st
          = (Ok b, final (update_one v4l2_ctl skip reset name st),
             events (update_one v4l2_ctl skip reset name st))
       /\ outcome (update_one v4l2_ctl skip reset name st) = Ok tt.
Proof.
  destruct (Dict.get (ctrls st) name) as [c|] eqn:Hc.
  2:{ left. unfold update_one. mred. rewrite Hc. auto. }
  destruct (Dict.get c ("type"%string : str)) as [ty|] eqn:Ht.
  2:{ left. unfold update_one. mred. rewrite Hc. simpl in *. rewrite Ht.
      auto. }
  destruct (skip ty) eqn:Hs.
  { left. rewrite (update_one_skip World v4l2_ctl skip reset st name c ty
                     Hc Ht Hs). auto. }
  destruct (Dict.get c (read_key reset)) as [val|] eqn:Hv.
  2:{ left. unfold update_one. mred. rewrite Hc. simpl in *. rewrite Ht.
      simpl. rewrite Hs. mred. rewrite Hv. auto. }
  right. rewrite (update_one_set World v4l2_ctl skip reset st name c ty val
                    Hc Ht Hs Hv).
  destruct (setValue_cases st name val c Hc) as (b & s' & ev & E & _).
  rewrite E. exists c, val, b. unfold passes_over. rewrite Ht.
  repeat split; auto.
Qed.

(** An invariant of the turns is an invariant of [update]. *)
Lemma update_keeps (P : state World -> Prop) reset :
  (forall skip name s, P s -> P (final (update_one v4l2_ctl skip reset name s))) ->
  forall st, P st -> P (final (update v4l2_ctl reset st)).
Proof.
  intros Hone st H. unfold update, bind. rewrite update_pass_for_each.
  pose proof (for_each_keeps World _ P (update_one v4l2_ctl is_int reset)
                (Dict.keys (ctrls st)) (Hone is_int) st H) as K1.
  unfold final in *.
  destruct (for_each _ _ st) as [[[[]|e] st1] ev1]; simpl in *; [|exact K1].
  rewrite update_pass_for_each.
  pose proof (for_each_keeps World _ P
                (update_one v4l2_ctl is_bool_or_menu reset)
                (Dict.keys (ctrls st1)) (Hone is_bool_or_menu) st1 K1) as K2.
  unfold final in K2.
  destruct (for_each _ _ st1) as [[r2 st2] ev2]. exact K2.
Qed.

Lemma for_each_events (A : Type) (P : state World -> Prop)
    (Q : event -> Prop) (body : A -> M World unit) (l : list A) :
  (forall a s, P s ->
     P (final (body a s)) /\ forall e, In e (events (body a s)) -> Q e) ->
  forall s, P s ->
  P (final (for_each l body s))
  /\ forall e, In e (events (for_each l body s)) -> Q e.
Proof.
  intros Hb. induction l as [|a l IH]; intros s H; simpl.
  - split; [exact H|intros e []].
  - destruct (Hb a s H) as [H1 Q1]. unfold bind, final, events in *.
    destruct (body a s) as [[[[]|x] s1] ev1]; simpl in *; [|auto].
    destruct (IH s1 H1) as [H2 Q2].
    destruct (for_each l body s1) as [[r2 s2] ev2]; simpl in *.
    split; [exact H2|]. intros e I. apply in_app_or in I as [I|I]; auto.
Qed.

Lemma update_events_keep (P : state World -> Prop) (Q : event -> Prop) reset :
  (forall skip name s, P s ->
     P (final (update_one v4l2_ctl skip reset name s))
     /\ forall e, In e (events (update_one v4l2_ctl skip reset name s)) ->
          Q e) ->
  forall st, P st ->
  forall e, In e (events (update v4l2_ctl reset st)) -> Q e.
Proof.
  intros Hone st H. unfold update, bind. rewrite update_pass_for_each.
  destruct (for_each_events _ P Q (update_one v4l2_ctl is_int reset)
              (Dict.keys (ctrls st)) (Hone is_int) st H) as [K1 Q1].
  unfold final, events in *.
  destruct (for_each _ _ st) as [[[[]|x] st1] ev1]; simpl in *; [|exact Q1].
  rewrite update_pass_for_each.
  destruct (for_each_events _ P Q (update_one v4l2_ctl is_bool_or_menu reset)
              (Dict.keys (ctrls st1)) (Hone is_bool_or_menu) st1 K1)
    as [_ Q2].
  unfold events in Q2.
  destruct (for_each _ _ st1) as [[r2 st2] ev2]; simpl in *.
  intros e I. apply in_app_or in I as [I|I]; auto.
Qed.

Lemma only_values_refl cs : only_values cs cs.
Proof. split; [reflexivity|]. intros n c H. exists c. auto. Qed.

Lemma only_values_trans cs1 cs2 cs3 :
  only_values cs1 cs2 -> only_values cs2 cs3 -> only_values cs1 cs3.
Proof.
  intros [K1 H1] [K2 H2]. split; [congruence|].
  intros n c Hc. destruct (H1 _ _ Hc) as (c2 & G2 & O2 & V2).
  destruct (H2 _ _ G2) as (c3 & G3 & O3 & V3).
  exists c3. split; [exact G3|]. split; [|auto].
  intros k Hk. now rewrite O3, O2.
Qed.

Lemma only_values_store cs name c val :
  Dict.get cs name = Some c ->
  only_values cs (Dict.set cs name (Dict.set c ("value"%string : str) val)).
Proof.
  intros Hc. split; [now apply keys_set_bound with (v0 := c)|].
  intros n c0 Hn. destruct (eqb_str n name) eqn:E.
  - apply eqb_str_eq in E. subst n. rewrite Hc in Hn. injection Hn as <-.
    exists (Dict.set c ("value"%string : str) val).
    rewrite get_set_same. split; [reflexivity|]. split.
    + intros k Hk. now apply get_set_other.
    + intros _. rewrite get_set_same. discriminate.
  - apply eqb_str_neq in E. exists c0. rewrite get_set_other; auto.
Qed.

Lemma update_one_only_values skip reset st name :
  only_values (ctrls st)
    (ctrls (final (update_one v4l2_ctl skip reset name st)))
  /\ device (final (update_one v4l2_ctl skip reset name st)) = device st
  /\ files (final (update_one v4l2_ctl skip reset name st)) = files st.
Proof.
  destruct (update_one_cases skip reset st name)
    as [[-> _]|(c & val & b & Hc & Hv & _ & E & _)].
  - split; [apply only_values_refl|auto].
  - destruct (setValue_cases st name val c Hc)
      as (b' & s' & ev & E' & D & F & [C|[_ C]] & _);
      rewrite E' in E; injection E as _ <- _; rewrite C;
      (split; [|auto]).
    + apply only_values_refl.
    + now apply only_values_store.
Qed.

(** [update] changes nothing but cached values: after it, for [reset]
    True or False and whether it completes or not, the cache has the same
    names in the same order, every control has the attributes it had with
    the same contents, [value] apart, no control has lost its value, and
    the device and the files are those before. *)
Theorem update_changes_values_only st reset :
  only_values (ctrls st) (ctrls (final (update v4l2_ctl reset st)))
  /\ device (final (update v4l2_ctl reset st)) = device st
  /\ files (final (update v4l2_ctl reset st)) = files st.
Proof.
  apply (update_keeps
           (fun s => only_values (ctrls st) (ctrls s)
                     /\ device s = device st /\ files s = files st) reset).
  - intros skip name s (O & D & F).
    destruct (update_one_only_values skip reset s name) as (O1 & D1 & F1).
    split; [exact (only_values_trans _ _ _ O O1)|]. split; congruence.
  - split; [apply only_values_refl|auto].
Qed.

Lemma update_one_same_cache skip st name :
  ctrls (final (update_one v4l2_ctl skip false name st)) = ctrls st.
Proof.
  destruct (update_one_cases skip false st name)
    as [[-> _]|(c & val & b & Hc & Hv & _ & E & _)]; [reflexivity|].
  destruct (setValue_cases st name val c Hc)
    as (b' & s' & ev & E' & _ & _ & [C|[_ C]] & _);
    rewrite E' in E; injection E as _ <- _; rewrite C; [reflexivity|].
  assert (S1 : Dict.set c ("value"%string : str) val = c)
    by (apply set_same; exact Hv).
  rewrite S1. now apply set_same.
Qed.

(** [update] with [reset] False sets each control to the value that is
    cached for it: the cache after it is the cache before it, whatever the
    device answers and whether [update] completes or not. *)
Theorem update_keeps_cache st :
  ctrls (final (update v4l2_ctl false st)) = ctrls st.
Proof.
  apply (update_keeps (fun s => ctrls s = ctrls st) false); [|reflexivity].
  intros skip name s H. now rewrite update_one_same_cache.
Qed.

Lemma reads_store reset cs name c val :
  Dict.get cs name = Some c ->
  Dict.get c (read_key reset) = Some val ->
  forall n,
    reads reset (Dict.set cs name (Dict.set c ("value"%string : str) val)) n
    = reads reset cs n.
Proof.
  intros Hc Hv n. unfold reads. destruct (eqb_str n name) eqn:E.
  - apply eqb_str_eq in E. subst n. rewrite get_set_same, Hc. simpl.
    f_equal. f_equal.
    + destruct reset; simpl in *.
      * apply get_set_other. discriminate.
      * now rewrite get_set_same.
    + apply get_set_other. discriminate.
  - apply eqb_str_neq in E. now rewrite get_set_other.
Qed.

Lemma update_one_reads skip reset st name :
  (device (final (update_one v4l2_ctl skip reset name st)) = device st
   /\ forall n,
        reads reset (ctrls (final (update_one v4l2_ctl skip reset name st))) n
        = reads reset (ctrls st) n)
  /\ forall argv ok,
       In (Exec argv ok) (events (update_one v4l2_ctl skip reset name st)) ->
       exists c val,
         Dict.get (ctrls st) name = Some c
         /\ Dict.get c (read_key reset) = Some val
         /\ passes_over skip c = false
         /\ is_inactive c = false
         /\ argv = set_ctrl_argv (device st) name val.
Proof.
  destruct (update_one_cases skip reset st name)
    as [[-> ->]|(c & val & b & Hc & Hv & Hp & E & _)].
  - split; [auto|]. intros argv ok [].
  - destruct (setValue_cases st name val c Hc)
      as (b' & s' & ev & E' & D & _ & C & X).
    rewrite E' in E. injection E as _ <- <-. split.
    + split; [exact D|]. destruct C as [C|[_ C]]; rewrite C; [reflexivity|].
      now apply reads_store.
    + intros argv ok I. destruct (X _ _ I) as [Hf ->].
      exists c, val. auto.
Qed.

(** [update] runs nothing but set-control commands on the device of the
    object, each for a cached control that is not inactive and whose type
    the loop does not pass over, with the attribute ([default] on reset,
    [value] otherwise) that this control had when [update] began. *)
Theorem update_commands st reset argv ok :
  In (Exec argv ok) (events (update v4l2_ctl reset st)) ->
  exists name c val,
    Dict.get (ctrls st) name = Some c
    /\ Dict.get c (read_key reset) = Some val
    /\ Dict.get c ("flags"%string : str)
       <> Some (VStr ("inactive"%string : str))
    /\ argv = set_ctrl_argv (device st) name val.
Proof.
  intros I.
  pose (P := fun s : state World =>
               device s = device st
               /\ forall n, reads reset (ctrls s) n = reads reset (ctrls st) n).
  pose (Q := fun e : event =>
               forall argv ok, e = Exec argv ok ->
               exists name c val,
                 Dict.get (ctrls st) name = Some c
                 /\ Dict.get c (read_key reset) = Some val
                 /\ Dict.get c ("flags"%string : str)
                    <> Some (VStr ("inactive"%string : str))
                 /\ argv = set_ctrl_argv (device st) name val).
  assert (Hone : forall skip name s, P s ->
            P (final (update_one v4l2_ctl skip reset name s))
            /\ forall e,
                 In e (events (update_one v4l2_ctl skip reset name s)) -> Q e).
  { intros skip name s [D R].
    destruct (update_one_reads skip reset s name) as [[D1 R1] X]. split.
    - split; [congruence|]. intros n. rewrite R1. apply R.
    - intros e Ie argv' ok' ->.
      destruct (X _ _ Ie) as (c & val & Hc & Hv & _ & Hf & ->).
      pose proof (R name) as Rn. unfold reads in Rn. rewrite Hc in Rn.
      destruct (Dict.get (ctrls st) name) as [c0|] eqn:Hc0; [|discriminate].
      simpl in Rn. injection Rn as Rv Rf.
      exists name, c0, val. split; [exact Hc0|]. split; [congruence|].
      split; [|congruence].
      intros F. assert (F' : is_inactive c = true)
        by (apply is_inactive_flags; rewrite <- F; exact Rf).
      congruence. }
  exact (update_events_keep P Q reset Hone st
           (conj eq_refl (fun n => eq_refl)) _ I argv ok eq_refl).
Qed.


Lemma passes_over_type (skip : value -> bool) c ty :
  Dict.get c ("type"%string : str) = Some ty -> passes_over skip c = skip ty.
Proof. intros H. unfold passes_over. now rewrite H. Qed.

(** One turn of a loop of [update] on a cached control, by cases. *)
Lemma update_one_result (skip : value -> bool) reset st name c :
  Dict.get (ctrls st) name = Some c ->
  match Dict.get c ("type"%string : str) return Prop with
  | None =>
      update_one v4l2_ctl skip reset name st
      = (Raise (KeyError ("type"%string : str)), st, [])
  | Some ty =>
      if skip ty return Prop
      then update_one v4l2_ctl skip reset name st = (Ok tt, st, [])
      else
        match Dict.get c (read_key reset) return Prop with
        | None =>
            update_one v4l2_ctl skip reset name st
            = (Raise (KeyError (read_key reset)), st, [])
        | Some val =>
            exists b s' ev,
              setValue v4l2_ctl name val st = (Ok b, s', ev)
              /\ update_one v4l2_ctl skip reset name st = (Ok tt, s', ev)
        end
  end.
Proof.
  intros Hc. destruct (Dict.get c ("type"%string : str)) as [ty|] eqn:Ht.
  2:{ unfold update_one. mred. rewrite Hc. simpl in *. rewrite Ht.
      reflexivity. }
  destruct (skip ty) eqn:Hs.
  { exact (update_one_skip World v4l2_ctl skip reset st name c ty Hc Ht Hs). }
  destruct (Dict.get c (read_key reset)) as [val|] eqn:Hv.
  2:{ unfold update_one. mred. rewrite Hc. simpl in *. rewrite Ht.
      simpl. rewrite Hs. mred. rewrite Hv. reflexivity. }
  rewrite (update_one_set World v4l2_ctl skip reset st name c ty val
             Hc Ht Hs Hv).
  destruct (setValue_cases st name val c Hc) as (b & s' & ev & E & _).
  rewrite E. eauto.
Qed.

Lemma update_one_other skip reset st k n :
  n <> k ->
  Dict.get (ctrls (final (update_one v4l2_ctl skip reset k st))) n
  = Dict.get (ctrls st) n.
Proof.
  intros N. destruct (update_one_cases skip reset st k)
    as [[-> _]|(c & val & b & Hc & Hv & _ & E & _)]; [reflexivity|].
  destruct (setValue_cases st k val c Hc)
    as (b' & s' & ev & E' & _ & _ & [C|[_ C]] & _);
    rewrite E' in E; injection E as _ <- _; rewrite C; [reflexivity|].
  now apply get_set_other.
Qed.

Lemma update_one_bound skip reset st k n :
  Dict.get (ctrls st) n <> None ->
  Dict.get (ctrls (final (update_one v4l2_ctl skip reset k st))) n <> None.
Proof.
  intros H. destruct (update_one_only_values skip reset st k) as [[K _] _].
  intros E. apply H. apply get_none_not_in. apply get_none_not_in in E.
  now rewrite <- K.
Qed.

Lemma for_each_cons_ok (A : Type) (body : A -> M World unit) (a : A)
    (l : list A) st s1 ev1 :
  body a st = (Ok tt, s1, ev1) ->
  outcome (for_each (a :: l) body st) = outcome (for_each l body s1).
Proof.
  intros E. simpl. unfold bind, outcome. rewrite E.
  now destruct (for_each l body s1) as [[r2 s2] ev2].
Qed.

Lemma for_each_cons_raise (A : Type) (body : A -> M World unit) (a : A)
    (l : list A) st s1 ev1 e :
  body a st = (Raise e, s1, ev1) ->
  outcome (for_each (a :: l) body st) = Raise e.
Proof. intros E. simpl. unfold bind, outcome. now rewrite E. Qed.

(** A loop of [update] over cached names ends normally or with KeyError
    for [type] or for the attribute to set; it ends with this KeyError
    when one of the controls lacks the key it needs. *)
Lemma pass_loop_keys skip reset (l : list str) :
  forall st,
  (forall k, In k l -> Dict.get (ctrls st) k <> None) ->
  (outcome (for_each l (update_one v4l2_ctl skip reset) st) = Ok tt
   \/ key_missing reset
        (outcome (for_each l (update_one v4l2_ctl skip reset) st)))
  /\ forall name c,
       In name l -> Dict.get (ctrls st) name = Some c ->
       lacks_key skip reset c ->
       key_missing reset
         (outcome (for_each l (update_one v4l2_ctl skip reset) st)).
Proof.
  induction l as [|k l IH]; intros st B.
  - split; [now left|]. intros name c [].
  - destruct (Dict.get (ctrls st) k) as [ck|] eqn:Hk;
      [|exfalso; apply (B k); [now left|exact Hk]].
    pose proof (update_one_result skip reset st k ck Hk) as R.
    destruct (Dict.get ck ("type"%string : str)) as [ty|] eqn:Ht.
    2:{ rewrite (for_each_cons_raise _ _ _ _ _ _ _ _ R).
        split; [right; now left|]. intros name c _ _ _. now left. }
    assert (Go : forall s1 ev1,
      update_one v4l2_ctl skip reset k st = (Ok tt, s1, ev1) ->
      (skip ty = false -> Dict.get ck (read_key reset) <> None) ->
      (outcome (for_each (k :: l) (update_one v4l2_ctl skip reset) st) = Ok tt
       \/ key_missing reset
            (outcome (for_each (k :: l) (update_one v4l2_ctl skip reset) st)))
      /\ forall name c,
           In name (k :: l) -> Dict.get (ctrls st) name = Some c ->
           lacks_key skip reset c ->
           key_missing reset
             (outcome (for_each (k :: l) (update_one v4l2_ctl skip reset) st))).
    { intros s1 ev1 E Hrd. rewrite (for_each_cons_ok _ _ _ _ _ _ _ E).
      assert (F1 : final (update_one v4l2_ctl skip reset k st) = s1)
        by now rewrite E.
      assert (B1 : forall k', In k' l -> Dict.get (ctrls s1) k' <> None).
      { intros k' I. rewrite <- F1. apply update_one_bound. apply B.
        now right. }
      destruct (IH s1 B1) as [O1 M1]. split; [exact O1|].
      intros name c I Hc L. destruct (eqb_str name k) eqn:Enk.
      - exfalso. apply eqb_str_eq in Enk. subst name.
        rewrite Hk in Hc. injection Hc as <-.
        destruct L as [L|[Lp Lr]];
          [discriminate (eq_trans (eq_sym Ht) L)|].
        rewrite (passes_over_type skip ck ty Ht) in Lp. exact (Hrd Lp Lr).
      - apply eqb_str_neq in Enk. destruct I as [I|I]; [congruence|].
        apply (M1 name c I); [|exact L].
        rewrite <- F1. now rewrite update_one_other. }
    destruct (skip ty) eqn:Hs.
    { apply (Go st [] R). discriminate. }
    destruct (Dict.get ck (read_key reset)) as [val|] eqn:Hv.
    + destruct R as (b & s1 & ev1 & _ & E). apply (Go s1 ev1 E).
      intros _. discriminate.
    + rewrite (for_each_cons_raise _ _ _ _ _ _ _ _ R).
      split; [right; now right|]. intros name c _ _ _. now right.
Qed.

Lemma update_one_keeps_reads skip reset st name :
  only_values (ctrls st)
    (ctrls (final (update_one v4l2_ctl skip reset name st)))
  /\ forall n,
       reads reset (ctrls (final (update_one v4l2_ctl skip reset name st))) n
       = reads reset (ctrls st) n.
Proof.
  split; [apply update_one_only_values|apply update_one_reads].
Qed.

(** [update] ends with KeyError when a cached control has no type, or
    lacks the attribute that [update] sets ([default] on reset, [value]
    otherwise): the exception names one of these two keys. *)
Theorem update_missing_attribute st reset name c :
  Dict.get (ctrls st) name = Some c ->
  Dict.get c ("type"%string : str) = None
  \/ Dict.get c (read_key reset) = None ->
  key_missing reset (outcome (update v4l2_ctl reset st)).
Proof.
  intros Hc Hm.
  assert (I : In name (Dict.keys (ctrls st))) by (eapply get_in_keys; eauto).
  assert (B : forall k, In k (Dict.keys (ctrls st)) ->
                Dict.get (ctrls st) k <> None).
  { intros k Ik E. apply in_keys_get in Ik as [v Ev]. congruence. }
  destruct (pass_loop_keys is_int reset _ st B) as [O1 M1].
  pose proof (for_each_keeps World _
                (fun s => only_values (ctrls st) (ctrls s)
                          /\ forall n, reads reset (ctrls s) n
                                       = reads reset (ctrls st) n)
                (update_one v4l2_ctl is_int reset) (Dict.keys (ctrls st))) as K.
  specialize (K (fun a s H =>
    conj (only_values_trans _ _ _ (proj1 H)
            (proj1 (update_one_keeps_reads is_int reset s a)))
         (fun n => eq_trans (proj2 (update_one_keeps_reads is_int reset s a) n)
                     (proj2 H n)))
    st (conj (only_values_refl _) (fun n => eq_refl))).
  unfold update, bind. rewrite update_pass_for_each.
  unfold outcome, final in *.
  destruct (Dict.get c ("type"%string : str)) as [ty|] eqn:Ht.
  2:{ specialize (M1 name c I Hc (or_introl Ht)).
      destruct (for_each _ _ st) as [[[[]|e] st1] ev1]; simpl in *;
        [|exact M1].
      destruct M1 as [M1|M1]; discriminate. }
  destruct Hm as [Hm|Hm]; [discriminate|].
  destruct (is_int ty) eqn:Ei.
  2:{ assert (L : lacks_key is_int reset c).
      { right. rewrite (passes_over_type is_int c ty Ht). auto. }
      specialize (M1 name c I Hc L).
      destruct (for_each _ _ st) as [[[[]|e] st1] ev1]; simpl in *;
        [|exact M1].
      destruct M1 as [M1|M1]; discriminate. }
  destruct (for_each _ _ st) as [[[[]|e] st1] ev1]; simpl in *.
  2:{ destruct O1 as [O1|O1]; [discriminate|exact O1]. }
  destruct K as [[Ks Ov] Rd]. rewrite update_pass_for_each.
  destruct (Ov _ _ Hc) as (c1 & Hc1 & Same & _).
  assert (B2 : forall k, In k (Dict.keys (ctrls st1)) ->
                 Dict.get (ctrls st1) k <> None).
  { intros k Ik E. apply in_keys_get in Ik as [v Ev]. congruence. }
  destruct (pass_loop_keys is_bool_or_menu reset _ st1 B2) as [_ M2].
  assert (L : lacks_key is_bool_or_menu reset c1).
  { assert (T1 : Dict.get c1 ("type"%string : str) = Some ty).
    { rewrite Same by discriminate. exact Ht. }
    right. rewrite (passes_over_type is_bool_or_menu c1 ty T1).
    split; [now apply is_int_not_bool_menu|].
    pose proof (Rd name) as Rn. unfold reads in Rn.
    rewrite Hc, Hc1 in Rn. simpl in Rn. congruence. }
  assert (I2 : In name (Dict.keys (ctrls st1))) by now rewrite Ks.
  specialize (M2 name c1 I2 Hc1 L).
  destruct (for_each _ _ st1) as [[r2 st2] ev2]. exact M2.
Qed.


Lemma reset_ctl_other c k :
  k <> ("value"%string : str) -> Dict.get (reset_ctl c) k = Dict.get c k.
Proof.
  intros N. unfold reset_ctl. destruct (is_inactive c); [reflexivity|].
  destruct (Dict.get c ("default"%string : str)); [|reflexivity].
  now apply get_set_other.
Qed.

Lemma reset_ctl_inactive c : is_inactive (reset_ctl c) = is_inactive c.
Proof.
  unfold is_inactive, flags_of. rewrite reset_ctl_other by discriminate.
  reflexivity.
Qed.

(** Resetting twice is resetting once. *)
Lemma reset_ctl_twice c : reset_ctl (reset_ctl c) = reset_ctl c.
Proof.
  unfold reset_ctl at 1. rewrite reset_ctl_inactive.
  rewrite reset_ctl_other by discriminate.
  unfold reset_ctl. destruct (is_inactive c); [reflexivity|].
  destruct (Dict.get c ("default"%string : str)); [|reflexivity].
  apply set_set.
Qed.

(** One turn of a loop of [update] on reset, when the device takes every
    value. *)
Lemma update_one_reset (skip : value -> bool) st k c :
  sets_accepted v4l2_ctl (device st) ->
  Dict.get (ctrls st) k = Some c ->
  Dict.get c ("type"%string : str) <> None ->
  Dict.get c ("default"%string : str) <> None ->
  exists s' ev,
    update_one v4l2_ctl skip true k st = (Ok tt, s', ev)
    /\ device s' = device st
    /\ forall n,
         Dict.get (ctrls s') n
         = if eqb_str n k
           then Some (if passes_over skip c then c else reset_ctl c)
           else Dict.get (ctrls st) n.
Proof.
  intros Acc Hc Ht Hd.
  assert (Same : forall n,
            Dict.get (ctrls st) n
            = if eqb_str n k then Some c else Dict.get (ctrls st) n).
  { intros n. destruct (eqb_str n k) eqn:E; [|reflexivity].
    apply eqb_str_eq in E. now subst. }
  destruct (Dict.get c ("type"%string : str)) as [ty|] eqn:Ety;
    [|congruence].
  destruct (Dict.get c ("default"%string : str)) as [d|] eqn:Ed;
    [|congruence].
  rewrite (passes_over_type skip c ty Ety).
  destruct (skip ty) eqn:Hs.
  { exists st, [].
    rewrite (update_one_skip World v4l2_ctl skip true st k c ty Hc Ety Hs).
    auto. }
  rewrite (update_one_set World v4l2_ctl skip true st k c ty d Hc Ety Hs Ed).
  unfold reset_ctl. rewrite Ed.
  destruct (is_inactive c) eqn:Hf.
  - exists st, [SetValue k d]. split; [|auto].
    assert (E : setValue v4l2_ctl k d st = (Ok true, st, [SetValue k d])).
    { unfold setValue. mred. rewrite Hc. simpl. unfold is_inactive in Hf.
      simpl in Hf. rewrite Hf. reflexivity. }
    now rewrite E.
  - pose proof (setValue_active World v4l2_ctl st k d c Hc Hf) as A.
    cbv zeta in A. rewrite A. pose proof (Acc k d (world st)) as Ak.
    destruct (v4l2_ctl _ (world st)) as [[out|] w]; [|now elim Ak].
    do 2 eexists. split; [reflexivity|]. split; [reflexivity|]. simpl.
    intros n. destruct (eqb_str n k) eqn:E.
    + apply eqb_str_eq in E. subst n. apply get_set_same.
    + apply eqb_str_neq in E. now apply get_set_other.
Qed.

(** A loop of [update] on reset over distinct cached names, when the
    device takes every value: it completes, and the controls it does not
    pass over are reset. *)
Lemma pass_loop_reset (skip : value -> bool) (l : list str) :
  NoDup l ->
  forall st,
  sets_accepted v4l2_ctl (device st) ->
  (forall k, In k l ->
     exists c, Dict.get (ctrls st) k = Some c
               /\ Dict.get c ("type"%string : str) <> None
               /\ Dict.get c ("default"%string : str) <> None) ->
  outcome (for_each l (update_one v4l2_ctl skip true) st) = Ok tt
  /\ device (final (for_each l (update_one v4l2_ctl skip true) st))
     = device st
  /\ forall n,
       Dict.get (ctrls (final (for_each l (update_one v4l2_ctl skip true) st)))
         n
       = option_map
           (fun c => if existsb (eqb_str n) l && negb (passes_over skip c)
                     then reset_ctl c else c)
           (Dict.get (ctrls st) n).
Proof.
  induction 1 as [|k l Nk ND IH]; intros st Acc Hl; simpl.
  - split; [reflexivity|]. split; [reflexivity|]. intros n.
    unfold final, ret. simpl. now destruct (Dict.get (ctrls st) n).
  - destruct (Hl k (or_introl eq_refl)) as (c & Hc & Ht & Hd).
    destruct (update_one_reset skip st k c Acc Hc Ht Hd)
      as (s1 & ev1 & E1 & D1 & G1).
    assert (Acc1 : sets_accepted v4l2_ctl (device s1)) by now rewrite D1.
    assert (Hl1 : forall k', In k' l ->
              exists c', Dict.get (ctrls s1) k' = Some c'
                         /\ Dict.get c' ("type"%string : str) <> None
                         /\ Dict.get c' ("default"%string : str) <> None).
    { intros k' I. rewrite G1. destruct (eqb_str k' k) eqn:E.
      - apply eqb_str_eq in E. subst k'. contradiction.
      - apply Hl. now right. }
    destruct (IH s1 Acc1 Hl1) as (O2 & D2 & G2).
    unfold bind, outcome, final in *. rewrite E1.
    destruct (for_each l _ s1) as [[r2 s2] ev2]. simpl in *.
    split; [exact O2|]. split; [congruence|]. intros n.
    rewrite G2, G1. rewrite (eqb_str_sym n k).
    destruct (eqb_str k n) eqn:E; simpl.
    + apply eqb_str_eq in E. subst n. rewrite Hc. simpl.
      assert (X : existsb (eqb_str k) l = false).
      { apply not_true_is_false. intros X.
        apply existsb_exists in X as (x & Ix & Ex).
        apply eqb_str_eq in Ex. now subst x. }
      rewrite X. simpl. now destruct (passes_over skip c).
    + reflexivity.
Qed.

(** The default action on a device that takes every value.  When each
    cached control has a type and a default, [update] with [reset] True
    completes, and it leaves each control with its default as its value;
    an inactive control is left as it was. *)
Theorem update_reset_defaults st name c :
  wf_dict (ctrls st) ->
  readable true (ctrls st) ->
  sets_accepted v4l2_ctl (device st) ->
  Dict.get (ctrls st) name = Some c ->
  outcome (update v4l2_ctl true st) = Ok tt
  /\ Dict.get (ctrls (final (update v4l2_ctl true st))) name
     = Some (reset_ctl c).
Proof.
  intros Wf Rd Acc Hc.
  assert (Hl : forall k, In k (Dict.keys (ctrls st)) ->
            exists c', Dict.get (ctrls st) k = Some c'
                       /\ Dict.get c' ("type"%string : str) <> None
                       /\ Dict.get c' ("default"%string : str) <> None).
  { intros k I. apply in_keys_get in I as [c' E]. exists c'.
    split; [exact E|]. exact (Rd _ _ E). }
  destruct (pass_loop_reset is_int _ Wf st Acc Hl) as (O1 & D1 & G1).
  destruct (pass_loop_any World v4l2_ctl is_int true _
              (Dict.keys (ctrls st)) st (same_shape_refl (ctrls st)))
    as [[K1 _] _].
  unfold update, bind. rewrite !update_pass_for_each.
  unfold outcome, final in *.
  destruct (for_each (Dict.keys (ctrls st)) _ st) as [[r1 st1] ev1].
  simpl in *. subst r1. rewrite update_pass_for_each, K1.
  assert (Acc1 : sets_accepted v4l2_ctl (device st1)) by now rewrite D1.
  assert (Hl1 : forall k, In k (Dict.keys (ctrls st)) ->
            exists c', Dict.get (ctrls st1) k = Some c'
                       /\ Dict.get c' ("type"%string : str) <> None
                       /\ Dict.get c' ("default"%string : str) <> None).
  { intros k I. destruct (Hl k I) as (c0 & E0 & T0 & F0). rewrite G1, E0.
    simpl. eexists. split; [reflexivity|].
    destruct (_ && _); [|auto].
    rewrite !reset_ctl_other by discriminate. auto. }
  destruct (pass_loop_reset is_bool_or_menu _ Wf st1 Acc1 Hl1)
    as (O2 & _ & G2).
  destruct (for_each (Dict.keys (ctrls st)) _ st1) as [[r2 st2] ev2].
  simpl in *. split; [exact O2|]. rewrite G2, G1, Hc. simpl.
  assert (X : existsb (eqb_str name) (Dict.keys (ctrls st)) = true).
  { apply existsb_exists. exists name. split; [|apply eqb_str_refl].
    eapply get_in_keys; eauto. }
  rewrite X. simpl. destruct (Rd _ _ Hc) as [T _].
  destruct (Dict.get c ("type"%string : str)) as [ty|] eqn:Ety;
    [|congruence].
  rewrite (passes_over_type is_int c ty Ety).
  destruct (is_int ty) eqn:Ei; simpl.
  - rewrite (passes_over_type is_bool_or_menu c ty Ety).
    now rewrite (is_int_not_bool_menu _ Ei).
  - assert (T1 : Dict.get (reset_ctl c) ("type"%string : str) = Some ty).
    { rewrite reset_ctl_other by discriminate. exact Ety. }
    rewrite (passes_over_type is_bool_or_menu _ ty T1).
    destruct (is_bool_or_menu ty); simpl; [reflexivity|].
    now rewrite reset_ctl_twice.
Qed.

End MoreUpdateFacts.

Lemma update_commands_witness :
  exists name c val,
    Dict.get (ctrls Demo.st9) name = Some c
    /\ Dict.get c (read_key true) = Some val
    /\ Dict.get c ("flags"%string : str)
       <> Some (VStr ("inactive"%string : str))
    /\ [ "-d"%string : str; Demo.video9; "--set-ctrl"%string : str;
         "link_frequency=0"%string : str ]
       = set_ctrl_argv (device Demo.st9) name val.
Proof.
  apply (update_commands unit (Demo.device_of Demo.listing true) Demo.st9
           true _ false).
  vm_compute. right. left. reflexivity.
Defined.

Lemma update_missing_attribute_witness :
  key_missing false
    (outcome (update (Demo.device_of Demo.listing true) false
                Demo.st_button)).
Proof.
  apply (update_missing_attribute unit (Demo.device_of Demo.listing true)
           Demo.st_button false ("restore_factory_settings"%string : str)
           Demo.ctl_button).
  - reflexivity.
  - right. reflexivity.
Defined.

Lemma readable_cached : readable true Demo.cached.
Proof.
  intros name c H. vm_compute in H.
  repeat match type of H with
         | (if ?b then _ else _) = _ => destruct b
         end;
    try discriminate; injection H as <-; vm_compute; split; discriminate.
Qed.

Lemma update_reset_defaults_witness :
  outcome (update (Demo.device_of Demo.listing true) true Demo.st0) = Ok tt
  /\ Dict.get
       (ctrls (final (update (Demo.device_of Demo.listing true) true
                        Demo.st0)))
       Demo.brightness
     = Some (reset_ctl Demo.ctl_brightness).
Proof.
  apply (update_reset_defaults unit (Demo.device_of Demo.listing true)
           Demo.st0 Demo.brightness Demo.ctl_brightness).
  - exact (proj1 cached_wf).
  - exact readable_cached.
  - intros name val w. simpl. discriminate.
  - reflexivity.
Defined.

(** ** The numbers of the listing *)

Section MoreParseFacts.

Lemma is_digit_is_word (a : ascii) : is_digit a = true -> is_word a = true.
Proof. each_ascii a; vm_compute; intros H; try discriminate; reflexivity. Qed.

Lemma digits_of_inj (u v : Decimal.uint) :
  Py.digits_of u = Py.digits_of v -> u = v.
Proof.
  intros E.
  pose proof (JsonFacts.uint_of_digits_of u true (or_intror eq_refl)) as Hu.
  pose proof (JsonFacts.uint_of_digits_of v true (or_intror eq_refl)) as Hv.
  rewrite E in Hu. congruence.
Qed.

Lemma to_uint_not_nil (p : positive) : Pos.to_uint p <> Decimal.Nil.
Proof.
  destruct (JsonFacts.to_uint_head p) as (a & t & E & _).
  intros N. rewrite N in E. discriminate.
Qed.

(** [int(str(n))] is [n]. *)
Lemma int_str_of_int (n : Z) : Py.int (Py.str_of_int n) = Some n.
Proof.
  destruct n as [|p|p].
  - reflexivity.
  - unfold Py.str_of_int. simpl Z.to_int. cbv iota.
    assert (D : Py.isdigit (Py.digits_of (Pos.to_uint p)) = true).
    { unfold Py.isdigit.
      destruct (JsonFacts.to_uint_head p) as (a & t & E & _).
      rewrite <- (JsonFacts.digits_of_digits (Pos.to_uint p)).
      now rewrite E. }
    destruct (int_isdigit _ D) as (u & Hu & Du).
    apply digits_of_inj in Du. subst u. rewrite Hu.
    now rewrite JsonFacts.of_uint_to_uint.
  - unfold Py.str_of_int. simpl Z.to_int. cbv iota.
    set (ds := Py.digits_of (Pos.to_uint p)).
    assert (Dg : forallb is_digit ds = true)
      by apply JsonFacts.digits_of_digits.
    assert (S : Py.strip ("-"%char :: ds) = "-"%char :: ds).
    { unfold Py.strip. rewrite (lstrip_head ("-"%char :: ds) eq_refl).
      rewrite lstrip_head; [apply rev_involutive|].
      destruct (rev ("-"%char :: ds)) as [|a t] eqn:E; [exact I|].
      assert (Ia : In a ("-"%char :: ds)).
      { apply in_rev. rewrite E. now left. }
      destruct Ia as [<-|Ia]; [reflexivity|].
      apply is_digit_not_space.
      exact (proj1 (forallb_forall _ _) Dg a Ia). }
    unfold Py.int. rewrite S. unfold ds.
    rewrite JsonFacts.uint_of_digits_of by (left; apply to_uint_not_nil).
    simpl. now rewrite JsonFacts.of_uint_to_uint.
Qed.

Lemma value_token_str_of_int (n : Z) : value_token (Py.str_of_int n).
Proof.
  assert (W : forall u, forallb is_word (Py.digits_of u) = true).
  { intros u. apply forallb_forall. intros a Ia. apply is_digit_is_word.
    exact (proj1 (forallb_forall _ _) (JsonFacts.digits_of_digits u) a Ia). }
  destruct n as [|p|p]; unfold Py.str_of_int; simpl Z.to_int; cbv iota.
  - exists ("0"%string : str). repeat split; [discriminate|now left].
  - exists (Py.digits_of (Pos.to_uint p)). split; [|split; [apply W|now left]].
    destruct (JsonFacts.to_uint_head p) as (a & t & E & _).
    rewrite E. discriminate.
  - exists (Py.digits_of (Pos.to_uint p)). split; [|split; [apply W|now right]].
    destruct (JsonFacts.to_uint_head p) as (a & t & E & _).
    rewrite E. discriminate.
Qed.

(** Two values that start at the same place and are both followed by
    something that is not a word character are the same value. *)
Lemma value_token_unique (t1 t2 r1 r2 : str) :
  value_token t1 -> value_token t2 ->
  word_follows r1 = false -> word_follows r2 = false ->
  t1 ++ r1 = t2 ++ r2 -> t1 = t2.
Proof.
  intros (w1 & N1 & W1 & T1) (w2 & N2 & W2 & T2) F1 F2 E.
  destruct T1 as [->| ->], T2 as [->| ->].
  - exact (word_run_unique w1 w2 r1 r2 W1 W2 F1 F2 E).
  - exfalso. destruct w1 as [|a w1]; [congruence|]. simpl in E.
    injection E as -> _. discriminate W1.
  - exfalso. destruct w2 as [|a w2]; [congruence|]. simpl in E.
    injection E as <- _. discriminate W2.
  - simpl in E. injection E as E. f_equal.
    exact (word_run_unique w1 w2 r1 r2 W1 W2 F1 F2 E).
Qed.

(** An integer printed after [attr=] in the remainder of a control
    line, at the first place where [attr=value] occurs and followed by
    something that is not a word character, is read by [get_ctls] as this
    integer, negative numbers included: the attribute of the control is the
    [int], not the text. *)
Theorem listed_int_read_back (a : str) (n : Z) (pre tail : str) (c0 : ctl) :
  In a ATTRS ->
  word_follows tail = false ->
  (forall b tok,
     occurs_at a (pre ++ a ++ ["="%char] ++ Py.str_of_int n ++ tail) b tok ->
     length pre <= length b) ->
  Dict.get
    (parse_attrs re_attrs
       (pre ++ a ++ ["="%char] ++ Py.str_of_int n ++ tail) c0) a
  = Some (VInt n).
Proof.
  intros Ha F First. destruct (in_ATTRS a Ha) as [X _].
  unfold re_attrs. rewrite (AttrFacts.parse_attrs_get ATTRS _ NoDup_ATTRS), X.
  set (rest := pre ++ a ++ ["="%char] ++ Py.str_of_int n ++ tail) in *.
  assert (O : occurs_at a rest pre (Py.str_of_int n)).
  { exists tail. split; [reflexivity|apply value_token_str_of_int]. }
  unfold attr_read. pose proof (AttrFacts.search_attr a rest) as S.
  destruct (Re.search (re_attr a) rest) as [f|]; [|now elim (S _ _ O)].
  destruct S as (tok & after & G & E & V & Fa & L).
  assert (Len : length (Re.before f) = length pre).
  { apply Nat.le_antisymm; [exact (L _ _ O)|].
    apply (First _ tok). exists after. auto. }
  unfold rest in E at 1. symmetry in E.
  apply app_same_length in E as [_ E]; [|exact Len].
  apply app_inv_head in E. injection E as E.
  assert (T : tok = Py.str_of_int n).
  { exact (value_token_unique _ _ after tail V (value_token_str_of_int n)
             Fa F E). }
  rewrite G. simpl. unfold attr_value. rewrite T, int_str_of_int.
  reflexivity.
Qed.

End MoreParseFacts.

Lemma listed_int_read_back_witness :
  Dict.get
    (parse_attrs re_attrs
       ("step=1 min=-64 max=64"%string : str) (Dict.empty value))
    ("min"%string : str)
  = Some (VInt (-64)).
Proof.
  apply (listed_int_read_back ("min"%string : str) (-64)
           ("step=1 "%string : str) (" max=64"%string : str)
           (Dict.empty value)).
  - simpl. auto.
  - reflexivity.
  - intros b tok (after & E & _).
    do 7 (destruct b as [|? b]; [simpl in E; congruence|]).
    simpl. lia.
Defined.

(** ** The actions on the configuration file *)

Section MoreActionFacts.

Variable World : Type.
Variable v4l2_ctl : list str -> World -> option str * World.
Implicit Types (st : state World) (file_name : str).

Lemma skipn_app_length (A : Type) (p s : list A) :
  skipn (length p) (p ++ s) = s.
Proof. induction p as [|a p IH]; simpl; auto. Qed.

Lemma endswith_app (p suf : str) : Py.endswith (p ++ suf) suf = true.
Proof.
  unfold Py.endswith. rewrite length_app.
  replace (length p + length suf - length suf) with (length p) by lia.
  rewrite skipn_app_length, eqb_str_refl. simpl. apply Nat.leb_le. lia.
Qed.

Lemma endswith_inv (s suf : str) :
  Py.endswith s suf = true -> exists p, s = p ++ suf.
Proof.
  unfold Py.endswith. intros H. apply andb_true_iff in H as [E _].
  apply eqb_str_eq in E. exists (firstn (length s - length suf) s).
  rewrite <- E at 2. symmetry. apply firstn_skipn.
Qed.

(** The name of the file that the save action writes: it ends in
    [.ccconf]; a name that ends so is taken as it is and any other name
    gets the suffix; so naming is idempotent. *)
Theorem conf_name_suffix file_name :
  (exists stem, conf_name file_name = stem ++ suffix)
  /\ (forall stem, conf_name (stem ++ suffix) = stem ++ suffix)
  /\ ((exists stem, file_name = stem ++ suffix)
      \/ conf_name file_name = file_name ++ suffix)
  /\ conf_name (conf_name file_name) = conf_name file_name.
Proof.
  assert (A : forall stem, conf_name (stem ++ suffix) = stem ++ suffix).
  { intros stem. unfold conf_name. now rewrite endswith_app. }
  assert (B : exists stem, conf_name file_name = stem ++ suffix).
  { unfold conf_name. destruct (Py.endswith file_name suffix) eqn:E.
    - now apply endswith_inv.
    - eauto. }
  split; [exact B|]. split; [exact A|]. split.
  - unfold conf_name. destruct (Py.endswith file_name suffix) eqn:E.
    + left. now apply endswith_inv.
    + now right.
  - destruct B as [stem ->]. apply A.
Qed.

(** The save action writes one file and no other: every other file is
    as before; and when the dialog is cancelled (no name), no file is
    written at all. *)
Theorem save_writes_one_file st file_name :
  (forall path, path <> conf_name file_name ->
     Dict.get (files (final (action_Slot v4l2_ctl ("save"%string : str)
                               file_name st))) path
     = Dict.get (files st) path)
  /\ files (final (action_Slot v4l2_ctl ("save"%string : str) [] st))
     = files st.
Proof.
  assert (S : forall s, files (final (sync v4l2_ctl s)) = files s)
    by (intros s; apply get_ctls_files).
  split.
  - intros path N. unfold action_Slot. simpl.
    destruct file_name as [|a fn].
    + unfold bind at 1. unfold ret. specialize (S st). unfold final in *.
      destruct (sync v4l2_ctl st) as [[r s'] ev]. simpl in *. now rewrite S.
    + unfold bind at 1. unfold save_conf, bind, get_state, set_files. simpl.
      specialize (S (with_files st
                       (Dict.set (files st) (conf_name (a :: fn))
                          (Json.dumps (ctrls st))))).
      unfold final in *.
      destruct (sync v4l2_ctl _) as [[r s'] ev]. simpl in *. rewrite S.
      now apply get_set_other.
  - unfold action_Slot. simpl. unfold bind at 1. unfold ret.
    specialize (S st). unfold final in *.
    destruct (sync v4l2_ctl st) as [[r s'] ev]. simpl in *. exact S.
Qed.

(** The load action on a name for which there is no file: it ends with
    the exception of [open]; the cache is the one before, no command is
    run, and neither [update] nor [sync] is reached. *)
Theorem load_missing_file st file_name :
  file_name <> [] ->
  Dict.get (files st) file_name = None ->
  action_Slot v4l2_ctl ("load"%string : str) file_name st
  = (Raise OSError, st, []).
Proof.
  intros N H. unfold action_Slot. simpl.
  destruct file_name as [|a fn]; [congruence|].
  unfold bind at 1 2. unfold load_conf, bind, get_state, of_option, raise.
  rewrite H. reflexivity.
Qed.

End MoreActionFacts.

Lemma load_missing_file_witness :
  action_Slot (Demo.device_of Demo.listing true) ("load"%string : str)
    ("cam.ccconf"%string : str) Demo.st0
  = (Raise OSError, Demo.st0, []).
Proof.
  apply (load_missing_file unit (Demo.device_of Demo.listing true) Demo.st0
           ("cam.ccconf"%string : str)).
  - discriminate.
  - reflexivity.
Defined.

(** ** The constructor *)

Section MoreInitFacts.

Variable World : Type.
Variable v4l2_ctl : list str -> World -> option str * World.
Implicit Types (st : state World) (line : str).

Lemma get_ctls_line_frame line st :
  exists cs, final (get_ctls_line line st) = with_ctrls st cs.
Proof.
  assert (Id : st = with_ctrls st (ctrls st)) by now destruct st.
  unfold get_ctls_line, final.
  destruct (Re.split RE_CTL 3 line) as [|m0 m]; [now exists (ctrls st)|].
  generalize (m0 :: m). intros mm.
  unfold bind, of_option, get_state, set_ctrls, ret, raise.
  destruct (nth_error mm 1); [|now exists (ctrls st)].
  destruct (nth_error mm 2); [|now exists (ctrls st)].
  destruct (nth_error mm 3); [|now exists (ctrls st)].
  simpl. eauto.
Qed.

(** [get_ctls] changes the cache and nothing else of the object; the
    device is in the state in which the listing command left it. *)
Lemma get_ctls_frame st :
  exists cs,
    final (get_ctls v4l2_ctl st)
    = with_ctrls
        (with_world st (snd (v4l2_ctl (list_argv (device st)) (world st))))
        cs.
Proof.
  unfold get_ctls, bind, set_ctrls, get_state, cmd, final. simpl.
  destruct (v4l2_ctl _ (world st)) as [[out|] w]; simpl;
    [|now exists (Dict.empty ctl)].
  assert (Step : forall a s,
            (exists cs, s = with_ctrls (with_world st w) cs) ->
            exists cs, final (get_ctls_line a s)
                       = with_ctrls (with_world st w) cs).
  { intros a s [cs ->].
    destruct (get_ctls_line_frame a (with_ctrls (with_world st w) cs))
      as [cs' E']. rewrite E'. now exists cs'. }
  pose proof (for_each_keeps World _
                (fun s => exists cs, s = with_ctrls (with_world st w) cs)
                (@get_ctls_line World) (lines out) Step
                (with_world (with_ctrls st (Dict.empty ctl)) w)
                (ex_intro _ (Dict.empty ctl) eq_refl)) as K.
  unfold final in K.
  destruct (for_each _ _ _) as [[r st'] ev]. exact K.
Qed.

(** [CameraControl(device)] runs the command once, to list the controls
    of the device it was given (with [-d] and the path when there is
    one); the object then has this device, and a cache as [get_ctls]
    builds it, also when the constructor ends with an exception. *)
Theorem init_lists_once (dev : str) (w : World) (fs : Dict.t str) :
  device (final (init v4l2_ctl dev w fs)) = dev
  /\ files (final (init v4l2_ctl dev w fs)) = fs
  /\ world (final (init v4l2_ctl dev w fs))
     = snd (v4l2_ctl (device_args dev ++ [ "-l"%string : str ]) w)
  /\ (exists ok,
        events (init v4l2_ctl dev w fs)
        = [Exec (device_args dev ++ [ "-l"%string : str ]) ok])
  /\ listed (ctrls (final (init v4l2_ctl dev w fs))).
Proof.
  unfold init.
  destruct (get_ctls_frame (State dev (Dict.empty ctl) w fs)) as [cs E].
  split; [now rewrite E|]. split; [now rewrite E|]. split; [now rewrite E|].
  split.
  - exact (get_ctls_events World v4l2_ctl (State dev (Dict.empty ctl) w fs)).
  - apply get_ctls_listed.
Qed.

End MoreInitFacts.
